(** * mast: price utilities, menu calculations and the save path

    A shallow embedding of [priceUtils.ts], [menuCalculations.ts], the
    [handleSave] handler of [AddItemScreen.tsx] and the storage gateway, with
    the properties of the specification stated over it.

    A JavaScript [number] is an IEEE-754 binary64 value.  It is modelled by
    the executable specification of the Standard Library ([spec_float] with
    [prec = 53] and [emax = 1024]), so every arithmetic step below rounds the
    way the engine does. *)

From Stdlib Require Import ZArith QArith Qabs Qround Qpower Lia Lqa.
From Stdlib Require Import List Bool String Ascii Permutation.
From Stdlib Require Import Floats.SpecFloat DecimalString.
Import ListNotations.

Local Open Scope Z_scope.

(* ================================================================== *)
(** * JavaScript numbers *)
(* ================================================================== *)

Module JSNumber.

Definition prec : Z := 53.
Definition emax : Z := 1024.

Definition number : Type := spec_float.

Definition NaN : number := S754_nan.
Definition Infinity : number := S754_infinity false.
Definition zero : number := S754_zero false.
Definition neg_zero : number := S754_zero true.

(** The number an integer literal denotes (nearest binary64). *)
Definition of_Z (n : Z) : number := binary_normalize prec emax n 0 false.

Definition of_nat (n : nat) : number := of_Z (Z.of_nat n).

Definition hundred : number := of_Z 100.

Definition add : number -> number -> number := SFadd prec emax.
Definition mul : number -> number -> number := SFmul prec emax.
Definition div : number -> number -> number := SFdiv prec emax.

(** [x < y], [x <= y], [x > y], [x >= y]: false as soon as one side is NaN. *)
Definition lt (x y : number) : bool := SFltb x y.
Definition le (x y : number) : bool := SFleb x y.
Definition gt (x y : number) : bool := SFltb y x.
Definition ge (x y : number) : bool := SFleb y x.

Definition isNaN (x : number) : bool :=
  match x with S754_nan => true | _ => false end.

Definition is_finite (x : number) : bool :=
  match x with
  | S754_zero _ | S754_finite _ _ _ => true
  | _ => false
  end.

(** ToBoolean on a number: NaN, +0 and -0 are falsy. *)
Definition truthy (x : number) : bool :=
  match x with
  | S754_nan | S754_zero _ => false
  | _ => true
  end.

(** Every binary64 value has exactly one canonical representation. *)
Definition valid (x : number) : bool := valid_binary prec emax x.

(** The signed integer [floor (v + 1/2)] for [v = (-1)^s * m * 2^e], [e < 0]. *)
Definition round_half_up_Z (s : bool) (m : positive) (e : Z) : Z :=
  (2 * cond_Zopp s (Zpos m) + 2 ^ (- e)) / 2 ^ (1 - e).

(** [Math.round]: NaN, the infinities, the zeros and integral values are
    returned as they are; otherwise the closest integer, the one nearer to
    +Infinity on a tie; a result of zero keeps the sign of the argument. *)
Definition Math_round (x : number) : number :=
  match x with
  | S754_finite s m e =>
      if 0 <=? e then x
      else binary_normalize prec emax (round_half_up_Z s m e) 0 s
  | _ => x
  end.

End JSNumber.

Import JSNumber.

(* ================================================================== *)
(** * JavaScript strings *)
(* ================================================================== *)

Module JSString.

(** A string is a sequence of UTF-16 code units. *)
Definition code_unit : Type := N.
Definition jsstring : Type := list code_unit.

(** A literal of the source, written with Basic Latin characters. *)
Definition lit (s : string) : jsstring :=
  map N_of_ascii (list_ascii_of_string s).

(** WhiteSpace and LineTerminator code points, the ones [trim] and
    [parseFloat] strip. *)
Definition isWhiteSpace (c : code_unit) : bool :=
  ((9 <=? c) && (c <=? 13) || (c =? 32) || (c =? 160) || (c =? 5760)
   || (8192 <=? c) && (c <=? 8202) || (c =? 8232) || (c =? 8233)
   || (c =? 8239) || (c =? 8287) || (c =? 12288) || (c =? 65279))%N.

Fixpoint trimStart (s : jsstring) : jsstring :=
  match s with
  | c :: s' => if isWhiteSpace c then trimStart s' else s
  | [] => []
  end.

Definition trimEnd (s : jsstring) : jsstring := rev (trimStart (rev s)).

Definition trim (s : jsstring) : jsstring := trimEnd (trimStart s).

(** ToBoolean on a string: only the empty string is falsy. *)
Definition nonempty (s : jsstring) : bool :=
  match s with [] => false | _ :: _ => true end.

Fixpoint startsWith (s p : jsstring) : bool :=
  match p, s with
  | [], _ => true
  | a :: p', b :: s' => (a =? b)%N && startsWith s' p'
  | _ :: _, [] => false
  end.

(** [s.includes(sub)] *)
Fixpoint includes (s sub : jsstring) : bool :=
  startsWith s sub
  || match s with
     | [] => false
     | _ :: s' => includes s' sub
     end.

(** ** parseFloat *)

Definition isDigit (c : code_unit) : bool := ((48 <=? c) && (c <=? 57))%N.

(** The longest run of decimal digits at the front, and what follows it. *)
Fixpoint takeDigits (s : jsstring) : jsstring * jsstring :=
  match s with
  | c :: s' =>
      if isDigit c
      then let '(ds, rest) := takeDigits s' in (c :: ds, rest)
      else ([], s)
  | [] => ([], [])
  end.

Definition digitsValue (ds : jsstring) : Z :=
  fold_left (fun acc d => 10 * acc + (Z.of_N d - 48)) ds 0.

(** ExponentPart, when one follows: [e] or [E], an optional sign and at
    least one digit.  Otherwise the literal ends before it. *)
Definition exponentPart (s : jsstring) : Z :=
  match s with
  | c :: s1 =>
      if ((c =? 101) || (c =? 69))%N then
        match s1 with
        | sg :: s2 =>
            if (sg =? 45)%N then
              match fst (takeDigits s2) with
              | [] => 0
              | ds => - digitsValue ds
              end
            else
              match fst (takeDigits (if (sg =? 43)%N then s2 else s1)) with
              | [] => 0
              | ds => digitsValue ds
              end
        | [] => 0
        end
      else 0
  | [] => 0
  end.

(** The number nearest to [(-1)^s * m * 10^k] (ties to even): an integer is
    rounded as it is, a fraction through the division step of binary64 on
    the two integers, which rounds the exact quotient once. *)
Definition decimalToNumber (s : bool) (m k : Z) : number :=
  match m with
  | Zpos p =>
      if 0 <=? k
      then binary_normalize prec emax (cond_Zopp s (m * 10 ^ k)) 0 s
      else
        let '(q, e, l) := SFdiv_core_binary prec emax m 0 (10 ^ (- k)) 0 in
        binary_round_aux prec emax s q e l
  | _ => S754_zero s
  end.

(** The longest prefix that is a StrUnsignedDecimalLiteral, as a number;
    NaN when there is none. *)
Definition unsignedLiteral (sign : bool) (s : jsstring) : number :=
  if startsWith s (lit "Infinity") then S754_infinity sign
  else
    let '(ip, r1) := takeDigits s in
    if startsWith r1 (lit ".") then
      let '(fp, r3) := takeDigits (tl r1) in
      if nonempty ip || nonempty fp
      then decimalToNumber sign (digitsValue (ip ++ fp))
             (exponentPart r3 - Z.of_nat (List.length fp))
      else NaN
    else
      if nonempty ip
      then decimalToNumber sign (digitsValue ip) (exponentPart r1)
      else NaN.

(** [parseFloat(s)]: leading white space is skipped, then the longest
    prefix that is a StrDecimalLiteral is converted. *)
Definition parseFloat (s : jsstring) : number :=
  let t := trimStart s in
  if startsWith t (lit "-") then unsignedLiteral true (tl t)
  else if startsWith t (lit "+") then unsignedLiteral false (tl t)
  else unsignedLiteral false t.

End JSString.

Import JSString.

(* ================================================================== *)
(** * priceUtils.ts *)
(* ================================================================== *)

(** [Math.round(price * 100) / 100] *)
Definition roundPrice (price : number) : number :=
  div (Math_round (mul price hundred)) hundred.

(** [parseFloat], then 0 for NaN or a negative value, else [roundPrice]. *)
Definition parsePrice (priceString : jsstring) : number :=
  let parsed := parseFloat priceString in
  if isNaN parsed || lt parsed zero then zero
  else roundPrice parsed.

(** [price !== undefined && price !== null && !isNaN(price) && price >= 0] *)
Definition isValidPrice (price : option number) : bool :=
  match price with
  | Some p => negb (isNaN p) && ge p zero
  | None => false
  end.

(* ================================================================== *)
(** * types.ts *)
(* ================================================================== *)

(** Modelled from the spec: the declarations of [types.ts] are not part of
    the sources at hand.  [MenuCategory] is the fixed set of four courses and
    [MenuItem] has the five fields the screens read and write; [description]
    and [price] may be absent ([undefined]). *)
Inductive MenuCategory : Type := appetizers | mains | desserts | beverages.

Record MenuItem : Type := {
  id : jsstring;
  name : jsstring;
  description : option jsstring;
  price : option number;
  category : MenuCategory
}.

Definition category_eqb (a b : MenuCategory) : bool :=
  match a, b with
  | appetizers, appetizers | mains, mains
  | desserts, desserts | beverages, beverages => true
  | _, _ => false
  end.

(* ================================================================== *)
(** * Plain objects used as records keyed by category *)
(* ================================================================== *)

(** An object whose own properties are categories: the properties in
    insertion order, which is the order [for ... in] visits them. *)
Module Obj.

Definition t (V : Type) : Type := list (MenuCategory * V).

Definition empty {V} : t V := [].

Fixpoint get {V} (k : MenuCategory) (o : t V) : option V :=
  match o with
  | [] => None
  | (k', v) :: o' => if category_eqb k' k then Some v else get k o'
  end.

(** [o[k] = v]: an existing property keeps its place, a new one goes last. *)
Fixpoint set {V} (k : MenuCategory) (v : V) (o : t V) : t V :=
  match o with
  | [] => [(k, v)]
  | (k', w) :: o' =>
      if category_eqb k' k then (k', v) :: o' else (k', w) :: set k v o'
  end.

Definition keys {V} (o : t V) : list MenuCategory := map fst o.

End Obj.

(* ================================================================== *)
(** * menuCalculations.ts *)
(* ================================================================== *)

(** ** calculateAveragePriceByCourse *)

(** [count] only ever holds the number of items seen, an integer far below
    2^53 (an array has fewer than 2^32 elements), so it is kept as a natural
    number and converted where it is divided by. *)
Record Totals : Type := { sum : number; count : nat }.

(** One turn of the first loop. *)
Definition accumulate (categoryTotals : Obj.t Totals) (item : MenuItem)
  : Obj.t Totals :=
  let category := item.(category) in
  let price := match item.(price) with Some p => p | None => zero end in
  let categoryTotals :=
    match Obj.get category categoryTotals with
    | None => Obj.set category {| sum := zero; count := 0 |} categoryTotals
    | Some _ => categoryTotals
    end in
  match Obj.get category categoryTotals with
  | Some t =>
      Obj.set category {| sum := add t.(sum) price; count := S t.(count) |}
        categoryTotals
  | None => categoryTotals
  end.

(** One turn of the second loop. *)
Definition average (averages : Obj.t number) (entry : MenuCategory * Totals)
  : Obj.t number :=
  let '(category, {| sum := sum; count := count |}) := entry in
  Obj.set category
    (if (0 <? count)%nat then roundPrice (div sum (of_nat count)) else zero)
    averages.

Definition calculateAveragePriceByCourse (items : list MenuItem)
  : Obj.t number :=
  let categoryTotals := fold_left accumulate items Obj.empty in
  fold_left average categoryTotals Obj.empty.

(** ** searchMenuItems *)

(** Arrays are objects: a caller and a callee may hold the same one.  The
    heap maps a reference to the elements of the array it denotes. *)
Definition ref : Type := nat.
Definition Heap : Type := list (list MenuItem).

Definition deref (h : Heap) (r : ref) : list MenuItem := nth r h [].

Definition alloc (h : Heap) (a : list MenuItem) : Heap * ref :=
  (h ++ [a], List.length h).

Section Search.

(** [String.prototype.toLowerCase], the Unicode lower-case mapping. *)
Variable toLowerCase : jsstring -> jsstring.

(** The test of the loop body: [nameMatch || descMatch]. *)
Definition matches (lowerSearchTerm : jsstring) (item : MenuItem) : bool :=
  let nameMatch := includes (toLowerCase item.(name)) lowerSearchTerm in
  let descMatch :=
    match item.(description) with
    | Some d => includes (toLowerCase d) lowerSearchTerm
    | None => false
    end in
  nameMatch || descMatch.

(** The while loop: [index] runs over the array, [results] grows by push. *)
Fixpoint search_loop (lowerSearchTerm : jsstring) (items : list MenuItem)
    (results : list MenuItem) : list MenuItem :=
  match items with
  | [] => results
  | item :: rest =>
      search_loop lowerSearchTerm rest
        (if matches lowerSearchTerm item then results ++ [item] else results)
  end.

(** The function on the heap: the reference it returns and the heap it
    leaves. *)
Definition searchMenuItems (h : Heap) (items : ref) (searchTerm : jsstring)
  : Heap * ref :=
  if negb (nonempty (trim searchTerm)) then (h, items)
  else
    let lowerSearchTerm := trim (toLowerCase searchTerm) in
    alloc h (search_loop lowerSearchTerm (deref h items) []).

End Search.

(** ** Global statistics *)

(** The three module-level variables.  [totalMenuItems] only ever holds an
    array length. *)
Record Cache : Type := {
  totalMenuItems : nat;
  totalMenuValue : number;
  lastCalculationTime : option Z
}.

Definition initial_cache : Cache :=
  {| totalMenuItems := 0; totalMenuValue := zero; lastCalculationTime := None |}.

(** [items[i].price || 0] *)
Definition price_or_0 (item : MenuItem) : number :=
  match item.(price) with
  | Some p => if truthy p then p else zero
  | None => zero
  end.

(** [now] is what [new Date()] reads from the clock. *)
Definition updateGlobalStatistics (items : list MenuItem) (now : Z)
    (c : Cache) : Cache :=
  let total := fold_left (fun acc item => add acc (price_or_0 item)) items zero in
  {| totalMenuItems := List.length items;
     totalMenuValue := roundPrice total;
     lastCalculationTime := Some now |}.

Record Statistics : Type := {
  stat_totalMenuItems : nat;
  stat_totalMenuValue : number;
  stat_lastCalculationTime : option Z;
  stat_averageItemPrice : number
}.

Definition getGlobalStatistics (c : Cache) : Statistics * Cache :=
  let averageItemPrice :=
    if (0 <? c.(totalMenuItems))%nat
    then roundPrice (div c.(totalMenuValue) (of_nat c.(totalMenuItems)))
    else zero in
  ({| stat_totalMenuItems := c.(totalMenuItems);
      stat_totalMenuValue := roundPrice c.(totalMenuValue);
      stat_lastCalculationTime := c.(lastCalculationTime);
      stat_averageItemPrice := averageItemPrice |}, c).

(** [getCategoryLabels] *)
Definition getCategoryLabels : Obj.t jsstring :=
  let categoryMap :=
    [(appetizers, lit "Appetizers"); (mains, lit "Main Courses");
     (desserts, lit "Desserts"); (beverages, lit "Beverages")] in
  fold_left (fun labels '(key, label) => Obj.set key label labels)
    categoryMap Obj.empty.

(** ** The analytics operations as steps on the program state *)

(** What a run of the program can do between two reads of the statistics:
    call one of the analytics functions, or change an array of items
    (a screen reloading or editing its collection). *)
Inductive Step : Type :=
| CallAverage (items : ref)
| CallSearch (items : ref) (searchTerm : jsstring)
| CallLabels
| CallUpdate (items : ref) (now : Z)
| CallGet
| MutateItems (items : ref) (elements : list MenuItem).

Record World : Type := { cache : Cache; heap : Heap }.

Fixpoint store (h : Heap) (r : ref) (a : list MenuItem) : Heap :=
  match h, r with
  | [], _ => []
  | _ :: h', O => a :: h'
  | b :: h', S r' => b :: store h' r' a
  end.

Section Run.

Variable toLowerCase : jsstring -> jsstring.

Definition step (w : World) (s : Step) : World :=
  match s with
  | CallAverage _ | CallLabels => w
  | CallSearch items searchTerm =>
      {| cache := w.(cache);
         heap := fst (searchMenuItems toLowerCase w.(heap) items searchTerm) |}
  | CallUpdate items now =>
      {| cache := updateGlobalStatistics (deref w.(heap) items) now w.(cache);
         heap := w.(heap) |}
  | CallGet =>
      {| cache := snd (getGlobalStatistics w.(cache)); heap := w.(heap) |}
  | MutateItems items elements =>
      {| cache := w.(cache); heap := store w.(heap) items elements |}
  end.

Definition run (w : World) (steps : list Step) : World :=
  fold_left step steps w.

End Run.

Definition is_update (s : Step) : bool :=
  match s with CallUpdate _ _ => true | _ => false end.

(* ================================================================== *)
(** * storage.ts *)
(* ================================================================== *)

(** Modelled from the spec: [utils/storage.ts] is not part of the sources at
    hand; only its callers are.  The medium holds one record under a fixed
    key: nothing yet, an encoded collection, or content that does not
    decode.  A write replaces the record whole and fails when the medium
    refuses it. *)
Inductive Payload : Type :=
| Absent
| Encoded (items : list MenuItem)
| Malformed.

Record Storage : Type := { payload : Payload; writable : bool }.

Inductive StorageError : Type := ReadFailed | WriteFailed.

Definition jsstring_eqb (a b : jsstring) : bool :=
  if list_eq_dec N.eq_dec a b then true else false.

(** Modelled from the spec: [loadAll] returns the stored collection, or an
    empty one if nothing has been stored yet, and fails on content that
    cannot be decoded. *)
Definition loadMenuItems (st : Storage) : StorageError + list MenuItem :=
  match st.(payload) with
  | Absent => inr []
  | Encoded items => inr items
  | Malformed => inl ReadFailed
  end.

Definition writeMenuItems (items : list MenuItem) (st : Storage)
  : StorageError + Storage :=
  if st.(writable)
  then inr {| payload := Encoded items; writable := true |}
  else inl WriteFailed.

(** Replace the entry whose id matches, if there is one; else append. *)
Fixpoint upsert (item : MenuItem) (items : list MenuItem) : list MenuItem :=
  match items with
  | [] => [item]
  | x :: rest =>
      if jsstring_eqb x.(id) item.(id) then item :: rest
      else x :: upsert item rest
  end.

(** Modelled from the spec: [upsert] loads the full collection, replaces the
    entry whose id matches the item's if one exists, otherwise appends the
    item, then writes the full collection back. *)
Definition saveMenuItem (item : MenuItem) (st : Storage)
  : StorageError + Storage :=
  match loadMenuItems st with
  | inl e => inl e
  | inr items => writeMenuItems (upsert item items) st
  end.

Definition has_id (i : jsstring) (items : list MenuItem) : bool :=
  existsb (fun x => jsstring_eqb x.(id) i) items.

Definition find_by_id (i : jsstring) (items : list MenuItem) : option MenuItem :=
  find (fun x => jsstring_eqb x.(id) i) items.

(* ================================================================== *)
(** * AddItemScreen.tsx: handleSave *)
(* ================================================================== *)

(** The component state the handler reads.  [isEditing] and [editingId] are
    only ever set together, so they are one field: [Some id] while an item
    is being edited. *)
Record Form : Type := {
  form_name : jsstring;
  form_description : jsstring;
  form_price : jsstring;
  form_category : MenuCategory;
  editing : option jsstring
}.

(** What the handler does to the outside, in order. *)
Inductive Effect : Type :=
| Alert (title message : jsstring)
| SaveMenuItem (item : MenuItem).

(** [Date.now().toString()] *)
Definition now_toString (now : Z) : jsstring :=
  lit (NilZero.string_of_int (Z.to_int now)).

Definition handleSave (f : Form) (now : Z) (st : Storage)
  : list Effect * Storage :=
  if negb (nonempty (trim f.(form_name))) || negb (nonempty (trim f.(form_price)))
  then ([Alert (lit "Validation Error")
           (lit "Please fill in item name and price")], st)
  else
    let priceNumber := parsePrice f.(form_price) in
    if negb (isValidPrice (Some priceNumber)) || le priceNumber zero
    then ([Alert (lit "Invalid Price")
             (lit "Please enter a valid price greater than 0")], st)
    else
      let menuItem :=
        {| id := match f.(editing) with
                 | Some editingId => editingId
                 | None => now_toString now
                 end;
           name := trim f.(form_name);
           description := Some (trim f.(form_description));
           price := Some priceNumber;
           category := f.(form_category) |} in
      match saveMenuItem menuItem st with
      | inr st' =>
          ([SaveMenuItem menuItem;
            Alert (lit "Success")
              (lit "Menu item " ++
               lit (match f.(editing) with Some _ => "updated" | None => "added" end)
               ++ lit " successfully")], st')
      | inl _ =>
          ([SaveMenuItem menuItem;
            Alert (lit "Error")
              (lit "Failed to save menu item. Please try again.")], st)
      end.

(** The items the handler passes to the gateway. *)
Definition saved_items (effects : list Effect) : list MenuItem :=
  flat_map (fun e => match e with SaveMenuItem i => [i] | Alert _ _ => [] end)
    effects.

(* ================================================================== *)
(** * priceUtils.ts: formatPrice *)
(* ================================================================== *)

(** The decimal digits of a non-negative integer. *)
Definition decimal (n : Z) : jsstring :=
  lit (NilZero.string_of_uint (N.to_uint (Z.to_N n))).

(** The integer [n] for which [n / 100 - m * 2^e] is as close to zero as
    possible, the larger one if there are two. *)
Definition scaled_round (m : positive) (e : Z) : Z :=
  if 0 <=? e then 100 * Zpos m * 2 ^ e
  else (200 * Zpos m + 2 ^ (- e)) / 2 ^ (1 - e).

(** [m * 2^e >= 10^21] *)
Definition at_least_1e21 (m : positive) (e : Z) : bool :=
  if 0 <=? e then 10 ^ 21 <=? Zpos m * 2 ^ e
  else 10 ^ 21 * 2 ^ (- e) <=? Zpos m.

(** The digits of [n], padded with zeros to three at least, with a point
    before the last two. *)
Definition fixed2_digits (n : Z) : jsstring :=
  let m := if n =? 0 then lit "0" else decimal n in
  let k := List.length m in
  let m := if (k <=? 2)%nat then repeat 48%N (3 - k) ++ m else m in
  let k := List.length m in
  firstn (k - 2) m ++ lit "." ++ skipn (k - 2) m.

Section Format.

(** [Number::toString], which [toFixed] falls back on from 10^21 on. *)
Variable ToString : number -> jsstring.

(** [x.toFixed(2)] *)
Definition toFixed2 (x : number) : jsstring :=
  match x with
  | S754_nan => lit "NaN"
  | S754_infinity s => if s then lit "-Infinity" else lit "Infinity"
  | S754_zero _ => lit "0.00"
  | S754_finite s m e =>
      (if s then lit "-" else [])
      ++ (if at_least_1e21 m e then ToString (S754_finite false m e)
          else fixed2_digits (scaled_round m e))
  end.

Definition formatPrice (price : option number) : jsstring :=
  match price with
  | None => lit "R0.00"
  | Some p => if isNaN p then lit "R0.00" else lit "R" ++ toFixed2 p
  end.

End Format.

(* ================================================================== *)
(** * AddItemScreen.tsx: the form of an item being edited *)
(* ================================================================== *)

Section Prefill.

(** [Number::toString] *)
Variable ToString : number -> jsstring.

(** The effect that fills the form when the route carries an item. *)
Definition prefill (item : MenuItem) : Form :=
  {| form_name := item.(name);
     form_description :=
       match item.(description) with Some d => d | None => [] end;
     form_price :=
       ToString (match item.(price) with Some p => p | None => zero end);
     form_category := item.(category);
     editing := Some item.(id) |}.

End Prefill.

(* ================================================================== *)
(** * The category tables of the screens *)
(* ================================================================== *)

(** The property name a category is used as. *)
Definition category_key (c : MenuCategory) : jsstring :=
  match c with
  | appetizers => lit "appetizers"
  | mains => lit "mains"
  | desserts => lit "desserts"
  | beverages => lit "beverages"
  end.

(** MenuItem.tsx: [categoryLabels[item.category] || item.category] *)
Definition categoryLabel (item : MenuItem) : jsstring :=
  match Obj.get item.(category) getCategoryLabels with
  | Some label => if nonempty label then label else category_key item.(category)
  | None => category_key item.(category)
  end.

(** AddItemScreen.tsx: [categories] *)
Definition AddItemScreen_categories : list (jsstring * jsstring) :=
  [(lit "appetizers", lit "Appetizers"); (lit "mains", lit "Main Courses");
   (lit "desserts", lit "Desserts"); (lit "beverages", lit "Beverages")].

(** MenuScreen.tsx: [categories] *)
Definition MenuScreen_categories : list (jsstring * jsstring) :=
  [(lit "all", lit "All");
   (lit "appetizers", lit "Appetizers"); (lit "mains", lit "Main Courses");
   (lit "desserts", lit "Desserts"); (lit "beverages", lit "Beverages")].

(** [categories.find(c => c.key === key)?.label] *)
Definition find_label (table : list (jsstring * jsstring)) (key : jsstring)
  : option jsstring :=
  option_map snd (find (fun c => jsstring_eqb (fst c) key) table).

(** FilterScreen.tsx: [courses]; [None] is the key ['all']. *)
Definition courses : list (option MenuCategory * jsstring) :=
  [(None, lit "All Courses");
   (Some appetizers, lit "Appetizers"); (Some mains, lit "Main Courses");
   (Some desserts, lit "Desserts"); (Some beverages, lit "Beverages")].

(** FilterScreen.tsx: [courses.find(c => c.key === item.category)?.label] *)
Definition course_label (item : MenuItem) : option jsstring :=
  option_map snd
    (find (fun c => match fst c with
                    | Some k => category_eqb k item.(category)
                    | None => false
                    end) courses).

(* ================================================================== *)
(** * FilterScreen.tsx *)
(* ================================================================== *)

(** The component state: the two arrays by reference, the selected course
    ([None] for ['all']) and the search text. *)
Record FilterState : Type := {
  fs_menuItems : ref;
  fs_filteredItems : ref;
  selectedCourse : option MenuCategory;
  searchQuery : jsstring
}.

(** The for loop of [applyFilters]: [courseFiltered] grows by push. *)
Fixpoint course_loop (course : MenuCategory) (results : list MenuItem)
    (courseFiltered : list MenuItem) : list MenuItem :=
  match results with
  | [] => courseFiltered
  | item :: rest =>
      course_loop course rest
        (if category_eqb item.(category) course
         then courseFiltered ++ [item] else courseFiltered)
  end.

Section Filter.

Variable toLowerCase : jsstring -> jsstring.

(** [applyFilters]: on the heap, the module-level [filterChangeCount] and
    the state; [setFilteredItems] is the last thing it does. *)
Definition applyFilters (h : Heap) (filterChangeCount : nat) (st : FilterState)
  : Heap * nat * FilterState :=
  let filterChangeCount := S filterChangeCount in
  let '(h, results) := alloc h (deref h st.(fs_menuItems)) in
  let '(h, results) :=
    match st.(selectedCourse) with
    | Some course => alloc h (course_loop course (deref h results) [])
    | None => (h, results)
    end in
  let '(h, results) :=
    if nonempty (trim st.(searchQuery))
    then searchMenuItems toLowerCase h results st.(searchQuery)
    else (h, results) in
  (h, filterChangeCount,
   {| fs_menuItems := st.(fs_menuItems);
      fs_filteredItems := results;
      selectedCourse := st.(selectedCourse);
      searchQuery := st.(searchQuery) |}).

End Filter.

(** The while loop of [getItemCountByCourse]. *)
Fixpoint count_loop (course : MenuCategory) (menuItems : list MenuItem)
    (count : nat) : nat :=
  match menuItems with
  | [] => count
  | item :: rest =>
      count_loop course rest
        (if category_eqb item.(category) course then S count else count)
  end.

Definition getItemCountByCourse (h : Heap) (st : FilterState)
    (course : option MenuCategory) : nat :=
  match course with
  | None => List.length (deref h st.(fs_menuItems))
  | Some c => count_loop c (deref h st.(fs_menuItems)) 0
  end.

(* ================================================================== *)
(** * MenuScreen.tsx *)
(* ================================================================== *)

Record MenuState : Type := {
  ms_menuItems : ref;
  ms_filteredItems : ref;
  selectedCategory : jsstring;
  averagePrices : Obj.t number
}.

(** What the screen's handlers act on: the arrays, the statistics cache of
    menuCalculations.ts and the component state. *)
Record MenuWorld : Type := {
  mw_heap : Heap;
  mw_cache : Cache;
  mw_state : MenuState
}.

(** [loadItems]; [loaded] is what awaiting [loadMenuItems()] gives: the
    array, or the error it throws.  On an array the function takes three
    steps, [setMenuItems(items)], [setAveragePrices(averages)] and
    [updateGlobalStatistics(items)]; the result lists the world after each
    of them, in order.  React renders after a state update or after several
    of them (when it batches them), so a render may see any of these
    worlds; the card reads the statistics cache when it is rendered.  On an
    error no step is taken. *)
Definition loadItems (loaded : StorageError + list MenuItem) (now : Z)
    (w : MenuWorld) : list Effect * list MenuWorld :=
  match loaded with
  | inr elements =>
      let '(h, items) := alloc w.(mw_heap) elements in
      let set_items :=
        {| mw_heap := h;
           mw_cache := w.(mw_cache);
           mw_state :=
             {| ms_menuItems := items;
                ms_filteredItems := w.(mw_state).(ms_filteredItems);
                selectedCategory := w.(mw_state).(selectedCategory);
                averagePrices := w.(mw_state).(averagePrices) |} |} in
      let averages := calculateAveragePriceByCourse (deref h items) in
      let set_averages :=
        {| mw_heap := h;
           mw_cache := w.(mw_cache);
           mw_state :=
             {| ms_menuItems := items;
                ms_filteredItems := w.(mw_state).(ms_filteredItems);
                selectedCategory := w.(mw_state).(selectedCategory);
                averagePrices := averages |} |} in
      let updated :=
        {| mw_heap := h;
           mw_cache := updateGlobalStatistics (deref h items) now w.(mw_cache);
           mw_state := set_averages.(mw_state) |} in
      ([], [set_items; set_averages; updated])
  | inl _ =>
      ([Alert (lit "Error")
          (lit "Failed to load menu items. Please try again.")], [])
  end.

(** [filterItems]: for ['all'] the filtered list is the array of all items
    itself; otherwise [Array.prototype.filter] makes a new one. *)
Definition filterItems (w : MenuWorld) : MenuWorld :=
  let st := w.(mw_state) in
  let '(h, filtered) :=
    if jsstring_eqb st.(selectedCategory) (lit "all")
    then (w.(mw_heap), st.(ms_menuItems))
    else
      alloc w.(mw_heap)
        (filter (fun item =>
                   jsstring_eqb (category_key item.(category))
                     st.(selectedCategory))
           (deref w.(mw_heap) st.(ms_menuItems))) in
  {| mw_heap := h;
     mw_cache := w.(mw_cache);
     mw_state :=
       {| ms_menuItems := st.(ms_menuItems);
          ms_filteredItems := filtered;
          selectedCategory := st.(selectedCategory);
          averagePrices := st.(averagePrices) |} |}.

(** What the analytics card shows: a row per entry of [averagePrices], the
    item count and the overall average. *)
Record Card : Type := {
  rows : list (jsstring * jsstring);
  totalItems : nat;
  overallAverage : jsstring
}.

Section Render.

Variable ToString : number -> jsstring.

(** [renderAveragePricesCard] *)
Definition renderAveragePricesCard (w : MenuWorld) : option Card :=
  let categoryLabels := getCategoryLabels in
  let globalStats := fst (getGlobalStatistics w.(mw_cache)) in
  match Obj.keys w.(mw_state).(averagePrices) with
  | [] => None
  | _ =>
      Some
        {| rows :=
             map (fun '(category, avgPrice) =>
                    (match Obj.get category categoryLabels with
                     | Some label =>
                         if nonempty label then label else category_key category
                     | None => category_key category
                     end,
                     formatPrice ToString (Some avgPrice)))
               w.(mw_state).(averagePrices);
           totalItems := globalStats.(stat_totalMenuItems);
           overallAverage :=
             formatPrice ToString (Some globalStats.(stat_averageItemPrice)) |}
  end.

(** [ListHeaderComponent]: the card, when there is at least one item. *)
Definition listHeader (w : MenuWorld) : option Card :=
  if (0 <? List.length (deref w.(mw_heap) w.(mw_state).(ms_menuItems)))%nat
  then renderAveragePricesCard w
  else None.

End Render.

(* ================================================================== *)
(** * The specification's side *)
(* ================================================================== *)

(** ** Values *)

(** [2^e] as a rational. *)
Definition pow2 (e : Z) : Q := Qpower 2 e.

(** The rational a finite number denotes (0 for the others). *)
Definition to_Q (x : number) : Q :=
  match x with
  | S754_finite s m e => inject_Z (cond_Zopp s (Zpos m)) * pow2 e
  | _ => 0
  end.

(** The magnitude [m * 2^e]. *)
Definition mag (m : positive) (e : Z) : Q := inject_Z (Zpos m) * pow2 e.

(** Not NaN and not below zero. *)
Definition nonneg (x : number) : bool := negb (isNaN x) && negb (lt x zero).

(** ** The rounding rule as the specification words it *)

(** Nearest integer to [m * 2^e], an exact half going away from zero; then
    the sign. *)
Definition round_half_away_Z (s : bool) (m : positive) (e : Z) : Z :=
  cond_Zopp s ((2 * Zpos m + 2 ^ (- e)) / 2 ^ (1 - e)).

Definition round_half_away (x : number) : number :=
  match x with
  | S754_finite s m e =>
      if 0 <=? e then x
      else binary_normalize prec emax (round_half_away_Z s m e) 0 s
  | _ => x
  end.

Definition spec_roundPrice (price : number) : number :=
  div (round_half_away (mul price hundred)) hundred.

(** ** What the specification says the average of a category is *)

Definition items_of (c : MenuCategory) (items : list MenuItem) : list MenuItem :=
  filter (fun item => category_eqb item.(category) c) items.

(** A missing price counts as 0. *)
Definition price_or_default (item : MenuItem) : number :=
  match item.(price) with Some p => p | None => zero end.

(** The prices added one after the other, in the order of the list. *)
Definition sum_prices (items : list MenuItem) : number :=
  fold_left (fun acc item => add acc (price_or_default item)) items zero.

Definition category_average (c : MenuCategory) (items : list MenuItem)
  : option number :=
  match items_of c items with
  | [] => None
  | l => Some (roundPrice (div (sum_prices l) (of_nat (List.length l))))
  end.

(** The item with its missing price written out as 0. *)
Definition with_default_price (item : MenuItem) : MenuItem :=
  {| id := item.(id); name := item.(name); description := item.(description);
     price := Some (price_or_default item); category := item.(category) |}.

(** ** What the specification says a search selects *)

(** A case-insensitive substring. *)
Definition contains_ci (toLowerCase : jsstring -> jsstring)
    (field term : jsstring) : bool :=
  includes (toLowerCase field) (toLowerCase term).

(** Name or description contains [term]. *)
Definition spec_matches (toLowerCase : jsstring -> jsstring)
    (term : jsstring) (item : MenuItem) : bool :=
  contains_ci toLowerCase item.(name) term
  || match item.(description) with
     | Some d => contains_ci toLowerCase d term
     | None => false
     end.

(** The lower-case mapping on Basic Latin letters; every other code unit is
    left as it is.  [toLowerCase] agrees with it on Basic Latin strings. *)
Definition basic_latin_toLowerCase (s : jsstring) : jsstring :=
  map (fun c => if ((65 <=? c) && (c <=? 90))%N then (c + 32)%N else c) s.

(** ** The sum the statistics are computed from *)

(** The sum the loop of [updateGlobalStatistics] builds. *)
Definition total_value (items : list MenuItem) : number :=
  fold_left (fun acc item => add acc (price_or_0 item)) items zero.

(* ================================================================== *)
(** * Definitions the proofs use *)
(* ================================================================== *)

(** What one more item does to the totals of its category. *)
Definition bump (o : option Totals) (item : MenuItem) : option Totals :=
  let t := match o with Some t => t | None => {| sum := zero; count := 0 |} end in
  Some {| sum := add t.(sum) (price_or_default item); count := S t.(count) |}.

(** The value the second loop stores for an entry of the totals. *)
Definition average_of (t : Totals) : number :=
  if (0 <? t.(count))%nat
  then roundPrice (div t.(sum) (of_nat t.(count)))
  else zero.

(** A truncated mantissa and its location stand for [m + a/b]. *)
Definition loc_ok (a b : Z) (l : location) : Prop :=
  0 <= a < b /\
  match l with
  | loc_Exact => a = 0
  | loc_Inexact Lt => 0 < 2 * a < b
  | loc_Inexact Eq => 2 * a = b
  | loc_Inexact Gt => b < 2 * a
  end.

(** The last step of [binary_round_aux]: zero, a finite number, or an
    overflow to infinity. *)
Definition build (s : bool) (m e : Z) : spec_float :=
  match m with
  | 0 => S754_zero s
  | Zpos p => if e <=? emax - prec then S754_finite s p e else S754_infinity s
  | Zneg _ => S754_nan
  end.

Definition has_sign (s : bool) (x : number) : Prop :=
  match x with
  | S754_zero s' | S754_infinity s' | S754_finite s' _ _ => s' = s
  | S754_nan => False
  end.

(** The mantissa fits 53 bits, or is the carry 2^53. *)
Definition mantissa_ok (x : number) : Prop :=
  match x with
  | S754_finite _ m _ => Zpos m <= 2 ^ 53
  | _ => True
  end.

(** Empty, or starting with a code unit that is not white space. *)
Definition starts_clean (s : jsstring) : Prop :=
  match s with [] => True | c :: _ => isWhiteSpace c = false end.

Ltac push_inject_in H :=
  repeat (rewrite inject_Z_plus in H || rewrite inject_Z_mult in H
          || rewrite inject_Z_opp in H).

Ltac push_inject_goal :=
  repeat (rewrite inject_Z_plus || rewrite inject_Z_mult
          || rewrite inject_Z_opp).

(* ================================================================== *)
(** * Sample data *)
(* ================================================================== *)

Definition mk_item (i : string) (c : MenuCategory) (p : option string)
  : MenuItem :=
  {| id := lit i; name := lit i; description := None;
     price := option_map (fun s => parseFloat (lit s)) p; category := c |}.

(** Four main courses. *)
Definition four_mains : list MenuItem :=
  [mk_item "a" mains (Some "2.63"); mk_item "b" mains (Some "6.53");
   mk_item "c" mains (Some "24.22"); mk_item "d" mains (Some "1.76")]%string.

(** Two starters at 10 and with no price, one dessert at 4. *)
Definition menu_with_unpriced : list MenuItem :=
  [mk_item "soup" appetizers (Some "10"); mk_item "bread" appetizers None;
   mk_item "cake" desserts (Some "4")]%string.

Definition burger_menu : list MenuItem :=
  [mk_item "salad" appetizers None; mk_item "burger" mains None]%string.

(** One main course at 44503241947464.695. *)
Definition costly_menu : list MenuItem :=
  [mk_item "feast" mains (Some "44503241947464.695")]%string.

(** A run that reads, searches, replaces the collection and reads again. *)
Definition stale_run : list Step :=
  [CallGet; CallSearch 0%nat (lit "burger"); MutateItems 0%nat [];
   CallAverage 0%nat; CallLabels; CallGet].

Definition stale_world : World :=
  {| cache := updateGlobalStatistics burger_menu 7 initial_cache;
     heap := [burger_menu] |}.

Definition soup : MenuItem := mk_item "soup" appetizers (Some "10")%string.
Definition cake : MenuItem := mk_item "cake" desserts (Some "4")%string.
Definition soup' : MenuItem := mk_item "soup" appetizers (Some "12.5")%string.

Definition two_stored : Storage :=
  {| payload := Encoded [soup; cake]; writable := true |}.

Definition burger_form : Form :=
  {| form_name := lit "  Burger ";
     form_description := lit "beef";
     form_price := lit "89.999";
     form_category := mains;
     editing := None |}.

(** A feast whose price is typed as "Infinity". *)
Definition infinity_form : Form :=
  {| form_name := lit "Feast";
     form_description := lit "";
     form_price := lit "Infinity";
     form_category := mains;
     editing := None |}.

(* ================================================================== *)
(** * Definitions the statements about the screens use *)
(* ================================================================== *)

(** The categories of a list in the order of their first occurrence. *)
Fixpoint first_seen (cs : list MenuCategory) : list MenuCategory :=
  match cs with
  | [] => []
  | c :: rest =>
      c :: filter (fun d => negb (category_eqb d c)) (first_seen rest)
  end.

(** A value of the type [MenuCategory | 'all'] as the string it is. *)
Definition course_key (course : option MenuCategory) : jsstring :=
  match course with
  | None => lit "all"
  | Some c => category_key c
  end.

(** The alerts among the effects of a handler, in order. *)
Definition alerts (effects : list Effect) : list (jsstring * jsstring) :=
  flat_map (fun e => match e with
                     | Alert title message => [(title, message)]
                     | SaveMenuItem _ => []
                     end) effects.

Definition mem (c : MenuCategory) (cs : list MenuCategory) : bool :=
  existsb (category_eqb c) cs.

(** What [o[k] = v] does to the keys of [o]. *)
Definition add_key (ks : list MenuCategory) (k : MenuCategory)
  : list MenuCategory :=
  if mem k ks then ks else ks ++ [k].

(* ================================================================== *)
(** * Sample screens *)
(* ================================================================== *)

(** The filter screen over the burger menu: main courses, no search text. *)
Definition mains_filter : FilterState :=
  {| fs_menuItems := 0%nat; fs_filteredItems := 1%nat;
     selectedCourse := Some mains; searchQuery := lit " " |}.

(** The same with every course and a search for "BURGER". *)
Definition burger_search : FilterState :=
  {| fs_menuItems := 0%nat; fs_filteredItems := 1%nat;
     selectedCourse := None; searchQuery := lit "BURGER" |}.

(** The menu screen over the burger menu with a category selected. *)
Definition menu_world (selected : string) : MenuWorld :=
  {| mw_heap := [burger_menu; []];
     mw_cache := initial_cache;
     mw_state := {| ms_menuItems := 0%nat; ms_filteredItems := 1%nat;
                    selectedCategory := lit selected;
                    averagePrices := Obj.empty |} |}.

(* ================================================================== *)
(** * Binary64 rounding: the integer side *)
(* ================================================================== *)

Lemma iter_pos_nat {A} (f : A -> A) (p : positive) :
  forall x, iter_pos f p x = Nat.iter (Pos.to_nat p) f x.
Proof.
  induction p as [p IH|p IH|]; intros x.
  - cbn [iter_pos]. rewrite !IH. rewrite Pos2Nat.inj_xI.
    rewrite Nat.iter_succ_r.
    replace (2 * Pos.to_nat p)%nat with (Pos.to_nat p + Pos.to_nat p)%nat by lia.
    now rewrite Nat.iter_add.
  - cbn [iter_pos]. rewrite !IH. rewrite Pos2Nat.inj_xO.
    replace (2 * Pos.to_nat p)%nat with (Pos.to_nat p + Pos.to_nat p)%nat by lia.
    now rewrite Nat.iter_add.
  - reflexivity.
Qed.

(** One shift to the right halves the mantissa and keeps track of what was
    cut off: the record stands for the same value. *)
Lemma shr_1_ok (mrs : shr_record) (a b : Z) :
  0 <= shr_m mrs ->
  loc_ok a b (loc_of_shr_record mrs) ->
  0 <= shr_m (shr_1 mrs) /\
  shr_m (shr_1 mrs) = shr_m mrs / 2 /\
  loc_ok ((shr_m mrs mod 2) * b + a) (2 * b) (loc_of_shr_record (shr_1 mrs)).
Proof.
  destruct mrs as [m r s]. cbn [shr_m]. intros Hm [Hab Hl].
  assert (Hdiv : 0 <= m / 2) by (apply Z.div_pos; lia).
  assert (Hm2 : m mod 2 = 0 \/ m mod 2 = 1) by (pose proof (Z.mod_pos_bound m 2); lia).
  assert (Hshape :
    shr_1 {| shr_m := m; shr_r := r; shr_s := s |} =
    {| shr_m := m / 2; shr_r := Z.odd m; shr_s := r || s |}).
  { destruct m as [|[p|p|]|p]; try lia; simpl; try reflexivity.
    - f_equal. apply Z.div_unique with (r := 1); lia.
    - f_equal. apply Z.div_unique with (r := 0); lia. }
  rewrite Hshape. cbn [shr_m]. split; [assumption|]. split; [reflexivity|].
  assert (Hodd : m mod 2 = if Z.odd m then 1 else 0).
  { rewrite Zmod_odd. reflexivity. }
  unfold loc_ok. rewrite Hodd.
  destruct (Z.odd m), r, s; cbn [orb loc_of_shr_record] in *; lia.
Qed.

(** [n] shifts divide by [2^n] and the location describes the remainder. *)
Lemma shr_iter_ok (n : nat) (mrs : shr_record) (a b : Z) :
  0 <= shr_m mrs ->
  loc_ok a b (loc_of_shr_record mrs) ->
  0 <= shr_m (Nat.iter n shr_1 mrs) /\
  shr_m (Nat.iter n shr_1 mrs) = shr_m mrs / 2 ^ Z.of_nat n /\
  loc_ok ((shr_m mrs mod 2 ^ Z.of_nat n) * b + a) (2 ^ Z.of_nat n * b)
    (loc_of_shr_record (Nat.iter n shr_1 mrs)).
Proof.
  intros Hm Hl. induction n as [|n IH].
  - change (Nat.iter 0 shr_1 mrs) with mrs.
    change (2 ^ Z.of_nat 0) with 1.
    split; [assumption|]. split; [now rewrite Z.div_1_r|].
    rewrite Z.mod_1_r.
    replace (0 * b + a) with a by lia.
    replace (1 * b) with b by lia.
    exact Hl.
  - change (Nat.iter (S n) shr_1 mrs) with (shr_1 (Nat.iter n shr_1 mrs)).
    destruct IH as (H0 & Hdiv & Hloc).
    destruct (shr_1_ok _ _ _ H0 Hloc) as (H0' & Hdiv' & Hloc').
    split; [assumption|].
    rewrite Nat2Z.inj_succ, Z.pow_succ_r by lia.
    split.
    + rewrite Hdiv', Hdiv. rewrite Z.div_div by lia. f_equal. lia.
    + rewrite Hdiv in Hloc'.
      assert (E : (shr_m mrs / 2 ^ Z.of_nat n) mod 2 * (2 ^ Z.of_nat n * b) +
                  (shr_m mrs mod 2 ^ Z.of_nat n * b + a) =
                  shr_m mrs mod (2 * 2 ^ Z.of_nat n) * b + a).
      { rewrite (Z.mul_comm 2 (2 ^ Z.of_nat n)).
        rewrite Z.rem_mul_r by lia. lia. }
      rewrite <- E.
      replace (2 * 2 ^ Z.of_nat n * b) with (2 * (2 ^ Z.of_nat n * b)) by lia.
      exact Hloc'.
Qed.

Lemma digits2_pos_bounds (p : positive) :
  2 ^ (Zpos (digits2_pos p) - 1) <= Zpos p < 2 ^ Zpos (digits2_pos p).
Proof.
  induction p as [p IH|p IH|]; cbn [digits2_pos].
  - rewrite Pos2Z.inj_succ.
    replace (Z.succ (Z.pos (digits2_pos p)) - 1)
      with (Z.succ (Z.pos (digits2_pos p) - 1)) by lia.
    rewrite !Z.pow_succ_r by lia. lia.
  - rewrite Pos2Z.inj_succ.
    replace (Z.succ (Z.pos (digits2_pos p)) - 1)
      with (Z.succ (Z.pos (digits2_pos p) - 1)) by lia.
    rewrite !Z.pow_succ_r by lia. lia.
  - simpl. lia.
Qed.

Lemma Zdigits2_bounds (m : Z) :
  0 < m -> 0 < Zdigits2 m /\ 2 ^ (Zdigits2 m - 1) <= m < 2 ^ Zdigits2 m.
Proof.
  destruct m as [|p|p]; try lia. intros _. cbn [Zdigits2].
  split; [lia | apply digits2_pos_bounds].
Qed.

Lemma Zdigits2_nonneg (m : Z) : 0 <= Zdigits2 m.
Proof. destruct m; simpl; lia. Qed.

(** The number of digits is determined by the two bounds. *)
Lemma Zdigits2_unique (m D : Z) :
  2 ^ (D - 1) <= m < 2 ^ D -> 0 < m -> Zdigits2 m = D.
Proof.
  intros [Hlo Hhi] Hm.
  destruct (Zdigits2_bounds m Hm) as (Hd & Hlo' & Hhi').
  assert (HD : 0 < D).
  { destruct (Z_lt_le_dec 0 D); auto.
    destruct (Z.eq_dec D 0) as [->|]; [simpl in Hhi; lia|].
    rewrite Z.pow_neg_r in Hhi by lia. lia. }
  assert (H1 : Zdigits2 m - 1 < D).
  { apply (Z.pow_lt_mono_r_iff 2); lia. }
  assert (H2 : D - 1 < Zdigits2 m).
  { apply (Z.pow_lt_mono_r_iff 2); lia. }
  lia.
Qed.

Lemma Zdigits2_le (m j : Z) : 0 <= j -> 0 <= m < 2 ^ j -> Zdigits2 m <= j.
Proof.
  intros Hj [H0 Hm]. destruct (Z.eq_dec m 0) as [->|]; [simpl; lia|].
  destruct (Zdigits2_bounds m ltac:(lia)) as (Hd & Hlo & _).
  assert (Zdigits2 m - 1 < j) by (apply (Z.pow_lt_mono_r_iff 2); lia).
  lia.
Qed.

Lemma Zdigits2_ge (m j : Z) : 0 <= j -> 2 ^ j <= m -> j + 1 <= Zdigits2 m.
Proof.
  intros Hj Hm.
  assert (0 < 2 ^ j) by (apply Z.pow_pos_nonneg; lia).
  destruct (Zdigits2_bounds m ltac:(lia)) as (Hd & _ & Hhi).
  assert (j < Zdigits2 m) by (apply (Z.pow_lt_mono_r_iff 2); lia).
  lia.
Qed.

(** Shifting out [k] digits leaves [d - k] of them, or nothing. *)
Lemma Zdigits2_div_pow2 (m k : Z) :
  0 < m -> 0 <= k ->
  (k < Zdigits2 m -> 0 < m / 2 ^ k /\ Zdigits2 (m / 2 ^ k) = Zdigits2 m - k) /\
  (Zdigits2 m <= k -> m / 2 ^ k = 0).
Proof.
  intros Hm Hk.
  destruct (Zdigits2_bounds m Hm) as (Hd & Hlo & Hhi).
  assert (Hpk : 0 < 2 ^ k) by (apply Z.pow_pos_nonneg; lia).
  split.
  - intros Hlt.
    assert (E1 : 2 ^ (Zdigits2 m - 1) = 2 ^ (Zdigits2 m - k - 1) * 2 ^ k).
    { rewrite <- Z.pow_add_r by lia. f_equal. lia. }
    assert (E2 : 2 ^ Zdigits2 m = 2 ^ (Zdigits2 m - k) * 2 ^ k).
    { rewrite <- Z.pow_add_r by lia. f_equal. lia. }
    assert (Hq1 : 2 ^ (Zdigits2 m - k - 1) <= m / 2 ^ k).
    { apply Z.div_le_lower_bound; lia. }
    assert (Hq2 : m / 2 ^ k < 2 ^ (Zdigits2 m - k)).
    { apply Z.div_lt_upper_bound; lia. }
    assert (0 < 2 ^ (Zdigits2 m - k - 1)) by (apply Z.pow_pos_nonneg; lia).
    split; [lia|].
    apply Zdigits2_unique; [|lia].
    split; assumption.
  - intros Hle. apply Z.div_small. split; [lia|].
    apply Z.lt_le_trans with (2 ^ Zdigits2 m); [assumption|].
    apply Z.pow_le_mono_r; lia.
Qed.

(** Adding one keeps the number of digits unless it reaches a power of two. *)
Lemma Zdigits2_succ (m : Z) :
  0 <= m ->
  Zdigits2 (m + 1) = Zdigits2 m \/
  (m + 1 = 2 ^ Zdigits2 m /\ Zdigits2 (m + 1) = Zdigits2 m + 1).
Proof.
  intros Hm. destruct (Z.eq_dec m 0) as [->|Hne]; [right; simpl; lia|].
  destruct (Zdigits2_bounds m ltac:(lia)) as (Hd & Hlo & Hhi).
  destruct (Z.eq_dec (m + 1) (2 ^ Zdigits2 m)) as [E|NE].
  - right. split; [assumption|].
    apply Zdigits2_unique; [|lia].
    replace (Zdigits2 m + 1 - 1) with (Zdigits2 m) by lia.
    rewrite Z.pow_add_r by lia. lia.
  - left. apply Zdigits2_unique; lia.
Qed.

Lemma fexp_eq (e : Z) : fexp prec emax e = Z.max (e - 53) (-1074).
Proof. reflexivity. Qed.

Lemma shr_record_of_loc_ok (m : Z) (l : location) :
  shr_m (shr_record_of_loc m l) = m /\
  loc_of_shr_record (shr_record_of_loc m l) = l.
Proof. destruct l as [|[]]; split; reflexivity. Qed.

(** [shr_fexp] shifts by the difference to the target exponent, when that is
    positive, and records the remainder. *)
Lemma shr_fexp_ok (mx ex : Z) (lx : location) (a b : Z) :
  0 <= mx -> loc_ok a b lx ->
  let k := Z.max 0 (fexp prec emax (Zdigits2 mx + ex) - ex) in
  exists mrs,
    shr_fexp prec emax mx ex lx = (mrs, ex + k) /\
    shr_m mrs = mx / 2 ^ k /\
    loc_ok ((mx mod 2 ^ k) * b + a) (2 ^ k * b) (loc_of_shr_record mrs).
Proof.
  intros Hmx Hl. cbv zeta. unfold shr_fexp, shr.
  destruct (shr_record_of_loc_ok mx lx) as [Hm0 Hl0].
  remember (fexp prec emax (Zdigits2 mx + ex) - ex) as n eqn:E.
  destruct n as [|p|p].
  - exists (shr_record_of_loc mx lx).
    change (Z.max 0 0) with 0.
    rewrite Z.add_0_r. split; [reflexivity|].
    rewrite Hm0, Hl0, Z.div_1_r, Z.mod_1_r.
    split; [reflexivity|].
    replace (0 * b + a) with a by lia. replace (2 ^ 0 * b) with b by lia.
    assumption.
  - exists (iter_pos shr_1 p (shr_record_of_loc mx lx)).
    change (Z.max 0 (Z.pos p)) with (Z.pos p).
    split; [reflexivity|].
    rewrite iter_pos_nat.
    destruct (shr_iter_ok (Pos.to_nat p) (shr_record_of_loc mx lx) a b)
      as (_ & Hd & Hloc).
    + now rewrite Hm0.
    + now rewrite Hl0.
    + rewrite positive_nat_Z, Hm0 in *. split; assumption.
  - exists (shr_record_of_loc mx lx).
    change (Z.max 0 (Z.neg p)) with 0.
    rewrite Z.add_0_r. split; [reflexivity|].
    rewrite Hm0, Hl0, Z.div_1_r, Z.mod_1_r.
    split; [reflexivity|].
    replace (0 * b + a) with a by lia. replace (2 ^ 0 * b) with b by lia.
    assumption.
Qed.

(** Rounding to nearest moves the mantissa by at most one and at most half a
    unit away from the value the location describes. *)
Lemma round_nearest_even_ok (m a b : Z) (l : location) :
  loc_ok a b l ->
  let m1 := round_nearest_even m l in
  (m1 = m \/ m1 = m + 1) /\ 2 * Z.abs (m1 * b - (m * b + a)) <= b.
Proof.
  intros [Hab Hl]. unfold round_nearest_even.
  destruct l as [|[]]; try destruct (Z.even m); split; auto; lia.
Qed.

(** The rounding step of every binary64 operation: the result is [build] of a
    mantissa [m1] that is within half a unit in the last place of the value
    [mx + a/b] at exponent [ex]; a carry to [2^53] is renormalised by one
    more exact shift. *)
Lemma binary_round_aux_ok (s : bool) (mx ex : Z) (lx : location) (a b : Z) :
  0 <= mx -> loc_ok a b lx ->
  ex <= fexp prec emax (Zdigits2 mx + ex) ->
  let e1 := fexp prec emax (Zdigits2 mx + ex) in
  exists m1 k2,
    0 <= m1 <= 2 ^ 53 /\
    2 * Z.abs (m1 * 2 ^ (e1 - ex) * b - (mx * b + a)) <= 2 ^ (e1 - ex) * b /\
    (k2 = 0 \/ (k2 = 1 /\ m1 = 2 ^ 53)) /\
    binary_round_aux prec emax s mx ex lx = build s (m1 / 2 ^ k2) (e1 + k2).
Proof.
  intros Hmx Hl Hprec e1.
  destruct (shr_fexp_ok mx ex lx a b Hmx Hl) as (mrs & Hshr & Hm' & Hloc).
  fold e1 in Hshr, Hm', Hloc.
  replace (Z.max 0 (e1 - ex)) with (e1 - ex) in * by (subst e1; lia).
  set (k := e1 - ex) in *.
  assert (Hk : 0 <= k) by (subst k e1; lia).
  assert (Hpk : 0 < 2 ^ k) by (apply Z.pow_pos_nonneg; lia).
  set (m' := mx / 2 ^ k) in *.
  assert (Hm'0 : 0 <= m') by (subst m'; apply Z.div_pos; lia).
  destruct (round_nearest_even_ok (shr_m mrs) _ _ _ Hloc) as [Hm1 Herr].
  set (m1 := round_nearest_even (shr_m mrs) (loc_of_shr_record mrs)) in *.
  rewrite Hm' in Hm1, Herr.
  assert (Hsum : m' * (2 ^ k * b) + (mx mod 2 ^ k * b + a) = mx * b + a).
  { subst m'. rewrite (Z.div_mod mx (2 ^ k)) at 3 by lia. lia. }
  rewrite Hsum in Herr.
  assert (Hm10 : 0 <= m1) by lia.
  destruct (shr_fexp_ok m1 (ex + k) loc_Exact 0 1 Hm10) as (mrs2 & Hshr2 & Hm2 & _).
  { unfold loc_ok. lia. }
  replace (ex + k) with e1 in * by (subst k; lia).
  (* digit analysis *)
  assert (He1 : e1 = Z.max (Zdigits2 mx + ex - 53) (-1074)) by reflexivity.
  assert (HA : (0 < m' /\ Zdigits2 m' + e1 = Zdigits2 mx + ex)
               \/ (m' = 0 /\ e1 = -1074)).
  { destruct (Z.eq_dec mx 0) as [E0|NE0].
    - right. split; [subst m'; rewrite E0; apply Z.div_0_l; lia|].
      rewrite E0 in *. simpl Zdigits2 in *. lia.
    - destruct (Zdigits2_div_pow2 mx k ltac:(lia) Hk) as [Hlt Hge].
      destruct (Z_lt_le_dec k (Zdigits2 mx)) as [Hc|Hc].
      + left. destruct (Hlt Hc) as [Hpos Hd]. fold m' in Hpos, Hd.
        split; [assumption|]. rewrite Hd. subst k. lia.
      + right. split; [apply Hge; assumption|]. subst k. lia. }
  set (k2 := Z.max 0 (fexp prec emax (Zdigits2 m1 + e1) - e1)) in *.
  assert (Hfe : fexp prec emax (Zdigits2 m1 + e1)
                = Z.max (Zdigits2 m1 + e1 - 53) (-1074)) by reflexivity.
  assert (Hcases : 0 <= m1 <= 2 ^ 53 /\ (k2 = 0 \/ (k2 = 1 /\ m1 = 2 ^ 53))).
  { destruct HA as [[Hpos Hd]|[Hz He]].
    - destruct (Zdigits2_bounds m' Hpos) as (HD & Hlo & Hhi).
      assert (HD53 : Zdigits2 m' <= 53) by lia.
      assert (Hp53 : 2 ^ Zdigits2 m' <= 2 ^ 53)
        by (apply Z.pow_le_mono_r; lia).
      split; [lia|].
      destruct Hm1 as [E|E].
      + left. subst k2. rewrite Hfe, E. lia.
      + destruct (Zdigits2_succ m' Hm'0) as [Hs|[Hs1 Hs2]];
          rewrite <- E in *.
        * left. subst k2. rewrite Hfe, Hs. lia.
        * destruct (Z.eq_dec (Zdigits2 m') 53) as [E53|NE53].
          -- right. split.
             ++ subst k2. rewrite Hfe, Hs2. lia.
             ++ rewrite Hs1, E53. reflexivity.
          -- left. subst k2. rewrite Hfe, Hs2. lia.
    - assert (m1 = 0 \/ m1 = 1) as [E|E] by lia.
      + split; [lia|]. left. subst k2. rewrite Hfe, E. simpl Zdigits2. lia.
      + split; [lia|]. left. subst k2. rewrite Hfe, E. simpl Zdigits2. lia. }
  exists m1, k2. destruct Hcases as [Hb Hk2].
  split; [assumption|]. split; [|split; [assumption|]].
  - replace (m1 * 2 ^ k * b) with (m1 * (2 ^ k * b)) by ring. exact Herr.
  - unfold binary_round_aux. rewrite Hshr. fold m1. rewrite Hshr2.
    rewrite Hm2. reflexivity.
Qed.

(** The location the division computes describes the remainder. *)
Lemma new_location_ok (nb r : Z) :
  0 <= r < nb -> loc_ok r nb (new_location nb r).
Proof.
  intros H. unfold loc_ok, new_location, new_location_even, new_location_odd.
  split; [assumption|].
  destruct (Z.even nb) eqn:Hev.
  - destruct (Z.eqb_spec r 0); [assumption|].
    destruct (Z.compare_spec (2 * r) nb); lia.
  - destruct (Z.eqb_spec r 0); [assumption|].
    assert (Hodd : Z.odd nb = true) by (rewrite <- Z.negb_even, Hev; reflexivity).
    apply Z.odd_spec in Hodd as [c Hc].
    destruct (Z.compare_spec (2 * r + 1) nb); lia.
Qed.

(** The division step: an integer quotient with enough digits, its remainder
    and the location of the exact quotient. *)
Lemma SFdiv_core_binary_ok (m1 e1 m2 e2 : Z) :
  0 < m1 -> 0 < m2 ->
  let '(q, e', l) := SFdiv_core_binary prec emax m1 e1 m2 e2 in
  let s := e1 - e2 - e' in
  0 <= s /\ 0 <= q /\
  q * m2 + (m1 * 2 ^ s) mod m2 = m1 * 2 ^ s /\
  loc_ok ((m1 * 2 ^ s) mod m2) m2 l /\
  e' = Z.min (fexp prec emax (Zdigits2 m1 + e1 - (Zdigits2 m2 + e2))) (e1 - e2) /\
  e' <= fexp prec emax (Zdigits2 q + e').
Proof.
  intros Hm1 Hm2. unfold SFdiv_core_binary.
  set (e' := Z.min (fexp prec emax (Zdigits2 m1 + e1 - (Zdigits2 m2 + e2)))
               (e1 - e2)).
  set (s := e1 - e2 - e').
  assert (Hs : 0 <= s) by (subst s e'; lia).
  assert (Hm' : match s with
                | Z.pos _ => Z.shiftl m1 s
                | 0 => m1
                | Z.neg _ => 0
                end = m1 * 2 ^ s).
  { destruct s as [|p|p] eqn:E; try lia.
    apply Z.shiftl_mul_pow2. lia. }
  rewrite Hm'.
  assert (Hde : Z.div_eucl (m1 * 2 ^ s) m2 =
                ((m1 * 2 ^ s) / m2, (m1 * 2 ^ s) mod m2)).
  { unfold Z.div, Z.modulo. now destruct (Z.div_eucl (m1 * 2 ^ s) m2). }
  rewrite Hde. cbv zeta.
  assert (Hps : 0 < 2 ^ s) by (apply Z.pow_pos_nonneg; lia).
  assert (Hq0 : 0 <= m1 * 2 ^ s / m2) by (apply Z.div_pos; lia).
  split; [assumption|]. split; [assumption|]. split.
  - fold s. pose proof (Z.div_mod (m1 * 2 ^ s) m2 ltac:(lia)). lia.
  - fold s. split; [apply new_location_ok; apply Z.mod_pos_bound; lia|].
    split; [reflexivity|].
    (* enough digits in the quotient *)
    set (q := m1 * 2 ^ s / m2) in *.
    destruct (Zdigits2_bounds m1 Hm1) as (Hd1 & Hlo1 & Hhi1).
    destruct (Zdigits2_bounds m2 Hm2) as (Hd2 & Hlo2 & Hhi2).
    assert (Hdq : Zdigits2 m1 + s - Zdigits2 m2 <= Zdigits2 q).
    { destruct (Z_lt_le_dec (Zdigits2 m1 + s - Zdigits2 m2) 1) as [Hsmall|Hbig].
      - pose proof (Zdigits2_nonneg q). lia.
      - assert (Hge : Zdigits2 m1 + s - Zdigits2 m2 - 1 + 1 <= Zdigits2 q).
        { apply Zdigits2_ge; [lia|].
          apply Z.div_le_lower_bound; [lia|].
          assert (E : 2 ^ (Zdigits2 m1 - 1) * 2 ^ s =
                      2 ^ (Zdigits2 m1 + s - Zdigits2 m2 - 1) * 2 ^ Zdigits2 m2).
          { rewrite <- !Z.pow_add_r by lia. f_equal. lia. }
          assert (0 < 2 ^ (Zdigits2 m1 + s - Zdigits2 m2 - 1))
            by (apply Z.pow_pos_nonneg; lia).
          nia. }
        lia. }
    assert (He' : e' = Z.min (Z.max (Zdigits2 m1 + e1 - (Zdigits2 m2 + e2) - 53)
                                (-1074)) (e1 - e2)) by reflexivity.
    assert (Hsdef : s = e1 - e2 - e') by reflexivity.
    rewrite fexp_eq. clear Hm' Hde. clearbody q s e'. lia.
Qed.

(** Appending [d] zero bits multiplies by [2^d]. *)
Lemma Pos_iter_xO (p d : positive) :
  Zpos (Pos.iter xO p d) = Zpos p * 2 ^ Zpos d.
Proof.
  revert p. induction d using Pos.peano_ind; intros p.
  - simpl. lia.
  - rewrite Pos.iter_succ. rewrite Pos2Z.inj_xO, IHd.
    rewrite Pos2Z.inj_succ, Z.pow_succ_r by lia. lia.
Qed.

(** Integers up to 2^53 convert exactly. *)
Lemma binary_normalize_exact (n : Z) (s : bool) :
  0 < Z.abs n <= 2 ^ 53 ->
  exists m e,
    binary_normalize prec emax n 0 s = S754_finite (n <? 0) m e /\
    e <= 1 /\
    (e <= 0 -> Zpos m = Z.abs n * 2 ^ (- e)) /\
    (0 < e -> Zpos m * 2 = Z.abs n) /\
    Zdigits2 (Zpos m) + e = Zdigits2 (Z.abs n).
Proof.
  intros Hn.
  assert (Hgen : forall (sg : bool) (p : positive),
             Zpos p <= 2 ^ 53 ->
             exists m e,
               binary_round prec emax sg p 0 = S754_finite sg m e /\
               e <= 1 /\
               (e <= 0 -> Zpos m = Zpos p * 2 ^ (- e)) /\
               (0 < e -> Zpos m * 2 = Zpos p) /\
               Zdigits2 (Zpos m) + e = Zdigits2 (Zpos p)).
  { intros sg p Hp. unfold binary_round, shl_align.
    change (Z.pos (digits2_pos p)) with (Zdigits2 (Zpos p)).
    destruct (Zdigits2_bounds (Zpos p) ltac:(lia)) as (Hd & Hlo & Hhi).
    assert (Hd54 : Zdigits2 (Zpos p) <= 54).
    { apply Zdigits2_le; [lia|]. split; [lia|].
      change (2 ^ 54) with (2 * 2 ^ 53). lia. }
    rewrite fexp_eq. rewrite Z.add_0_r, Z.sub_0_r.
    replace (Z.max (Zdigits2 (Z.pos p) - 53) (-1074))
      with (Zdigits2 (Z.pos p) - 53) by lia.
    destruct (Zdigits2 (Z.pos p) - 53) as [|j|j] eqn:Ej.
    - (* 53 digits *)
      destruct (binary_round_aux_ok sg (Zpos p) 0 loc_Exact 0 1)
        as (m1 & k2 & Hb & Herr & Hk2 & Hres).
      + lia. + unfold loc_ok; lia. + rewrite fexp_eq. lia.
      + rewrite fexp_eq in *. rewrite Z.add_0_r in *.
        replace (Z.max (Zdigits2 (Z.pos p) - 53) (-1074)) with 0 in * by lia.
        simpl (2 ^ (0 - 0)) in Herr.
        assert (m1 = Zpos p) by lia. subst m1.
        assert (Hlt : Zpos p < 2 ^ 53).
        { replace 53 with (Zdigits2 (Zpos p)) by lia. exact Hhi. }
        destruct Hk2 as [->|[_ E]]; [|lia].
        rewrite Hres. change (2 ^ 0) with 1. rewrite Z.div_1_r.
        exists p, 0. split; [reflexivity|]. split; [lia|].
        split; [intros _; change (2 ^ (- 0)) with 1; lia|].
        split; lia.
    - (* 54 digits: exactly 2^53 *)
      assert (Zdigits2 (Zpos p) = 54) by lia.
      assert (Ep : Zpos p = 2 ^ 53).
      { replace (Zdigits2 (Zpos p) - 1) with 53 in Hlo by lia. lia. }
      change (2 ^ 53) with 9007199254740992 in Ep. injection Ep as ->.
      exists 4503599627370496%positive, 1.
      split; [vm_compute; reflexivity|]. split; [lia|].
      split; [lia|]. split; [reflexivity|]. vm_compute. reflexivity.
    - (* fewer digits: shifted left *)
      destruct (binary_round_aux_ok sg (Zpos (Pos.iter xO p j)) (Z.neg j)
                  loc_Exact 0 1) as (m1 & k2 & Hb & Herr & Hk2 & Hres).
      + lia. + unfold loc_ok; lia.
      + rewrite fexp_eq, Pos_iter_xO.
        assert (Hdz : Zdigits2 (Zpos p * 2 ^ Zpos j) = 53).
        { apply Zdigits2_unique; [|lia].
          assert (E1 : 2 ^ (53 - 1) = 2 ^ (Zdigits2 (Zpos p) - 1) * 2 ^ Zpos j).
          { rewrite <- Z.pow_add_r by lia. f_equal. lia. }
          assert (E2 : 2 ^ 53 = 2 ^ Zdigits2 (Zpos p) * 2 ^ Zpos j).
          { rewrite <- Z.pow_add_r by lia. f_equal. lia. }
          assert (0 < 2 ^ Zpos j) by (apply Z.pow_pos_nonneg; lia).
          rewrite E1, E2. nia. }
        rewrite Hdz. lia.
      + rewrite fexp_eq, Pos_iter_xO in *.
        assert (Hdz : Zdigits2 (Zpos p * 2 ^ Zpos j) = 53).
        { apply Zdigits2_unique; [|lia].
          assert (E1 : 2 ^ (53 - 1) = 2 ^ (Zdigits2 (Zpos p) - 1) * 2 ^ Zpos j).
          { rewrite <- Z.pow_add_r by lia. f_equal. lia. }
          assert (E2 : 2 ^ 53 = 2 ^ Zdigits2 (Zpos p) * 2 ^ Zpos j).
          { rewrite <- Z.pow_add_r by lia. f_equal. lia. }
          assert (0 < 2 ^ Zpos j) by (apply Z.pow_pos_nonneg; lia).
          rewrite E1, E2. nia. }
        rewrite Hdz in *.
        replace (Z.max (53 + Z.neg j - 53) (-1074)) with (Z.neg j) in * by lia.
        rewrite Z.sub_diag in Herr. simpl (2 ^ 0) in Herr.
        assert (m1 = Zpos p * 2 ^ Zpos j) by lia.
        destruct (Zdigits2_bounds (Zpos p * 2 ^ Zpos j) ltac:(lia))
          as (_ & _ & Hhi').
        rewrite Hdz in Hhi'.
        destruct Hk2 as [->|[_ E]]; [|lia].
        rewrite Hres. subst m1. rewrite Z.add_0_r, Z.div_1_r.
        rewrite <- Pos_iter_xO. simpl build.
        exists (Pos.iter xO p j), (Z.neg j).
        split; [reflexivity|]. split; [lia|].
        split; [intros _; rewrite Pos_iter_xO; reflexivity|].
        split; [lia|]. rewrite Pos_iter_xO, Hdz. lia. }
  destruct n as [|p|p]; simpl in Hn; try lia.
  - destruct (Hgen false p ltac:(lia)) as (m & e & H). exists m, e. exact H.
  - destruct (Hgen true p ltac:(lia)) as (m & e & H). exists m, e. exact H.
Qed.


(* ================================================================== *)
(** * Binary64 rounding: values as rationals *)
(* ================================================================== *)

Local Open Scope Q_scope.

(** Powers of two: positive, additive in the exponent, monotone. *)
Lemma pow2_pos (e : Z) : 0 < pow2 e.
Proof. apply Qpower_0_lt. reflexivity. Qed.

Lemma pow2_add (a b : Z) : pow2 (a + b) == pow2 a * pow2 b.
Proof. apply Qpower_plus. discriminate. Qed.

Lemma pow2_Z (k : Z) : (0 <= k)%Z -> pow2 k == inject_Z (2 ^ k).
Proof. intros H. unfold pow2. now rewrite Zpower_Qpower. Qed.

Lemma pow2_le (a b : Z) : (a <= b)%Z -> pow2 a <= pow2 b.
Proof. intros H. apply Qpower_le_compat_l; [assumption | discriminate]. Qed.

Lemma pow2_lt_inv (a b : Z) : pow2 a < pow2 b -> (a < b)%Z.
Proof. intros H. eapply Qpower_lt_compat_l_inv; [exact H | reflexivity]. Qed.

Lemma pow2_cancel (e : Z) : pow2 e * pow2 (- e) == 1.
Proof. rewrite <- pow2_add. now rewrite Z.add_opp_diag_r. Qed.

(** From the integer error bound to the rational one, for an exact input. *)
Lemma bridge_exact (m1 k X E : Z) :
  (0 <= k)%Z ->
  (2 * Z.abs (m1 * 2 ^ k * 1 - (X * 1 + 0)) <= 2 ^ k * 1)%Z ->
  inject_Z X * pow2 E - (1#2) * pow2 (E + k) <= inject_Z m1 * pow2 (E + k) /\
  inject_Z m1 * pow2 (E + k) <= inject_Z X * pow2 E + (1#2) * pow2 (E + k).
Proof.
  intros Hk H.
  assert (H1 : (0 <= 2 * (m1 * 2 ^ k) + - (2 * X) + 2 ^ k)%Z) by lia.
  assert (H2 : (0 <= 2 ^ k + - (2 * (m1 * 2 ^ k)) + 2 * X)%Z) by lia.
  rewrite Zle_Qle in H1, H2. push_inject_in H1. push_inject_in H2.
  rewrite pow2_add, (pow2_Z k Hk).
  pose proof (pow2_pos E) as HP.
  set (K := inject_Z (2 ^ k)) in *. set (P := pow2 E) in *.
  set (M1 := inject_Z m1) in *. set (Xq := inject_Z X) in *.
  change (inject_Z 2) with 2 in *. change (inject_Z 0) with 0 in *.
  clearbody K P M1 Xq.
  assert (A1 : 0 <= (2 * (M1 * K) + - (2 * Xq) + K) * P)
    by (apply Qmult_le_0_compat; lra).
  assert (A2 : 0 <= (K + - (2 * (M1 * K)) + 2 * Xq) * P)
    by (apply Qmult_le_0_compat; lra).
  split; lra.
Qed.

Lemma hundred_eq : hundred = S754_finite false 7036874417766400 (-46).
Proof. reflexivity. Qed.

Lemma mag_pos (m : positive) (e : Z) : 0 < mag m e.
Proof.
  unfold mag. apply Qmult_lt_0_compat; [|apply pow2_pos].
  change 0 with (inject_Z 0). rewrite <- Zlt_Qlt. lia.
Qed.

(** The magnitude of what [build] returns, short of an overflow. *)
Lemma build_mag (s : bool) (m1 k2 e1 : Z) :
  (0 < m1)%Z -> (e1 + k2 <= 971)%Z ->
  (k2 = 0 \/ (k2 = 1 /\ m1 = 2 ^ 53))%Z ->
  exists my,
    build s (m1 / 2 ^ k2) (e1 + k2) = S754_finite s my (e1 + k2) /\
    mag my (e1 + k2) == inject_Z m1 * pow2 e1.
Proof.
  intros Hm He [->|[-> ->]].
  - change (2 ^ 0)%Z with 1%Z. rewrite Z.div_1_r, Z.add_0_r in *.
    destruct m1 as [|p|p]; try lia. exists p. unfold build.
    replace (e1 <=? emax - prec)%Z with true
      by (symmetry; apply Z.leb_le; unfold emax, prec; lia).
    split; reflexivity.
  - change (2 ^ 53 / 2 ^ 1)%Z with 4503599627370496%Z.
    exists 4503599627370496%positive. unfold build.
    replace (e1 + 1 <=? emax - prec)%Z with true
      by (symmetry; apply Z.leb_le; unfold emax, prec; lia).
    split; [reflexivity|]. unfold mag. rewrite pow2_add.
    change (pow2 1) with 2. change (2 ^ 53)%Z with 9007199254740992%Z.
    unfold inject_Z. set (P := pow2 e1). lra.
Qed.

(** Multiplying a value of at most 2^45 by 100: the product is zero (and then
    the exact product is at most 1/4) or a finite number with a negative
    exponent within 1/4 of the exact product. *)
Lemma mul_hundred_ok (s : bool) (m : positive) (e : Z) :
  mag m e <= inject_Z (2 ^ 45) ->
  (mul (S754_finite s m e) hundred = S754_zero s /\ 100 * mag m e <= 1#4) \/
  exists my ey,
    mul (S754_finite s m e) hundred = S754_finite s my ey /\ (ey <= -1)%Z /\
    100 * mag m e - (1#4) <= mag my ey /\ mag my ey <= 100 * mag m e + (1#4).
Proof.
  intros Hbound. unfold mul. rewrite hundred_eq. cbn [SFmul].
  rewrite xorb_false_r.
  set (M := 7036874417766400%positive).
  set (E := (e + -46)%Z).
  assert (HM52 : (2 ^ 52 <= Zpos (m * M))%Z).
  { rewrite Pos2Z.inj_mul. change (2 ^ 52)%Z with 4503599627370496%Z.
    subst M. nia. }
  pose proof (Zdigits2_ge _ 52 ltac:(lia) HM52) as Hd53.
  destruct (Zdigits2_bounds (Zpos (m * M)) ltac:(lia)) as (Hd & Hlo & _).
  (* the product, scaled, is 100 times the argument *)
  assert (Hval : inject_Z (Zpos (m * M)) * pow2 E == 100 * mag m e).
  { unfold mag, E. rewrite pow2_add, Pos2Z.inj_mul, inject_Z_mult.
    assert (E46 : inject_Z (Zpos M) * pow2 (-46) == 100) by reflexivity.
    set (P := pow2 e) in *. set (mq := inject_Z (Zpos m)) in *.
    rewrite <- E46. ring. }
  (* hence it has at most 52 - E digits *)
  assert (Hdig : (Zdigits2 (Zpos (m * M)) + E <= 52)%Z).
  { assert (Hlt : pow2 (Zdigits2 (Zpos (m * M)) - 1 + E) < pow2 52).
    { rewrite pow2_add, pow2_Z by lia.
      apply Qle_lt_trans with (inject_Z (Zpos (m * M)) * pow2 E).
      - apply Qmult_le_compat_r; [|apply Qlt_le_weak, pow2_pos].
        rewrite <- Zle_Qle. exact Hlo.
      - rewrite Hval. change (inject_Z (2 ^ 45)) with (35184372088832 # 1) in Hbound.
        change (pow2 52) with (4503599627370496 # 1). lra. }
    apply pow2_lt_inv in Hlt. lia. }
  destruct (binary_round_aux_ok s (Zpos (m * M)) E loc_Exact 0 1)
    as (m1 & k2 & Hb & Herr & Hk2 & Hres).
  { lia. } { unfold loc_ok; lia. } { rewrite fexp_eq. lia. }
  rewrite fexp_eq in *.
  set (e1 := Z.max (Zdigits2 (Z.pos (m * M)) + E - 53) (-1074)) in *.
  assert (He1 : (e1 <= -1)%Z) by (subst e1; lia).
  assert (Hk : (0 <= e1 - E)%Z) by (subst e1; lia).
  assert (Hp : pow2 e1 <= 1 # 2).
  { change (1 # 2) with (pow2 (-1)). now apply pow2_le. }
  destruct (bridge_exact m1 (e1 - E) (Zpos (m * M)) E Hk Herr) as [B1 B2].
  replace (E + (e1 - E))%Z with e1 in * by lia.
  rewrite Hval in B1, B2.
  change (inject_Z (2 ^ 45)) with (35184372088832 # 1) in Hbound.
  rewrite Hres.
  destruct (Z.eq_dec m1 0) as [->|Hne].
  - left. split.
    + rewrite Z.div_0_l; [reflexivity|].
      destruct Hk2 as [->|[-> _]]; discriminate.
    + change (inject_Z 0) with 0 in B1.
      set (P1 := pow2 e1) in *. set (V := mag m e) in *. lra.
  - right.
    destruct (build_mag s m1 k2 e1) as (my & Hbuild & Hmag).
    { lia. } { destruct Hk2 as [->|[-> _]]; lia. } { assumption. }
    exists my, (e1 + k2)%Z. split; [assumption|].
    split.
    { destruct Hk2 as [->|[-> Hm1]]; [lia|].
      (* a carry to 2^53 leaves room: the value stays below 2^52 *)
      destruct (Z_le_gt_dec e1 (-2)) as [|Hgt]; [lia|exfalso].
      assert (Hp' : 1 # 2 <= pow2 e1).
      { change (1 # 2) with (pow2 (-1)). apply pow2_le. lia. }
      rewrite Hm1 in B2.
      change (inject_Z (2 ^ 53)) with (9007199254740992 # 1) in B2.
      set (P1 := pow2 e1) in *. set (V := mag m e) in *. lra. }
    rewrite Hmag.
    set (P1 := pow2 e1) in *. set (V := mag m e) in *.
    set (R := inject_Z m1 * P1) in *.
    split; lra.
Qed.

(** The same for a quotient by the mantissa of 100. *)
Lemma bridge_div (m1 k q r E : Z) :
  (0 <= k)%Z ->
  (2 * Z.abs (m1 * 2 ^ k * 7036874417766400 - (q * 7036874417766400 + r))
   <= 2 ^ k * 7036874417766400)%Z ->
  let V := inject_Z (q * 7036874417766400 + r) * (1 # 7036874417766400)
           * pow2 E in
  V - (1#2) * pow2 (E + k) <= inject_Z m1 * pow2 (E + k) /\
  inject_Z m1 * pow2 (E + k) <= V + (1#2) * pow2 (E + k).
Proof.
  intros Hk H V. subst V.
  set (W := (q * 7036874417766400 + r)%Z) in *.
  assert (H1 : (0 <= 2 * (m1 * 2 ^ k * 7036874417766400) + - (2 * W)
                     + 2 ^ k * 7036874417766400)%Z) by lia.
  assert (H2 : (0 <= 2 ^ k * 7036874417766400
                     + - (2 * (m1 * 2 ^ k * 7036874417766400)) + 2 * W)%Z) by lia.
  rewrite Zle_Qle in H1, H2. push_inject_in H1. push_inject_in H2.
  rewrite pow2_add, (pow2_Z k Hk).
  pose proof (pow2_pos E) as HP.
  set (K := inject_Z (2 ^ k)) in *. set (P := pow2 E) in *.
  set (M1 := inject_Z m1) in *. set (Wq := inject_Z W) in *.
  change (inject_Z 2) with 2 in *. change (inject_Z 0) with 0 in *.
  change (inject_Z 7036874417766400) with (7036874417766400 # 1) in *.
  clearbody K P M1 Wq.
  assert (A1 : 0 <= (2 * (M1 * K * (7036874417766400 # 1)) + - (2 * Wq)
                     + K * (7036874417766400 # 1)) * P)
    by (apply Qmult_le_0_compat; lra).
  assert (A2 : 0 <= (K * (7036874417766400 # 1)
                     + - (2 * (M1 * K * (7036874417766400 # 1))) + 2 * Wq) * P)
    by (apply Qmult_le_0_compat; lra).
  split; lra.
Qed.

(** Dividing a non-zero integer of at most 2^51 by 100: a finite number
    within 1/512 of the exact quotient. *)
Lemma div_hundred_ok (n : Z) (s0 : bool) :
  (0 < Z.abs n <= 2 ^ 51)%Z ->
  exists mr er,
    div (binary_normalize prec emax n 0 s0) hundred
      = S754_finite (n <? 0)%Z mr er /\
    (1#100) * inject_Z (Z.abs n) - (1#512) <= mag mr er /\
    mag mr er <= (1#100) * inject_Z (Z.abs n) + (1#512).
Proof.
  intros Hn.
  destruct (binary_normalize_exact n s0) as (mn & en & HN & Hen & Hneg & Hpos & Hdn).
  { change (2 ^ 53)%Z with (4 * 2 ^ 51)%Z. lia. }
  rewrite HN. unfold div. rewrite hundred_eq. cbn [SFdiv].
  rewrite xorb_false_r.
  set (M := 7036874417766400%Z).
  (* the value of the dividend *)
  assert (HvalN : mag mn en == inject_Z (Z.abs n)).
  { unfold mag. destruct (Z_le_gt_dec en 0) as [Hle|Hgt].
    - rewrite (Hneg Hle), inject_Z_mult, <- pow2_Z by lia.
      rewrite <- Qmult_assoc, (Qmult_comm (pow2 (- en))), pow2_cancel. ring.
    - assert (en = 1)%Z by lia. subst en.
      rewrite <- (Hpos ltac:(lia)), inject_Z_mult.
      change (pow2 1) with 2. change (inject_Z 2) with 2. ring. }
  assert (Hdn50 : (Zdigits2 (Z.abs n) <= 52)%Z).
  { apply Zdigits2_le; [lia|]. change (2 ^ 52)%Z with (2 * 2 ^ 51)%Z. lia. }
  pose proof (SFdiv_core_binary_ok (Zpos mn) en M (-46) ltac:(lia) ltac:(reflexivity))
    as Hcore.
  destruct (SFdiv_core_binary prec emax (Zpos mn) en M (-46)) as [[q e'] l].
  cbv zeta in Hcore.
  destruct Hcore as (Hs & Hq & Hqr & Hloc & He' & Hprec).
  set (sh := (en - -46 - e')%Z) in *.
  set (r := ((Zpos mn * 2 ^ sh) mod M)%Z) in *.
  change (Zdigits2 M) with 53%Z in He'. rewrite fexp_eq in He'.
  assert (He'8 : (e' <= -8)%Z) by lia.
  (* the exact quotient *)
  assert (Hval : inject_Z (q * M + r) * (1 # 7036874417766400) * pow2 e'
                 == (1#100) * inject_Z (Z.abs n)).
  { rewrite Hqr, inject_Z_mult, <- pow2_Z by lia.
    rewrite <- HvalN. unfold mag.
    assert (Esh : pow2 sh * pow2 e' == pow2 en * pow2 46).
    { rewrite <- !pow2_add. subst sh. f_equiv. lia. }
    assert (E46 : pow2 46 * (1 # 7036874417766400) == 1 # 100) by reflexivity.
    set (A := inject_Z (Zpos mn)) in *.
    transitivity (A * (pow2 sh * pow2 e') * (1 # 7036874417766400)); [ring|].
    rewrite Esh.
    transitivity (A * pow2 en * (pow2 46 * (1 # 7036874417766400))); [ring|].
    rewrite E46. ring. }
  (* digits of the quotient *)
  assert (Hdq : (Zdigits2 q + e' <= 45)%Z).
  { destruct (Z.eq_dec q 0) as [->|Hq0]; [simpl; lia|].
    destruct (Zdigits2_bounds q ltac:(lia)) as (Hd & Hlo & _).
    assert (Hlt : pow2 (Zdigits2 q - 1 + e') < pow2 45).
    { rewrite pow2_add, pow2_Z by lia.
      apply Qle_lt_trans with (inject_Z q * pow2 e').
      - apply Qmult_le_compat_r; [|apply Qlt_le_weak, pow2_pos].
        rewrite <- Zle_Qle. exact Hlo.
      - apply Qle_lt_trans with ((1#100) * inject_Z (Z.abs n)).
        + rewrite <- Hval.
          assert (Hr0 : (0 <= r)%Z) by (destruct Hloc as [[? ?] _]; assumption).
          rewrite inject_Z_plus, inject_Z_mult.
          rewrite Zle_Qle in Hr0. change (inject_Z 0) with 0 in Hr0.
          change (inject_Z M) with (7036874417766400 # 1).
          pose proof (pow2_pos e') as HP.
          set (P := pow2 e') in *. set (qq := inject_Z q) in *.
          set (rq := inject_Z r) in *.
          assert (0 <= rq * P) by (apply Qmult_le_0_compat; lra).
          lra.
        + assert (Hn' : (Z.abs n <= 2 ^ 51)%Z) by lia.
          rewrite Zle_Qle in Hn'.
          change (inject_Z (2 ^ 51)) with (2251799813685248 # 1) in Hn'.
          change (pow2 45) with (35184372088832 # 1). lra. }
    apply pow2_lt_inv in Hlt. lia. }
  destruct (binary_round_aux_ok (n <? 0)%Z q e' l r M Hq Hloc Hprec)
    as (m1 & k2 & Hb & Herr & Hk2 & Hres).
  rewrite fexp_eq in *.
  set (e1 := Z.max (Zdigits2 q + e' - 53) (-1074)) in *.
  assert (He1 : (e1 <= -8)%Z) by (subst e1; lia).
  assert (Hk : (0 <= e1 - e')%Z) by lia.
  destruct (bridge_div m1 (e1 - e') q r e' Hk Herr) as [B1 B2].
  replace (e' + (e1 - e'))%Z with e1 in * by lia.
  fold M in B1, B2. rewrite Hval in B1, B2.
  assert (Hp : pow2 e1 <= 1 # 256).
  { change (1 # 256) with (pow2 (-8)). now apply pow2_le. }
  assert (Hn1 : 1 <= inject_Z (Z.abs n)).
  { change 1 with (inject_Z 1). rewrite <- Zle_Qle. lia. }
  assert (Hm1 : (0 < m1)%Z).
  { destruct (Z_lt_le_dec 0 m1) as [|Hle]; [assumption|exfalso].
    assert (Hm0 : m1 = 0%Z) by lia. subst m1.
    set (P1 := pow2 e1) in *. change (inject_Z 0) with 0 in B1. lra. }
  rewrite Hres.
  destruct (build_mag (n <? 0)%Z m1 k2 e1 Hm1) as (mr & Hbuild & Hmag).
  { destruct Hk2 as [->|[-> _]]; lia. } { assumption. }
  exists mr, (e1 + k2)%Z. split; [assumption|].
  rewrite Hmag.
  set (P1 := pow2 e1) in *. set (R := inject_Z m1 * P1) in *.
  split; lra.
Qed.

(** [round_half_up_Z] is the integer within a half below or at most a half
    above. *)
Lemma round_half_up_Z_unique (s : bool) (m : positive) (e n : Z) :
  (e <= -1)%Z ->
  inject_Z n - (1#2) <= to_Q (S754_finite s m e) ->
  to_Q (S754_finite s m e) < inject_Z n + (1#2) ->
  round_half_up_Z s m e = n.
Proof.
  intros He Hlo Hhi. unfold round_half_up_Z, to_Q in *.
  set (sm := cond_Zopp s (Zpos m)) in *.
  assert (HT : (0 < 2 ^ (- e))%Z) by (apply Z.pow_pos_nonneg; lia).
  assert (E2 : (2 ^ (1 - e) = 2 * 2 ^ (- e))%Z).
  { replace (1 - e)%Z with (Z.succ (- e)) by lia.
    rewrite Z.pow_succ_r by lia. reflexivity. }
  rewrite E2.
  (* back to the integers *)
  assert (Hc : pow2 e * inject_Z (2 ^ (- e)) == 1).
  { rewrite <- pow2_Z by lia. apply pow2_cancel. }
  pose proof (pow2_pos e) as HP.
  set (T := (2 ^ (- e))%Z) in *.
  assert (Tq : 0 < inject_Z T).
  { change 0 with (inject_Z 0). rewrite <- Zlt_Qlt. assumption. }
  assert (A1 : (2 * n * T <= 2 * sm + T)%Z).
  { rewrite Zle_Qle. push_inject_goal.
    change (inject_Z 2) with 2. change (inject_Z 1) with 1.
    set (P := pow2 e) in *. set (Tz := inject_Z T) in *.
    set (S := inject_Z sm) in *. set (N := inject_Z n) in *.
    assert (0 <= (S * P - (N - (1#2))) * Tz)
      by (apply Qmult_le_0_compat; lra).
    assert (S * P * Tz == S) by (transitivity (S * (P * Tz)); [ring|]; rewrite Hc; ring).
    lra. }
  assert (A2 : (2 * sm < 2 * n * T + T)%Z).
  { rewrite Zlt_Qlt. push_inject_goal.
    change (inject_Z 2) with 2. change (inject_Z 1) with 1.
    set (P := pow2 e) in *. set (Tz := inject_Z T) in *.
    set (S := inject_Z sm) in *. set (N := inject_Z n) in *.
    assert (0 < (N + (1#2) - S * P) * Tz)
      by (apply Qmult_lt_0_compat; lra).
    assert (S * P * Tz == S) by (transitivity (S * (P * Tz)); [ring|]; rewrite Hc; ring).
    lra. }
  symmetry. apply Z.div_unique with (r := (2 * sm + T - n * (2 * T))%Z); lia.
Qed.

(** [round_half_up_Z] is at most a half above and less than a half below the
    value. *)
Lemma round_half_up_Z_bounds (s : bool) (m : positive) (e : Z) :
  (e <= -1)%Z ->
  let n := round_half_up_Z s m e in
  inject_Z n - (1#2) <= to_Q (S754_finite s m e) /\
  to_Q (S754_finite s m e) < inject_Z n + (1#2).
Proof.
  intros He n. subst n. unfold round_half_up_Z, to_Q.
  set (sm := cond_Zopp s (Zpos m)).
  assert (HT : (0 < 2 ^ (- e))%Z) by (apply Z.pow_pos_nonneg; lia).
  assert (E2 : (2 ^ (1 - e) = 2 * 2 ^ (- e))%Z).
  { replace (1 - e)%Z with (Z.succ (- e)) by lia.
    rewrite Z.pow_succ_r by lia. reflexivity. }
  rewrite E2.
  assert (Hc : pow2 e * inject_Z (2 ^ (- e)) == 1).
  { rewrite <- pow2_Z by lia. apply pow2_cancel. }
  pose proof (pow2_pos e) as HP.
  set (T := (2 ^ (- e))%Z) in *.
  set (n := ((2 * sm + T) / (2 * T))%Z).
  pose proof (Z.div_mod (2 * sm + T) (2 * T) ltac:(lia)) as Hdm.
  pose proof (Z.mod_pos_bound (2 * sm + T) (2 * T) ltac:(lia)) as Hmod.
  fold n in Hdm.
  assert (A1 : (2 * n * T <= 2 * sm + T)%Z) by lia.
  assert (A2 : (2 * sm + T + 1 <= 2 * n * T + 2 * T)%Z) by lia.
  rewrite Zle_Qle in A1, A2. push_inject_in A1. push_inject_in A2.
  change (inject_Z 2) with 2 in *. change (inject_Z 1) with 1 in *.
  set (P := pow2 e) in *. set (Tz := inject_Z T) in *.
  set (S := inject_Z sm) in *. set (N := inject_Z n) in *.
  assert (HN : N * Tz * P == N)
    by (transitivity (N * (P * Tz)); [|rewrite Hc]; ring).
  assert (H3 : Tz * P == 1) by (rewrite <- Hc; ring).
  assert (H1 : 0 <= (2 * S + Tz - 2 * N * Tz) * P)
    by (apply Qmult_le_0_compat; lra).
  assert (H2 : 0 <= (2 * N * Tz + 2 * Tz - (2 * S + Tz + 1)) * P)
    by (apply Qmult_le_0_compat; lra).
  split; lra.
Qed.

Lemma to_Q_finite (s : bool) (m : positive) (e : Z) :
  to_Q (S754_finite s m e) == if s then - mag m e else mag m e.
Proof. unfold to_Q, mag. destruct s; simpl cond_Zopp; [|reflexivity].
  change (Z.neg m) with (- Zpos m)%Z. rewrite inject_Z_opp. ring. Qed.

Lemma roundPrice_zero (s : bool) : roundPrice (S754_zero s) = S754_zero s.
Proof. destruct s; reflexivity. Qed.

Lemma binary_normalize_szero (n : Z) (s s' : bool) :
  n <> 0%Z -> binary_normalize prec emax n 0 s = binary_normalize prec emax n 0 s'.
Proof. destruct n; [congruence | reflexivity | reflexivity]. Qed.

Lemma div_zero_hundred (s : bool) : div (S754_zero s) hundred = S754_zero s.
Proof. destruct s; reflexivity. Qed.

Lemma Math_round_finite_neg (s : bool) (m : positive) (e : Z) :
  (e <= -1)%Z ->
  Math_round (S754_finite s m e) =
  binary_normalize prec emax (round_half_up_Z s m e) 0 s.
Proof.
  intros He. unfold Math_round.
  destruct (Z.leb_spec 0 e); [lia | reflexivity].
Qed.

(** Up to 2^44 the second [roundPrice] recovers the integer number of cents
    of the first, and so its result. *)
Lemma roundPrice_fixpoint_core (s : bool) (m : positive) (e : Z) :
  mag m e <= inject_Z (2 ^ 44) ->
  roundPrice (roundPrice (S754_finite s m e)) = roundPrice (S754_finite s m e).
Proof.
  intros Hmag.
  change (inject_Z (2 ^ 44)) with (17592186044416 # 1) in Hmag.
  unfold roundPrice at 2 3.
  destruct (mul_hundred_ok s m e) as [[Hz _]|(my & ey & Hy & Hey & Hlo & Hhi)].
  { change (inject_Z (2 ^ 45)) with (35184372088832 # 1). lra. }
  { rewrite Hz. cbn [Math_round]. rewrite div_zero_hundred.
    apply roundPrice_zero. }
  rewrite Hy, (Math_round_finite_neg s my ey Hey).
  destruct (round_half_up_Z_bounds s my ey Hey) as [Hn1 Hn2].
  set (n := round_half_up_Z s my ey) in *.
  destruct (Z.eq_dec n 0) as [Hn0|Hn0].
  { rewrite Hn0. cbn [binary_normalize]. rewrite div_zero_hundred.
    apply roundPrice_zero. }
  (* the sign of n is the sign of the product *)
  rewrite to_Q_finite in Hn1, Hn2.
  pose proof (mag_pos my ey) as Hmy.
  assert (Hsign : (n <? 0)%Z = s /\ inject_Z (Z.abs n) <= mag my ey + (1#2)
                  /\ mag my ey <= inject_Z (Z.abs n) + (1#2)).
  { destruct s.
    - assert (Hneg : (n < 0)%Z).
      { destruct (Z_lt_le_dec n 0) as [|Hge]; [assumption|exfalso].
        assert (1 <= inject_Z n)
          by (change 1 with (inject_Z 1); rewrite <- Zle_Qle; lia).
        lra. }
      rewrite Z.abs_neq by lia. rewrite inject_Z_opp.
      split; [apply Z.ltb_lt; assumption|]. split; lra.
    - assert (Hpos : (0 < n)%Z).
      { destruct (Z_lt_le_dec 0 n) as [|Hle]; [assumption|exfalso].
        assert (inject_Z n <= -1).
        { change (-1) with (inject_Z (-1)). rewrite <- Zle_Qle. lia. }
        lra. }
      rewrite Z.abs_eq by lia.
      split; [apply Z.ltb_ge; lia|]. split; lra. }
  destruct Hsign as (Hs & Ha1 & Ha2).
  assert (Habs : (0 < Z.abs n <= 2 ^ 51)%Z).
  { split; [lia|]. rewrite Zle_Qle.
    change (inject_Z (2 ^ 51)) with (2251799813685248 # 1). lra. }
  destruct (div_hundred_ok n s Habs) as (mr & er & Hr & Hr1 & Hr2).
  rewrite Hr, Hs.
  (* second pass *)
  unfold roundPrice.
  destruct (mul_hundred_ok s mr er)
    as [[_ Hsmall]|(my2 & ey2 & Hy2 & Hey2 & Hlo2 & Hhi2)].
  { change (inject_Z (2 ^ 45)) with (35184372088832 # 1).
    assert (Hq : inject_Z (Z.abs n) <= 2251799813685248 # 1).
    { change (2251799813685248 # 1) with (inject_Z (2 ^ 51)).
      rewrite <- Zle_Qle. lia. }
    lra. }
  { exfalso.
    assert (1 <= inject_Z (Z.abs n))
      by (change 1 with (inject_Z 1); rewrite <- Zle_Qle; lia).
    lra. }
  rewrite Hy2, (Math_round_finite_neg s my2 ey2 Hey2).
  assert (Hn2' : round_half_up_Z s my2 ey2 = n).
  { apply round_half_up_Z_unique; [assumption| |];
      rewrite to_Q_finite; destruct s.
    - apply Z.ltb_lt in Hs. rewrite Z.abs_neq, inject_Z_opp in * by lia. lra.
    - apply Z.ltb_ge in Hs. rewrite Z.abs_eq in * by lia. lra.
    - apply Z.ltb_lt in Hs. rewrite Z.abs_neq, inject_Z_opp in * by lia. lra.
    - apply Z.ltb_ge in Hs. rewrite Z.abs_eq in * by lia. lra. }
  rewrite Hn2'. rewrite <- Hs at 2. exact Hr.
Qed.

(** The magnitude is the absolute value. *)
Lemma Qabs_to_Q_finite (s : bool) (m : positive) (e : Z) :
  Qabs (to_Q (S754_finite s m e)) == mag m e.
Proof.
  rewrite to_Q_finite. pose proof (mag_pos m e).
  destruct s; [rewrite Qabs_opp|]; apply Qabs_pos; lra.
Qed.

Lemma roundPrice_fixpoint_bounded (x : number) :
  is_finite x = true ->
  Qabs (to_Q x) <= inject_Z (2 ^ 44) ->
  roundPrice (roundPrice x) = roundPrice x.
Proof.
  intros Hfin Hb.
  destruct x as [s|s| |s m e]; try discriminate.
  - now rewrite !roundPrice_zero.
  - apply roundPrice_fixpoint_core.
    rewrite <- (Qabs_to_Q_finite s m e). exact Hb.
Qed.


Local Close Scope Q_scope.

(* ================================================================== *)
(** * Signs *)
(* ================================================================== *)

Lemma nonneg_cases (x : number) :
  nonneg x = true <->
  (exists s, x = S754_zero s) \/ has_sign false x.
Proof.
  destruct x as [[]|[]| |[] m e]; simpl; split; intros H;
    try discriminate; try reflexivity; eauto;
    destruct H as [[s H]|H]; try discriminate; try contradiction; auto.
Qed.

Lemma loc_ok_exists (l : location) : exists a b, loc_ok a b l.
Proof.
  destruct l as [|[]]; [exists 0, 1 | exists 1, 2 | exists 1, 3 | exists 2, 3];
    unfold loc_ok; lia.
Qed.

(** The rounding step never returns NaN and keeps the sign it is given. *)
Lemma binary_round_aux_sign (s : bool) (mx ex : Z) (lx : location) :
  0 <= mx -> has_sign s (binary_round_aux prec emax s mx ex lx).
Proof.
  intros Hmx. destruct (loc_ok_exists lx) as (a & b & Hl).
  destruct (shr_fexp_ok mx ex lx a b Hmx Hl) as (mrs & Hshr & Hm & Hloc).
  assert (H0 : 0 <= shr_m mrs).
  { rewrite Hm. apply Z.div_pos; [assumption|].
    apply Z.pow_pos_nonneg; lia. }
  destruct (round_nearest_even_ok (shr_m mrs) _ _ _ Hloc) as [Hm1 _].
  set (m1 := round_nearest_even (shr_m mrs) (loc_of_shr_record mrs)) in *.
  destruct (shr_fexp_ok m1 (ex + Z.max 0 (fexp prec emax (Zdigits2 mx + ex) - ex))
              loc_Exact 0 1) as (mrs2 & Hshr2 & Hm2 & _).
  { lia. } { unfold loc_ok; lia. }
  unfold binary_round_aux. rewrite Hshr. fold m1. rewrite Hshr2.
  assert (H2 : 0 <= shr_m mrs2).
  { rewrite Hm2. apply Z.div_pos; [lia|]. apply Z.pow_pos_nonneg; lia. }
  destruct (shr_m mrs2) as [|p|p]; try lia; simpl; auto.
  match goal with |- context [if ?c then _ else _] => destruct c end;
    reflexivity.
Qed.

Lemma round_half_up_Z_nonneg (m : positive) (e : Z) :
  0 <= round_half_up_Z false m e.
Proof.
  unfold round_half_up_Z. simpl cond_Zopp.
  assert (0 <= 2 ^ (- e)) by (apply Z.pow_nonneg; lia).
  destruct (Z_le_gt_dec 0 (1 - e)).
  - apply Z.div_pos; [lia | apply Z.pow_pos_nonneg; lia].
  - rewrite (Z.pow_neg_r 2 (1 - e)) by lia. rewrite Z.div_0_r. lia.
Qed.

Lemma binary_normalize_sign (n : Z) :
  0 <= n ->
  binary_normalize prec emax n 0 false = S754_zero false \/
  has_sign false (binary_normalize prec emax n 0 false).
Proof.
  intros Hn. destruct n as [|p|p]; try lia; [left; reflexivity|right].
  unfold binary_normalize, binary_round.
  destruct (shl_align p 0 (fexp prec emax (Z.pos (digits2_pos p) + 0)))
    as [mz ez].
  apply binary_round_aux_sign. lia.
Qed.

Lemma Math_round_sign (y : number) :
  has_sign false y -> has_sign false (Math_round y).
Proof.
  destruct y as [s|s| |s m e]; cbn [has_sign Math_round]; auto.
  intros ->. destruct (0 <=? e); [reflexivity|].
  destruct (binary_normalize_sign (round_half_up_Z false m e)
              (round_half_up_Z_nonneg m e)) as [-> | H]; [reflexivity|exact H].
Qed.

Lemma mul_hundred_sign (x : number) :
  has_sign false x -> has_sign false (mul x hundred).
Proof.
  destruct x as [s|s| |s m e]; cbn [has_sign]; try tauto; intros ->.
  - reflexivity.
  - reflexivity.
  - unfold mul. rewrite hundred_eq. cbn [SFmul xorb].
    apply binary_round_aux_sign. lia.
Qed.

Lemma div_hundred_sign (x : number) :
  has_sign false x -> has_sign false (div x hundred).
Proof.
  destruct x as [s|s| |s m e]; cbn [has_sign]; try tauto; intros ->.
  - reflexivity.
  - reflexivity.
  - unfold div. rewrite hundred_eq. cbn [SFdiv xorb].
    pose proof (SFdiv_core_binary_ok (Zpos m) e 7036874417766400 (-46)
                  ltac:(lia) ltac:(reflexivity)) as Hcore.
    destruct (SFdiv_core_binary prec emax (Zpos m) e 7036874417766400 (-46))
      as [[q e'] l].
    cbv zeta in Hcore. destruct Hcore as (_ & Hq & _).
    now apply binary_round_aux_sign.
Qed.

(** [roundPrice] of a value that is not NaN and not below zero is not NaN and
    not below zero. *)
Lemma roundPrice_nonneg (x : number) :
  nonneg x = true -> nonneg (roundPrice x) = true.
Proof.
  intros H. apply nonneg_cases in H as [[s ->]|H].
  - rewrite roundPrice_zero. now destruct s.
  - apply nonneg_cases. right. unfold roundPrice.
    now apply div_hundred_sign, Math_round_sign, mul_hundred_sign.
Qed.

(* ================================================================== *)
(** * Math.round and the integers *)
(* ================================================================== *)

Local Open Scope Q_scope.

(** The floor is the integer at or below, with the next one above. *)
Lemma Qfloor_unique (q : Q) (n : Z) :
  inject_Z n <= q -> q < inject_Z n + 1 -> Qfloor q = n.
Proof.
  intros H1 H2.
  pose proof (Qfloor_le q) as F1. pose proof (Qlt_floor q) as F2.
  rewrite inject_Z_plus in F2. change (inject_Z 1) with 1 in F2.
  assert (A : (n < Qfloor q + 1)%Z).
  { rewrite Zlt_Qlt, inject_Z_plus. change (inject_Z 1) with 1. lra. }
  assert (B : (Qfloor q < n + 1)%Z).
  { rewrite Zlt_Qlt, inject_Z_plus. change (inject_Z 1) with 1. lra. }
  lia.
Qed.

(** An integer of at most 2^53 in magnitude converts to the number of that
    magnitude. *)
Lemma binary_normalize_mag (n : Z) (s : bool) :
  (0 < Z.abs n <= 2 ^ 53)%Z ->
  exists mn en,
    binary_normalize prec emax n 0 s = S754_finite (n <? 0)%Z mn en /\
    mag mn en == inject_Z (Z.abs n).
Proof.
  intros Hn.
  destruct (binary_normalize_exact n s Hn)
    as (mn & en & HN & Hen & Hneg & Hpos & _).
  exists mn, en. split; [assumption|].
  unfold mag. destruct (Z_le_gt_dec en 0) as [Hle|Hgt].
  - rewrite (Hneg Hle), inject_Z_mult, <- pow2_Z by lia.
    rewrite <- Qmult_assoc, (Qmult_comm (pow2 (- en))), pow2_cancel. ring.
  - assert (en = 1)%Z by lia. subst en.
    rewrite <- (Hpos ltac:(lia)), inject_Z_mult.
    change (pow2 1) with 2. change (inject_Z 2) with 2. ring.
Qed.

Lemma to_Q_binary_normalize (n : Z) (s : bool) :
  (Z.abs n <= 2 ^ 53)%Z ->
  is_finite (binary_normalize prec emax n 0 s) = true /\
  to_Q (binary_normalize prec emax n 0 s) == inject_Z n.
Proof.
  intros Hn. destruct (Z.eq_dec n 0) as [->|Hne].
  - split; reflexivity.
  - destruct (binary_normalize_mag n s ltac:(lia)) as (mn & en & -> & Hmag).
    split; [reflexivity|]. rewrite to_Q_finite.
    destruct (Z.ltb_spec n 0); rewrite Hmag.
    + rewrite Z.abs_neq, inject_Z_opp by lia. ring.
    + rewrite Z.abs_eq by lia. reflexivity.
Qed.

Lemma valid_mantissa_ok (x : number) : valid x = true -> mantissa_ok x.
Proof.
  destruct x as [s|s| |s m e]; simpl; auto.
  unfold valid, valid_binary, bounded, canonical_mantissa.
  intros H. apply andb_prop in H as [Hc _]. apply Z.eqb_eq in Hc.
  rewrite fexp_eq in Hc.
  change (Z.pos (digits2_pos m)) with (Zdigits2 (Zpos m)) in Hc.
  destruct (Zdigits2_bounds (Zpos m) ltac:(lia)) as (_ & _ & Hhi).
  assert (Hd : (Zdigits2 (Zpos m) <= 53)%Z) by lia.
  assert ((2 ^ Zdigits2 (Zpos m) <= 2 ^ 53)%Z)
    by (apply Z.pow_le_mono_r; lia).
  lia.
Qed.

Lemma mul_hundred_mantissa_ok (x : number) : mantissa_ok (mul x hundred).
Proof.
  destruct x as [s|s| |s m e]; try exact I.
  unfold mul. rewrite hundred_eq. cbn [SFmul].
  set (M := 7036874417766400%positive).
  assert (HM52 : (2 ^ 52 <= Zpos (m * M))%Z).
  { rewrite Pos2Z.inj_mul. change (2 ^ 52)%Z with 4503599627370496%Z.
    subst M. nia. }
  pose proof (Zdigits2_ge _ 52 ltac:(lia) HM52) as Hd53.
  destruct (binary_round_aux_ok (xorb s false) (Zpos (m * M)) (e + -46)
              loc_Exact 0 1) as (m1 & k2 & Hb & _ & Hk2 & ->).
  { lia. } { unfold loc_ok; lia. } { rewrite fexp_eq. lia. }
  assert (Hq : (0 <= m1 / 2 ^ k2 <= 2 ^ 53)%Z).
  { destruct Hk2 as [->|[-> ->]].
    - change (2 ^ 0)%Z with 1%Z. rewrite Z.div_1_r. lia.
    - vm_compute. split; discriminate. }
  unfold build. destruct (m1 / 2 ^ k2)%Z as [|p|p]; try exact I.
  match goal with |- context [if ?c then _ else _] => destruct c end;
    [simpl; lia | exact I].
Qed.

(** [Math.round] returns the integer [floor (y + 1/2)]. *)
Lemma Math_round_Q (y : number) :
  is_finite y = true -> mantissa_ok y ->
  is_finite (Math_round y) = true /\
  to_Q (Math_round y) == inject_Z (Qfloor (to_Q y + (1#2))).
Proof.
  destruct y as [s|s| |s m e]; try discriminate; intros _ Hm.
  - split; reflexivity.
  - cbn [mantissa_ok] in Hm. unfold Math_round.
    destruct (Z.leb_spec 0 e) as [He|He].
    + split; [reflexivity|].
      assert (Hint : to_Q (S754_finite s m e)
                     == inject_Z (cond_Zopp s (Zpos m) * 2 ^ e)).
      { unfold to_Q. now rewrite inject_Z_mult, pow2_Z. }
      rewrite Hint at 2.
      rewrite (Qfloor_unique _ (cond_Zopp s (Zpos m) * 2 ^ e)); [exact Hint| |].
      * set (z := inject_Z (cond_Zopp s (Z.pos m) * 2 ^ e)). lra.
      * set (z := inject_Z (cond_Zopp s (Z.pos m) * 2 ^ e)). lra.
    + destruct (round_half_up_Z_bounds s m e ltac:(lia)) as [B1 B2].
      set (n := round_half_up_Z s m e) in *.
      assert (Hfl : Qfloor (to_Q (S754_finite s m e) + (1#2)) = n).
      { apply Qfloor_unique; lra. }
      rewrite Hfl.
      apply to_Q_binary_normalize.
      (* |n| <= |y| + 1/2 and |y| <= 2^53 / 2 *)
      rewrite to_Q_finite in B1, B2.
      assert (Hmag : mag m e <= 4503599627370496 # 1).
      { unfold mag.
        assert (Hp : pow2 e <= 1 # 2).
        { change (1 # 2) with (pow2 (-1)). apply pow2_le. lia. }
        assert (Hmq : inject_Z (Zpos m) <= 9007199254740992 # 1).
        { change (9007199254740992 # 1) with (inject_Z (2 ^ 53)).
          now rewrite <- Zle_Qle. }
        pose proof (pow2_pos e) as HP.
        assert (Hm0 : 0 <= inject_Z (Zpos m)).
        { change 0 with (inject_Z 0). rewrite <- Zle_Qle. lia. }
        set (P := pow2 e) in *. set (mq := inject_Z (Zpos m)) in *.
        assert (0 <= ((9007199254740992 # 1) - mq) * P)
          by (apply Qmult_le_0_compat; lra).
        lra. }
      pose proof (mag_pos m e) as Hpos.
      assert (Hn : (- 2 ^ 53 <= n <= 2 ^ 53)%Z).
      { rewrite !Zle_Qle.
        change (inject_Z (- 2 ^ 53)) with (- 9007199254740992 # 1).
        change (inject_Z (2 ^ 53)) with (9007199254740992 # 1).
        destruct s; lra. }
      lia.
Qed.


Local Close Scope Q_scope.

(* ================================================================== *)
(** * Strings and comparisons *)
(* ================================================================== *)

Lemma trimStart_clean (s : jsstring) : starts_clean (trimStart s).
Proof.
  induction s as [|c s IH]; simpl; auto.
  destruct (isWhiteSpace c) eqn:E; simpl; auto.
Qed.

Lemma trimStart_id (s : jsstring) : starts_clean s -> trimStart s = s.
Proof. destruct s as [|c s]; simpl; auto. now intros ->. Qed.

Lemma trimStart_suffix (s : jsstring) : exists p, s = p ++ trimStart s.
Proof.
  induction s as [|c s [p IH]]; simpl.
  - now exists [].
  - destruct (isWhiteSpace c).
    + exists (c :: p). simpl. now rewrite <- IH.
    + now exists [].
Qed.

Lemma trimEnd_prefix (s : jsstring) : exists q, s = trimEnd s ++ q.
Proof.
  unfold trimEnd. destruct (trimStart_suffix (rev s)) as [p Hp].
  exists (rev p). rewrite <- rev_app_distr, <- Hp. now rewrite rev_involutive.
Qed.

Lemma trimEnd_keeps_clean (s : jsstring) :
  starts_clean s -> starts_clean (trimEnd s).
Proof.
  intros H. destruct (trimEnd_prefix s) as [q Hq].
  destruct (trimEnd s) as [|c t]; simpl; auto.
  rewrite Hq in H. exact H.
Qed.

Lemma trimEnd_idem (s : jsstring) : trimEnd (trimEnd s) = trimEnd s.
Proof.
  unfold trimEnd. rewrite rev_involutive.
  now rewrite (trimStart_id _ (trimStart_clean (rev s))).
Qed.

(** Trimming twice is trimming once. *)
Lemma trim_idem (s : jsstring) : trim (trim s) = trim s.
Proof.
  unfold trim.
  rewrite (trimStart_id (trimEnd (trimStart s))).
  - apply trimEnd_idem.
  - apply trimEnd_keeps_clean, trimStart_clean.
Qed.

Lemma nonempty_true (s : jsstring) : nonempty s = true <-> s <> [].
Proof. destruct s; simpl; split; congruence. Qed.

Lemma nonneg_of_tests (p : number) :
  isNaN p = false -> lt p zero = false -> nonneg p = true.
Proof. intros H1 H2. unfold nonneg. now rewrite H1, H2. Qed.

Lemma nonneg_tests (p : number) :
  nonneg p = true -> isNaN p = false /\ lt p zero = false /\ ge p zero = true.
Proof. destruct p as [[]|[]| |[] m e]; simpl; intros H; try discriminate; auto. Qed.

(** A valid price that is not [<= 0] is [> 0]. *)
Lemma positive_of_tests (p : number) :
  isValidPrice (Some p) = true -> le p zero = false -> gt p zero = true.
Proof. destruct p as [[]|[]| |[] m e]; simpl; intros H1 H2; try discriminate; auto. Qed.

(** [parsePrice] never returns NaN or a value below zero. *)
Lemma parsePrice_nonneg (s : jsstring) : nonneg (parsePrice s) = true.
Proof.
  unfold parsePrice.
  destruct (isNaN (parseFloat s)) eqn:E1; [reflexivity|].
  destruct (lt (parseFloat s) zero) eqn:E2; [reflexivity|].
  simpl. apply roundPrice_nonneg. now apply nonneg_of_tests.
Qed.

(** On values that are not below zero the two rounding rules agree. *)
Lemma roundPrice_half_away_nonneg (x : number) :
  nonneg x = true -> roundPrice x = spec_roundPrice x.
Proof.
  intros H. unfold roundPrice, spec_roundPrice. f_equal.
  assert (Hy : (exists s, mul x hundred = S754_zero s)
               \/ has_sign false (mul x hundred)).
  { apply nonneg_cases in H as [[s ->]|H].
    - left. exists s. now destruct s.
    - right. now apply mul_hundred_sign. }
  destruct Hy as [[s ->]|Hy]; [reflexivity|].
  destruct (mul x hundred) as [s|s| |s m e]; try reflexivity.
  cbn [has_sign] in Hy. subst s. reflexivity.
Qed.

(* ================================================================== *)
(** * Properties of priceUtils *)
(* ================================================================== *)

Local Open Scope Q_scope.

(** C4, as stated, fails: -0.005 times 100 is exactly -0.5, [Math.round]
    takes that half up to -0, and the result is -0, where rounding the half
    away from zero gives -0.01. *)
Lemma roundPrice_negative_half_cent :
  let x := parseFloat (lit "-0.005") in
  is_finite x = true /\
  mul x hundred = parseFloat (lit "-0.5") /\
  roundPrice x = neg_zero /\
  spec_roundPrice x = parseFloat (lit "-0.01") /\
  roundPrice x <> spec_roundPrice x.
Proof.
  vm_compute. repeat (split; [reflexivity|]). discriminate.
Qed.

(** C4 (amended): [roundPrice x] is the binary64 product of [x] and 100,
    rounded to an integer by [Math.round], divided in binary64 by 100.
    Whenever the product is finite, [Math.round] returns exactly the integer
    [floor (y + 1/2)]: the nearest integer, an exact half going up, towards
    +Infinity.  For every [x] that is not NaN and not below zero this is the
    rounding with halves away from zero of the specification. *)
Theorem roundPrice_rounds_half_up (x : number) :
  let y := mul x hundred in
  roundPrice x = div (Math_round y) hundred /\
  (is_finite y = true ->
     is_finite (Math_round y) = true /\
     to_Q (Math_round y) == inject_Z (Qfloor (to_Q y + (1#2)))) /\
  (nonneg x = true -> roundPrice x = spec_roundPrice x).
Proof.
  cbv zeta. split; [reflexivity|]. split.
  - intros Hfin. apply Math_round_Q; [assumption|].
    apply mul_hundred_mantissa_ok.
  - apply roundPrice_half_away_nonneg.
Qed.

Lemma roundPrice_rounds_half_up_witness :
  to_Q (Math_round (mul (parseFloat (lit "12.567")) hundred)) == 1257 /\
  roundPrice (parseFloat (lit "0.005")) = parseFloat (lit "0.01").
Proof.
  destruct (roundPrice_rounds_half_up (parseFloat (lit "12.567")))
    as (_ & H & _).
  destruct (roundPrice_rounds_half_up (parseFloat (lit "0.005")))
    as (_ & _ & H').
  split.
  - rewrite (proj2 (H eq_refl)). reflexivity.
  - rewrite (H' eq_refl). reflexivity.
Defined.

(** C6, as stated, fails: 44503241947464.695 rounds to 44503241947464.7,
    and that rounds to 44503241947464.71. *)
Lemma roundPrice_not_idempotent :
  let x := parseFloat (lit "44503241947464.695") in
  is_finite x = true /\
  roundPrice x = parseFloat (lit "44503241947464.7") /\
  roundPrice (roundPrice x) = parseFloat (lit "44503241947464.71") /\
  roundPrice (roundPrice x) <> roundPrice x.
Proof.
  vm_compute. repeat (split; [reflexivity|]). discriminate.
Qed.

(** C6 (amended): [roundPrice] is idempotent on every finite value of
    magnitude at most 2^44 (about 1.76e13). *)
Theorem roundPrice_idempotent (x : number) :
  is_finite x = true ->
  Qabs (to_Q x) <= inject_Z (2 ^ 44) ->
  roundPrice (roundPrice x) = roundPrice x.
Proof.
  intros Hfin Hbound.
  destruct x as [s|s| |s m e]; try discriminate Hfin.
  - (* a zero is returned as it is *)
    destruct s; reflexivity.
  - (* a finite value: its magnitude is within the bound *)
    apply roundPrice_fixpoint_core.
    rewrite <- (Qabs_to_Q_finite s m e). exact Hbound.
Qed.

Lemma roundPrice_idempotent_witness :
  roundPrice (roundPrice (parseFloat (lit "12.567")))
  = roundPrice (parseFloat (lit "12.567")).
Proof.
  apply roundPrice_idempotent.
  - reflexivity.
  - vm_compute. discriminate.
Defined.

(** C5, as stated, fails: the text "Infinity" (as does "1e999") parses to a
    value that is not finite, and the result is Infinity, not 0. *)
Lemma parsePrice_keeps_infinity :
  is_finite (parseFloat (lit "Infinity")) = false /\
  parsePrice (lit "Infinity") = Infinity /\
  parsePrice (lit "1e999") = Infinity /\
  parsePrice (lit "Infinity") <> zero.
Proof.
  vm_compute. repeat (split; [reflexivity|]). discriminate.
Qed.

(** C5 (amended): [parsePrice] is total; it returns 0 when the parsed value
    is NaN or below zero and [roundPrice] of the parsed value otherwise,
    which for an infinite parse is Infinity; its result is never NaN and
    never below zero; and it maps "-5" and "abc" to 0, "12.5" to 12.5 and
    "12.567" to 12.57. *)
Theorem parsePrice_spec (s : jsstring) :
  let parsed := parseFloat s in
  (isNaN parsed = true \/ lt parsed zero = true -> parsePrice s = zero) /\
  (isNaN parsed = false -> lt parsed zero = false ->
     parsePrice s = roundPrice parsed) /\
  (parsed = Infinity -> parsePrice s = Infinity) /\
  isNaN (parsePrice s) = false /\ lt (parsePrice s) zero = false /\
  parsePrice (lit "-5") = zero /\
  parsePrice (lit "abc") = zero /\
  parsePrice (lit "12.5") = parseFloat (lit "12.5") /\
  parsePrice (lit "12.567") = parseFloat (lit "12.57").
Proof.
  cbv zeta. unfold parsePrice at 1 2 3.
  split; [|split; [|split; [|split; [|split]]]].
  - intros [H|H]; rewrite H; [reflexivity | now rewrite orb_true_r].
  - intros H1 H2. now rewrite H1, H2.
  - intros ->. reflexivity.
  - apply (nonneg_tests _ (parsePrice_nonneg s)).
  - apply (nonneg_tests _ (parsePrice_nonneg s)).
  - vm_compute. repeat split; reflexivity.
Qed.

Lemma parsePrice_spec_witness :
  parsePrice (lit " 7.125 each") = parseFloat (lit "7.13") /\
  parsePrice (lit "-0.01") = zero.
Proof.
  destruct (parsePrice_spec (lit " 7.125 each")) as (_ & H & _).
  destruct (parsePrice_spec (lit "-0.01")) as (H' & _).
  split.
  - rewrite (H eq_refl eq_refl). vm_compute. reflexivity.
  - apply H'. right. reflexivity.
Defined.

Local Close Scope Q_scope.

(* ================================================================== *)
(** * Properties of calculateAveragePriceByCourse *)
(* ================================================================== *)

Lemma category_eqb_spec (a b : MenuCategory) :
  reflect (a = b) (category_eqb a b).
Proof. destruct a, b; simpl; constructor; congruence. Qed.

Lemma category_eqb_refl (a : MenuCategory) : category_eqb a a = true.
Proof. now destruct a. Qed.

Lemma category_eqb_sym (a b : MenuCategory) :
  category_eqb a b = category_eqb b a.
Proof. now destruct a, b. Qed.

Module ObjFacts.
Import Obj.

Section WithValues.
Context {V : Type}.
Implicit Types (o : t V) (k c : MenuCategory) (v : V).

Lemma get_set_same k v o : get k (set k v o) = Some v.
Proof.
  induction o as [|[k' w] o IH]; simpl.
  - now rewrite category_eqb_refl.
  - destruct (category_eqb k' k) eqn:E; simpl; rewrite E; auto.
Qed.

Lemma get_set_other k c v o :
  category_eqb k c = false -> get c (set k v o) = get c o.
Proof.
  intros Hkc. induction o as [|[k' w] o IH]; simpl.
  - now rewrite Hkc.
  - destruct (category_eqb k' k) eqn:E; simpl.
    + destruct (category_eqb_spec k' k) as [->|]; [|discriminate].
      now rewrite Hkc.
    + now rewrite IH.
Qed.

Lemma get_set k c v o :
  get c (set k v o) = if category_eqb k c then Some v else get c o.
Proof.
  destruct (category_eqb k c) eqn:E.
  - destruct (category_eqb_spec k c) as [->|]; [|discriminate].
    apply get_set_same.
  - now apply get_set_other.
Qed.

Lemma get_In_keys c o : In c (keys o) <-> get c o <> None.
Proof.
  induction o as [|[k' w] o IH]; simpl.
  - split; [tauto | congruence].
  - destruct (category_eqb_spec k' c) as [->|Hne].
    + split; [congruence | auto].
    + rewrite <- IH. split; [intros [?|?]; [contradiction | auto] | auto].
Qed.

Lemma keys_set k v o :
  keys (set k v o) =
  match get k o with Some _ => keys o | None => keys o ++ [k] end.
Proof.
  induction o as [|[k' w] o IH]; simpl; auto.
  destruct (category_eqb k' k) eqn:E; simpl; auto.
  rewrite IH. now destruct (get k o).
Qed.

Lemma NoDup_keys_set k v o : NoDup (keys o) -> NoDup (keys (set k v o)).
Proof.
  intros Hnd. rewrite keys_set.
  destruct (get k o) eqn:E; auto.
  apply NoDup_app; auto.
  - constructor; [intros [] | constructor].
  - intros x Hx [<-|[]]. apply get_In_keys in Hx. congruence.
Qed.

End WithValues.
End ObjFacts.

(** What one turn of the first loop does to the entry of category [c]. *)
Lemma get_accumulate (c : MenuCategory) (T : Obj.t Totals) (item : MenuItem) :
  Obj.get c (accumulate T item) =
  if category_eqb item.(category) c then bump (Obj.get c T) item
  else Obj.get c T.
Proof.
  unfold accumulate, bump, price_or_default.
  destruct (Obj.get (category item) T) as [t|] eqn:Hget.
  - rewrite Hget, ObjFacts.get_set.
    destruct (category_eqb_spec (category item) c) as [<-|]; auto.
    now rewrite Hget.
  - rewrite ObjFacts.get_set_same, !ObjFacts.get_set.
    destruct (category_eqb_spec (category item) c) as [<-|]; auto.
    now rewrite Hget.
Qed.

Lemma NoDup_keys_accumulate (T : Obj.t Totals) (item : MenuItem) :
  NoDup (Obj.keys T) -> NoDup (Obj.keys (accumulate T item)).
Proof.
  intros H. unfold accumulate.
  destruct (Obj.get (category item) T) eqn:Hget.
  - rewrite Hget. now apply ObjFacts.NoDup_keys_set.
  - rewrite ObjFacts.get_set_same.
    now do 2 apply ObjFacts.NoDup_keys_set.
Qed.

Lemma get_fold_accumulate (c : MenuCategory) (items : list MenuItem) :
  forall T,
    Obj.get c (fold_left accumulate items T) =
    fold_left bump (items_of c items) (Obj.get c T).
Proof.
  induction items as [|item items IH]; intros T; simpl; auto.
  rewrite IH, get_accumulate.
  now destruct (category_eqb (category item) c).
Qed.

Lemma NoDup_keys_fold_accumulate (items : list MenuItem) :
  forall T, NoDup (Obj.keys T) ->
            NoDup (Obj.keys (fold_left accumulate items T)).
Proof.
  induction items as [|item items IH]; intros T H; simpl; auto.
  apply IH. now apply NoDup_keys_accumulate.
Qed.

Lemma fold_bump_Some (l : list MenuItem) :
  forall t,
    fold_left bump l (Some t) =
    Some {| sum := fold_left (fun acc item => add acc (price_or_default item))
                     l t.(sum);
            count := (List.length l + t.(count))%nat |}.
Proof.
  induction l as [|item l IH]; intros [s n]; simpl.
  - reflexivity.
  - unfold bump at 2. simpl. rewrite IH. simpl.
    now rewrite Nat.add_succ_r.
Qed.

Lemma fold_bump_None (l : list MenuItem) :
  fold_left bump l None =
  match l with
  | [] => None
  | _ => Some {| sum := sum_prices l; count := List.length l |}
  end.
Proof.
  destruct l as [|item l]; simpl; auto.
  unfold bump at 2. simpl. rewrite fold_bump_Some. simpl.
  unfold sum_prices. simpl. now rewrite Nat.add_1_r.
Qed.

(** The second loop maps every entry of the totals to its average. *)
Lemma get_fold_average (c : MenuCategory) (T : Obj.t Totals) :
  NoDup (Obj.keys T) ->
  forall A,
    Obj.get c (fold_left average T A) =
    match Obj.get c T with
    | Some t => Some (average_of t)
    | None => Obj.get c A
    end.
Proof.
  induction T as [|[k [s n]] T IH]; intros Hnd A; simpl; auto.
  inversion Hnd as [|? ? Hnotin Hnd']; subst.
  rewrite IH by assumption.
  destruct (category_eqb_spec k c) as [->|Hne].
  - destruct (Obj.get c T) eqn:E.
    + exfalso. apply Hnotin. apply ObjFacts.get_In_keys. congruence.
    + now rewrite ObjFacts.get_set_same.
  - destruct (Obj.get c T); auto.
    apply ObjFacts.get_set_other.
    destruct (category_eqb_spec k c); congruence.
Qed.

(** The value stored for a category is the average the specification
    describes. *)
Lemma get_calculateAveragePriceByCourse (c : MenuCategory)
    (items : list MenuItem) :
  Obj.get c (calculateAveragePriceByCourse items) = category_average c items.
Proof.
  unfold calculateAveragePriceByCourse, category_average.
  rewrite get_fold_average
    by (apply NoDup_keys_fold_accumulate; constructor).
  rewrite get_fold_accumulate. simpl. rewrite fold_bump_None.
  destruct (items_of c items) as [|item l]; auto.
Qed.

Lemma keys_fold_average (T : Obj.t Totals) :
  forall A, NoDup (Obj.keys A) ->
            NoDup (Obj.keys (fold_left average T A)).
Proof.
  induction T as [|[k [s n]] T IH]; intros A H; simpl; auto.
  apply IH. now apply ObjFacts.NoDup_keys_set.
Qed.

Lemma items_of_nil_iff (c : MenuCategory) (items : list MenuItem) :
  items_of c items <> [] <->
  exists item, In item items /\ item.(category) = c.
Proof.
  unfold items_of. split.
  - intros H. destruct (filter _ items) as [|item l] eqn:E; [congruence|].
    assert (Hin : In item (filter (fun i => category_eqb (category i) c) items))
      by (rewrite E; now left).
    apply filter_In in Hin as [Hin Hc]. exists item. split; auto.
    now destruct (category_eqb_spec (category item) c).
  - intros (item & Hin & Hc) E.
    assert (Hin' : In item (filter (fun i => category_eqb (category i) c) items)).
    { apply filter_In. split; auto. subst c. apply category_eqb_refl. }
    rewrite E in Hin'. contradiction.
Qed.

(** C1, as stated, fails: the prices 2.63, 6.53, 24.22, 1.76 average to 8.78
    when added in this order and to 8.79 when added in the opposite order,
    because the additions round differently. *)
Lemma average_depends_on_order :
  Permutation four_mains (rev four_mains) /\
  Obj.get mains (calculateAveragePriceByCourse four_mains)
    = Some (parseFloat (lit "8.78")) /\
  Obj.get mains (calculateAveragePriceByCourse (rev four_mains))
    = Some (parseFloat (lit "8.79")) /\
  Obj.get mains (calculateAveragePriceByCourse four_mains)
    <> Obj.get mains (calculateAveragePriceByCourse (rev four_mains)).
Proof.
  split; [apply Permutation_rev|].
  split; [vm_compute; reflexivity|].
  split; [vm_compute; reflexivity|].
  vm_compute. discriminate.
Qed.

(** C1 (amended): the keys of the result are exactly the categories that
    occur in [items], each once; the value of a category is [roundPrice] of
    the sum of its prices, added in input order, divided by the number of
    its items; the keys are the same for every permutation of the input, and
    the values are the same for every reordering that keeps the items of
    each category in their relative order. *)
Theorem calculateAveragePriceByCourse_spec (items : list MenuItem) :
  let averages := calculateAveragePriceByCourse items in
  NoDup (Obj.keys averages) /\
  (forall c, In c (Obj.keys averages) <->
             exists item, In item items /\ item.(category) = c) /\
  (forall c, Obj.get c averages = category_average c items) /\
  (forall items', Permutation items items' ->
     forall c, In c (Obj.keys (calculateAveragePriceByCourse items')) <->
               In c (Obj.keys averages)) /\
  (forall items', (forall c, items_of c items' = items_of c items) ->
     forall c, Obj.get c (calculateAveragePriceByCourse items') =
               Obj.get c averages).
Proof.
  assert (Hkeys : forall l c,
             In c (Obj.keys (calculateAveragePriceByCourse l)) <->
             exists item, In item l /\ item.(category) = c).
  { intros l c. rewrite ObjFacts.get_In_keys, get_calculateAveragePriceByCourse.
    rewrite <- items_of_nil_iff. unfold category_average.
    destruct (items_of c l); split; congruence. }
  cbv zeta. split; [|split; [|split; [|split]]].
  - apply keys_fold_average. constructor.
  - apply Hkeys.
  - intros c. apply get_calculateAveragePriceByCourse.
  - intros items' Hperm c. rewrite !Hkeys.
    split; intros (item & Hin & Hc); exists item; split; auto.
    + eapply Permutation_in; [symmetry|]; eassumption.
    + eapply Permutation_in; eassumption.
  - intros items' H c.
    rewrite !get_calculateAveragePriceByCourse. unfold category_average.
    now rewrite H.
Qed.

(** The dessert moved to the front: the starters keep their order and their
    average. *)
Lemma calculateAveragePriceByCourse_spec_witness :
  Obj.get appetizers
    (calculateAveragePriceByCourse
       [mk_item "cake" desserts (Some "4"); mk_item "soup" appetizers (Some "10");
        mk_item "bread" appetizers None]%string)
  = Some (of_Z 5).
Proof.
  destruct (calculateAveragePriceByCourse_spec menu_with_unpriced)
    as (_ & _ & _ & _ & H).
  rewrite H; [vm_compute; reflexivity|].
  intros c. destruct c; reflexivity.
Defined.

(** C10: an item with no price is counted among the items of its category
    and adds 0 to the sum: the result is the one for the same items with the
    missing prices written out as 0, the divisor of a category is the number
    of all its items, and an unpriced item next to one at 10 gives the
    average 5, not 10. *)
Theorem missing_price_counts_as_zero (items : list MenuItem) :
  calculateAveragePriceByCourse items =
    calculateAveragePriceByCourse (map with_default_price items) /\
  (forall c item rest,
     items_of c items = item :: rest ->
     Obj.get c (calculateAveragePriceByCourse items) =
     Some (roundPrice
             (div (fold_left (fun acc i => add acc (price_or_default i))
                     (item :: rest) zero)
                (of_nat (S (List.length rest)))))) /\
  Obj.get appetizers (calculateAveragePriceByCourse menu_with_unpriced)
    = Some (of_Z 5).
Proof.
  split; [|split].
  - unfold calculateAveragePriceByCourse. f_equal.
    generalize (@Obj.empty Totals).
    induction items as [|item items IH]; intros T; simpl; [reflexivity|].
    exact (IH (accumulate T item)).
  - intros c item rest H.
    rewrite get_calculateAveragePriceByCourse. unfold category_average.
    now rewrite H.
  - vm_compute. reflexivity.
Qed.

Lemma missing_price_counts_as_zero_witness :
  Obj.get appetizers (calculateAveragePriceByCourse menu_with_unpriced)
  = Some (roundPrice (div (of_Z 10) (of_Z 2))).
Proof.
  destruct (missing_price_counts_as_zero menu_with_unpriced) as (_ & H & _).
  rewrite (H appetizers _ _ eq_refl). vm_compute. reflexivity.
Defined.

(* ================================================================== *)
(** * Properties of searchMenuItems *)
(* ================================================================== *)

Section SearchFacts.

Variable toLowerCase : jsstring -> jsstring.

(** The while loop appends the matching items in order. *)
Lemma search_loop_filter (t : jsstring) (items : list MenuItem) :
  forall results,
    search_loop toLowerCase t items results =
    results ++ filter (matches toLowerCase t) items.
Proof.
  induction items as [|item items IH]; intros results; simpl.
  - now rewrite app_nil_r.
  - rewrite IH. destruct (matches toLowerCase t item); auto.
    now rewrite <- app_assoc.
Qed.

Lemma deref_alloc_old (h : Heap) (a : list MenuItem) (r : ref) :
  (r < List.length h)%nat -> deref (fst (alloc h a)) r = deref h r.
Proof. intros H. unfold deref, alloc. simpl. now rewrite app_nth1. Qed.

Lemma deref_alloc_new (h : Heap) (a : list MenuItem) :
  deref (fst (alloc h a)) (snd (alloc h a)) = a.
Proof.
  unfold deref, alloc. simpl.
  rewrite app_nth2 by lia. now rewrite Nat.sub_diag.
Qed.

End SearchFacts.

(** C3, as stated, fails: for the term [" burger"] the code returns the item
    named "burger", whose name does not contain the term (it starts with a
    space) and which has no description. *)
Lemma search_trims_the_term :
  let h := [burger_menu] in
  let '(h', r) :=
    searchMenuItems basic_latin_toLowerCase h 0%nat (lit " burger") in
  deref h' r = [mk_item "burger" mains None]%string /\
  filter (spec_matches basic_latin_toLowerCase (lit " burger")) burger_menu = [] /\
  deref h' r <>
    filter (spec_matches basic_latin_toLowerCase (lit " burger")) burger_menu.
Proof.
  vm_compute. split; [reflexivity|]. split; [reflexivity|]. discriminate.
Qed.

(** C3 (amended): for a term that is empty or white space only, the function
    returns the very array it was given and leaves the heap as it is.
    Otherwise it returns a new array holding, in their original order,
    exactly the items whose lower-cased name or lower-cased description
    contains the lower-cased and then trimmed term; every array that existed
    before, the input among them, holds what it held. *)
Theorem searchMenuItems_spec (toLowerCase : jsstring -> jsstring)
    (h : Heap) (items : ref) (searchTerm : jsstring) :
  let '(h', r) := searchMenuItems toLowerCase h items searchTerm in
  (trim searchTerm = [] -> h' = h /\ r = items) /\
  (trim searchTerm <> [] ->
     deref h' r =
       filter (matches toLowerCase (trim (toLowerCase searchTerm)))
         (deref h items) /\
     r = List.length h /\
     (forall r0, (r0 < List.length h)%nat -> deref h' r0 = deref h r0)).
Proof.
  unfold searchMenuItems.
  destruct (trim searchTerm) as [|c t] eqn:E; simpl.
  - split; [auto | congruence].
  - split; [discriminate|]. intros _.
    rewrite search_loop_filter. simpl.
    split; [|split; [reflexivity|]].
    + unfold deref at 1. rewrite app_nth2 by lia. now rewrite Nat.sub_diag.
    + intros r0 Hr0. unfold deref. now rewrite app_nth1.
Qed.

(** An empty term gives the array back; "burger" selects by name or by
    description. *)
Lemma searchMenuItems_spec_witness :
  searchMenuItems basic_latin_toLowerCase [burger_menu] 0%nat (lit "  ")
    = ([burger_menu], 0%nat) /\
  deref (fst (searchMenuItems basic_latin_toLowerCase [burger_menu] 0%nat
                (lit "BURGER")))
        (snd (searchMenuItems basic_latin_toLowerCase [burger_menu] 0%nat
                (lit "BURGER")))
    = [mk_item "burger" mains None]%string.
Proof.
  pose proof (searchMenuItems_spec basic_latin_toLowerCase [burger_menu]
                0%nat (lit "  ")) as H1.
  pose proof (searchMenuItems_spec basic_latin_toLowerCase [burger_menu]
                0%nat (lit "BURGER")) as H2.
  destruct (searchMenuItems basic_latin_toLowerCase [burger_menu] 0%nat
              (lit "  ")) as [h1 r1].
  destruct (searchMenuItems basic_latin_toLowerCase [burger_menu] 0%nat
              (lit "BURGER")) as [h2 r2].
  destruct H1 as [H1 _]. destruct H2 as [_ H2].
  destruct (H1 eq_refl) as [-> ->].
  destruct (H2 ltac:(vm_compute; discriminate)) as [H2' _].
  simpl fst. simpl snd. rewrite H2'.
  split; reflexivity.
Defined.

(* ================================================================== *)
(** * Properties of the statistics cache *)
(* ================================================================== *)

(** C2, as stated, fails: the snapshot rounds the cached total once more, and
    for this price the second rounding moves the value (...464.7 becomes
    ...464.71), so the reported total is not [roundPrice] of the sum. *)
Lemma snapshot_rounds_twice :
  let stats :=
    fst (getGlobalStatistics
           (updateGlobalStatistics costly_menu 0 initial_cache)) in
  roundPrice (sum_prices costly_menu) = parseFloat (lit "44503241947464.7") /\
  stats.(stat_totalMenuValue) = parseFloat (lit "44503241947464.71") /\
  stats.(stat_totalMenuValue) <> roundPrice (sum_prices costly_menu).
Proof.
  vm_compute. split; [reflexivity|]. split; [reflexivity|]. discriminate.
Qed.

(** A price of NaN is counted as 0 by [price || 0], so it does not turn the
    total into NaN. *)
Lemma NaN_price_counts_as_zero :
  let items := [{| id := lit "x"; name := lit "x"; description := None;
                   price := Some NaN; category := mains |}] in
  (fst (getGlobalStatistics (updateGlobalStatistics items 0 initial_cache)))
    .(stat_totalMenuValue) = zero /\
  roundPrice (sum_prices items) = NaN.
Proof. vm_compute. split; reflexivity. Qed.

Lemma getGlobalStatistics_frame (c : Cache) : snd (getGlobalStatistics c) = c.
Proof. reflexivity. Qed.

Lemma step_cache (toLowerCase : jsstring -> jsstring) (w : World) (s : Step) :
  is_update s = false -> cache (step toLowerCase w s) = cache w.
Proof. destruct s; simpl; intros H; auto; discriminate. Qed.

(** A run without [updateGlobalStatistics] leaves the cache as it is. *)
Lemma run_cache (toLowerCase : jsstring -> jsstring) (steps : list Step) :
  forall w,
    forallb (fun s => negb (is_update s)) steps = true ->
    cache (run toLowerCase w steps) = cache w.
Proof.
  induction steps as [|s steps IH]; intros w H; [reflexivity|].
  simpl in H. apply andb_prop in H as [Hs Hrest].
  change (cache (run toLowerCase (step toLowerCase w s) steps) = cache w).
  rewrite IH by assumption.
  apply step_cache. now destruct (is_update s).
Qed.

(** C8: [getGlobalStatistics] leaves the three cache variables as they are;
    a step that changes any of them is a call of [updateGlobalStatistics];
    and over any run of analytics calls and changes to item collections
    that contains no such call, the cache is unchanged and a second
    [getGlobalStatistics] returns what the first returned. *)
Theorem cache_only_changed_by_update (toLowerCase : jsstring -> jsstring)
    (w : World) (steps : list Step) :
  forallb (fun s => negb (is_update s)) steps = true ->
  snd (getGlobalStatistics w.(cache)) = w.(cache) /\
  (forall s, cache (step toLowerCase w s) <> cache w -> is_update s = true) /\
  cache (run toLowerCase w steps) = cache w /\
  fst (getGlobalStatistics (cache (run toLowerCase w steps))) =
    fst (getGlobalStatistics w.(cache)).
Proof.
  intros H. split; [reflexivity|]. split; [|split].
  - intros s Hs. destruct (is_update s) eqn:E; auto.
    exfalso. apply Hs. now apply step_cache.
  - now apply run_cache.
  - now rewrite run_cache.
Qed.

Lemma cache_only_changed_by_update_witness :
  deref (heap (run basic_latin_toLowerCase stale_world stale_run)) 0%nat = [] /\
  stat_totalMenuItems
    (fst (getGlobalStatistics
            (cache (run basic_latin_toLowerCase stale_world stale_run))))
  = 2%nat.
Proof.
  split; [reflexivity|].
  destruct (cache_only_changed_by_update basic_latin_toLowerCase
              stale_world stale_run eq_refl) as (_ & _ & _ & ->).
  reflexivity.
Defined.

(** C2 (amended): right after [updateGlobalStatistics(items)], the snapshot
    reports the number of items; as total, [roundPrice] applied twice to the
    sum of the prices added in input order, a missing, NaN or zero price
    counted as 0; as time, the time of the update; and as average,
    [roundPrice] of the once-rounded total divided by the number of items,
    or 0 when there are none.  When the sum is finite and at most 2^44 in
    magnitude, the second rounding changes nothing: the total is
    [roundPrice] of the sum and the average is [roundPrice] of the reported
    total over the reported count. *)
Theorem snapshot_after_update (items : list MenuItem) (now : Z) (c : Cache) :
  let stats := fst (getGlobalStatistics (updateGlobalStatistics items now c)) in
  let total := total_value items in
  stats.(stat_totalMenuItems) = List.length items /\
  stats.(stat_totalMenuValue) = roundPrice (roundPrice total) /\
  stats.(stat_lastCalculationTime) = Some now /\
  stats.(stat_averageItemPrice) =
    match items with
    | [] => zero
    | _ => roundPrice (div (roundPrice total) (of_nat (List.length items)))
    end /\
  (is_finite total = true ->
   (Qabs (to_Q total) <= inject_Z (2 ^ 44))%Q ->
   stats.(stat_totalMenuValue) = roundPrice total /\
   stats.(stat_averageItemPrice) =
     match items with
     | [] => zero
     | _ => roundPrice (div stats.(stat_totalMenuValue)
                          (of_nat stats.(stat_totalMenuItems)))
     end).
Proof.
  cbv zeta. unfold getGlobalStatistics, updateGlobalStatistics. simpl.
  fold (total_value items).
  split; [reflexivity|]. split; [reflexivity|]. split; [reflexivity|].
  split; [now destruct items|].
  intros Hfin Hb.
  rewrite (roundPrice_fixpoint_bounded _ Hfin Hb).
  split; [reflexivity | now destruct items].
Qed.

Lemma snapshot_after_update_witness :
  let stats :=
    fst (getGlobalStatistics (updateGlobalStatistics [soup; cake] 7 initial_cache)) in
  stats.(stat_totalMenuValue) = of_Z 14 /\
  stats.(stat_averageItemPrice) = of_Z 7.
Proof.
  destruct (snapshot_after_update [soup; cake] 7 initial_cache)
    as (_ & _ & _ & _ & H).
  destruct (H eq_refl ltac:(vm_compute; discriminate)) as [H1 H2].
  cbv zeta. rewrite H2, H1. split; vm_compute; reflexivity.
Defined.

(* ================================================================== *)
(** * Properties of the storage gateway *)
(* ================================================================== *)

Lemma jsstring_eqb_eq (a b : jsstring) : jsstring_eqb a b = true <-> a = b.
Proof.
  unfold jsstring_eqb. destruct (list_eq_dec N.eq_dec a b); split; auto.
  discriminate.
Qed.

(** An item with a new id is appended. *)
Lemma upsert_new (item : MenuItem) (items : list MenuItem) :
  has_id item.(id) items = false -> upsert item items = items ++ [item].
Proof.
  induction items as [|x items IH]; simpl; auto.
  intros H. apply orb_false_elim in H as [Hx Hrest].
  rewrite Hx. now rewrite IH.
Qed.

(** An item with a stored id replaces the first entry of that id. *)
Lemma upsert_existing (item : MenuItem) (items : list MenuItem) :
  has_id item.(id) items = true ->
  exists before old after,
    items = before ++ old :: after /\
    old.(id) = item.(id) /\
    has_id item.(id) before = false /\
    upsert item items = before ++ item :: after.
Proof.
  induction items as [|x items IH]; simpl; [discriminate|].
  destruct (jsstring_eqb (id x) (id item)) eqn:E; simpl.
  - intros _. exists [], x, items. repeat split. now apply jsstring_eqb_eq.
  - intros H. destruct (IH H) as (before & old & after & -> & Hid & Hb & ->).
    exists (x :: before), old, after. simpl. rewrite E. now repeat split.
Qed.

Lemma find_by_id_upsert (item : MenuItem) (items : list MenuItem) :
  find_by_id item.(id) (upsert item items) = Some item /\
  (forall i, i <> item.(id) ->
             find_by_id i (upsert item items) = find_by_id i items).
Proof.
  unfold find_by_id. split.
  - induction items as [|x items IH]; simpl.
    + now rewrite (proj2 (jsstring_eqb_eq _ _) eq_refl).
    + destruct (jsstring_eqb (id x) (id item)) eqn:E; simpl.
      * now rewrite (proj2 (jsstring_eqb_eq _ _) eq_refl).
      * now rewrite E.
  - intros i Hi. induction items as [|x items IH]; simpl.
    + destruct (jsstring_eqb (id item) i) eqn:E; auto.
      apply jsstring_eqb_eq in E. congruence.
    + destruct (jsstring_eqb (id x) (id item)) eqn:E; simpl.
      * apply jsstring_eqb_eq in E.
        destruct (jsstring_eqb (id item) i) eqn:E1;
          [apply jsstring_eqb_eq in E1; congruence|].
        destruct (jsstring_eqb (id x) i) eqn:E2;
          [apply jsstring_eqb_eq in E2; congruence|].
        reflexivity.
      * now rewrite IH.
Qed.

(** C9: a successful [saveMenuItem] read the stored collection and wrote one
    back that a following load returns.  For an id that was not stored, it
    is the prior collection with the item appended.  For an id that was
    stored, it is the prior collection with the first entry of that id
    replaced by the item: same length, the item found under its id, every
    other id found as before.  A failed save leaves the storage as it was. *)
Theorem saveMenuItem_then_load (item : MenuItem) (st st' : Storage) :
  saveMenuItem item st = inr st' ->
  exists prior latest,
    loadMenuItems st = inr prior /\
    loadMenuItems st' = inr latest /\
    latest = upsert item prior /\
    (has_id item.(id) prior = false -> latest = prior ++ [item]) /\
    (has_id item.(id) prior = true ->
       List.length latest = List.length prior /\
       (exists before old after,
          prior = before ++ old :: after /\ old.(id) = item.(id) /\
          has_id item.(id) before = false /\
          latest = before ++ item :: after)) /\
    find_by_id item.(id) latest = Some item /\
    (forall i, i <> item.(id) -> find_by_id i latest = find_by_id i prior).
Proof.
  unfold saveMenuItem, writeMenuItems.
  destruct (loadMenuItems st) as [e|prior] eqn:Hload; [discriminate|].
  destruct (writable st); [|discriminate].
  intros H. injection H as <-.
  exists prior, (upsert item prior). simpl.
  split; [reflexivity|]. split; [reflexivity|]. split; [reflexivity|].
  split; [apply upsert_new|]. split.
  - intros Hid.
    destruct (upsert_existing item prior Hid)
      as (before & old & after & Hp & Ho & Hb & Hu).
    split.
    + rewrite Hu, Hp. rewrite !length_app. reflexivity.
    + now exists before, old, after.
  - apply find_by_id_upsert.
Qed.

Lemma saveMenuItem_then_load_witness :
  exists st', saveMenuItem soup' two_stored = inr st' /\
              loadMenuItems st' = inr [soup'; cake].
Proof.
  eexists. split; [reflexivity|].
  destruct (saveMenuItem_then_load soup' two_stored _ eq_refl)
    as (prior & latest & Hp & Hl & Hu & _).
  injection Hp as <-. rewrite Hl, Hu. reflexivity.
Defined.

(* ================================================================== *)
(** * Properties of handleSave *)
(* ================================================================== *)

(** ** The number of cents of a rounded price *)

Local Open Scope Q_scope.

(** What [roundPrice] computes for a finite value of at most 2^44: zero, for
    a value of at most three quarters of a cent; otherwise the integer
    number of cents [Math.round] gives, of the sign of the value and within
    three quarters of the exact product, divided by 100 with an error of at
    most 1/512. *)
Lemma roundPrice_cents (s : bool) (m : positive) (e : Z) :
  mag m e <= inject_Z (2 ^ 44) ->
  (Math_round (mul (S754_finite s m e) hundred) = S754_zero s /\
   roundPrice (S754_finite s m e) = S754_zero s /\
   100 * mag m e <= 3#4) \/
  exists n mr er,
    (0 < Z.abs n <= 2 ^ 51)%Z /\ (n <? 0)%Z = s /\
    Math_round (mul (S754_finite s m e) hundred)
      = binary_normalize prec emax n 0 s /\
    roundPrice (S754_finite s m e) = S754_finite s mr er /\
    (1#100) * inject_Z (Z.abs n) - (1#512) <= mag mr er /\
    mag mr er <= (1#100) * inject_Z (Z.abs n) + (1#512) /\
    inject_Z (Z.abs n) <= 100 * mag m e + (3#4) /\
    100 * mag m e <= inject_Z (Z.abs n) + (3#4).
Proof.
  intros Hmag.
  change (inject_Z (2 ^ 44)) with (17592186044416 # 1) in Hmag.
  unfold roundPrice.
  destruct (mul_hundred_ok s m e) as [[Hz Hsmall]|(my & ey & Hy & Hey & Hlo & Hhi)].
  { change (inject_Z (2 ^ 45)) with (35184372088832 # 1). lra. }
  { left. rewrite Hz. cbn [Math_round]. rewrite div_zero_hundred.
    split; [reflexivity|]. split; [reflexivity|]. lra. }
  rewrite Hy, (Math_round_finite_neg s my ey Hey).
  destruct (round_half_up_Z_bounds s my ey Hey) as [Hn1 Hn2].
  set (n := round_half_up_Z s my ey) in *.
  rewrite to_Q_finite in Hn1, Hn2.
  pose proof (mag_pos my ey) as Hmy.
  destruct (Z.eq_dec n 0) as [Hn0|Hn0].
  { left. rewrite Hn0 in *. cbn [binary_normalize]. rewrite div_zero_hundred.
    split; [reflexivity|]. split; [reflexivity|].
    change (inject_Z 0) with 0 in *. destruct s; lra. }
  right.
  assert (Hsign : (n <? 0)%Z = s /\ inject_Z (Z.abs n) <= mag my ey + (1#2)
                  /\ mag my ey <= inject_Z (Z.abs n) + (1#2)).
  { destruct s.
    - assert (Hneg : (n < 0)%Z).
      { destruct (Z_lt_le_dec n 0) as [|Hge]; [assumption|exfalso].
        assert (1 <= inject_Z n)
          by (change 1 with (inject_Z 1); rewrite <- Zle_Qle; lia).
        lra. }
      rewrite Z.abs_neq by lia. rewrite inject_Z_opp.
      split; [apply Z.ltb_lt; assumption|]. split; lra.
    - assert (Hpos : (0 < n)%Z).
      { destruct (Z_lt_le_dec 0 n) as [|Hle]; [assumption|exfalso].
        assert (inject_Z n <= -1).
        { change (-1) with (inject_Z (-1)). rewrite <- Zle_Qle. lia. }
        lra. }
      rewrite Z.abs_eq by lia.
      split; [apply Z.ltb_ge; lia|]. split; lra. }
  destruct Hsign as (Hs & Ha1 & Ha2).
  assert (Habs : (0 < Z.abs n <= 2 ^ 51)%Z).
  { split; [lia|]. rewrite Zle_Qle.
    change (inject_Z (2 ^ 51)) with (2251799813685248 # 1). lra. }
  destruct (div_hundred_ok n s Habs) as (mr & er & Hr & Hr1 & Hr2).
  exists n, mr, er. rewrite Hr, Hs.
  split; [assumption|]. split; [reflexivity|]. split; [reflexivity|].
  split; [reflexivity|]. split; [assumption|]. split; [assumption|].
  split; lra.
Qed.

(** The price [handleSave] stores for a text whose value is finite and at
    most 2^44: a number of cents. *)
Lemma parsePrice_cents (s : jsstring) :
  is_finite (parseFloat s) = true ->
  Qabs (to_Q (parseFloat s)) <= inject_Z (2 ^ 44) ->
  gt (parsePrice s) zero = true ->
  is_finite (parsePrice s) = true /\
  Qabs (to_Q (parsePrice s) - to_Q (parseFloat s)) < 1#100 /\
  exists cents,
    (0 < cents)%Z /\
    Math_round (mul (parseFloat s) hundred) = of_Z cents /\
    parsePrice s = div (of_Z cents) hundred /\
    Qabs (inject_Z cents - 100 * to_Q (parseFloat s)) <= 3#4.
Proof.
  intros Hfin Hb Hgt. unfold parsePrice in *. cbv zeta in *.
  destruct (isNaN (parseFloat s) || lt (parseFloat s) zero) eqn:Hguard;
    [discriminate|].
  apply orb_false_elim in Hguard as [_ Hlt].
  destruct (parseFloat s) as [sg|sg| |sg m e]; try discriminate.
  destruct sg; [discriminate|].
  rewrite Qabs_to_Q_finite in Hb.
  pose proof (mag_pos m e) as Hm.
  destruct (roundPrice_cents false m e Hb)
    as [(_ & Hz & _)|(n & mr & er & Hn & Hs & HM & Hr & H1 & H2 & H3 & H4)].
  { rewrite Hz in Hgt. discriminate. }
  apply Z.ltb_ge in Hs.
  rewrite Z.abs_eq in * by assumption.
  split; [now rewrite Hr|]. split.
  - rewrite Hr, !to_Q_finite. apply Qabs_case; intros _; lra.
  - exists n. split; [lia|]. split; [exact HM|]. split.
    + unfold roundPrice. now rewrite HM.
    + rewrite to_Q_finite. apply Qabs_case; intros _; lra.
Qed.

Local Close Scope Q_scope.

(** ** What is saved *)

(** C7, as stated, fails: for the price text "Infinity" (as for "1e999")
    [handleSave] passes an item to [saveMenuItem] whose price is Infinity,
    which is not a finite amount, let alone one rounded to the cent. *)
Lemma handleSave_saves_infinity :
  let st := {| payload := Absent; writable := true |} in
  let effects := fst (handleSave infinity_form 1700000000000 st) in
  exists item,
    saved_items effects = [item] /\
    item.(price) = Some Infinity /\
    is_finite Infinity = false /\
    parsePrice (lit "1e999") = Infinity /\
    loadMenuItems (snd (handleSave infinity_form 1700000000000 st))
      = inr [item].
Proof.
  eexists. vm_compute. repeat split.
Qed.

(** C7 (amended): every item [handleSave] passes to [saveMenuItem] comes
    from a form whose trimmed name is not empty and whose parsed price
    passes [isValidPrice] and is above 0; its name is that trimmed name
    (trimming it again changes nothing), its category is the selected one,
    one of the four, and its price is [parsePrice] of the input, which is
    [roundPrice] of the parsed text and not below 0.  At most one item is
    passed.  The price is rounded to the cent when the text parses to a
    finite value of at most 2^44: it is then finite, the quotient by 100 of
    the positive integer number of cents [Math.round] gives, which is within
    three quarters of a cent of the parsed value, less than a cent from the
    parsed value, and left as it is by [roundPrice]. *)
Theorem handleSave_saves_only_valid (f : Form) (now : Z) (st : Storage)
    (item : MenuItem) :
  In item (saved_items (fst (handleSave f now st))) ->
  let priceNumber := parsePrice f.(form_price) in
  let parsed := parseFloat f.(form_price) in
  trim f.(form_name) <> [] /\
  isValidPrice (Some priceNumber) = true /\
  gt priceNumber zero = true /\
  item.(name) = trim f.(form_name) /\
  trim item.(name) = item.(name) /\
  item.(name) <> [] /\
  item.(category) = f.(form_category) /\
  In item.(category) [appetizers; mains; desserts; beverages] /\
  item.(price) = Some priceNumber /\
  priceNumber = roundPrice parsed /\
  ge priceNumber zero = true /\
  saved_items (fst (handleSave f now st)) = [item] /\
  (is_finite parsed = true ->
   (Qabs (to_Q parsed) <= inject_Z (2 ^ 44))%Q ->
   is_finite priceNumber = true /\
   (Qabs (to_Q priceNumber - to_Q parsed) < 1#100)%Q /\
   roundPrice priceNumber = priceNumber /\
   exists cents,
     0 < cents /\
     Math_round (mul parsed hundred) = of_Z cents /\
     priceNumber = div (of_Z cents) hundred /\
     (Qabs (inject_Z cents - 100 * to_Q parsed) <= 3#4)%Q).
Proof.
  unfold handleSave.
  destruct (nonempty (trim (form_name f))) eqn:Hname; cbn [negb orb];
    [|simpl; intros []].
  destruct (nonempty (trim (form_price f))) eqn:Hprice; cbn [negb orb];
    [|simpl; intros []].
  destruct (isValidPrice (Some (parsePrice (form_price f)))) eqn:Hvalid;
    cbn [negb orb]; [|simpl; intros []].
  destruct (le (parsePrice (form_price f)) zero) eqn:Hle;
    [simpl; intros []|].
  set (menuItem := {| id := _; name := _; description := _; price := _;
                      category := _ |}).
  match goal with
  | |- In item (saved_items ?e) -> _ =>
      assert (Hsaved : saved_items e = [menuItem])
        by (destruct (saveMenuItem menuItem st); reflexivity)
  end.
  rewrite Hsaved. intros [<-|[]]. subst menuItem. cbn [name price category].
  apply nonempty_true in Hname.
  pose proof (positive_of_tests _ Hvalid Hle) as Hgt.
  destruct (nonneg_tests _ (parsePrice_nonneg (form_price f)))
    as (_ & _ & Hge).
  assert (Hround : parsePrice (form_price f)
                   = roundPrice (parseFloat (form_price f))).
  { (* a price above zero did not come from the fallback *)
    clear - Hgt. unfold parsePrice in *.
    destruct (isNaN (parseFloat (form_price f))
              || lt (parseFloat (form_price f)) zero);
      [discriminate | reflexivity]. }
  split; [assumption|]. split; [reflexivity|]. split; [assumption|].
  split; [reflexivity|]. split; [apply trim_idem|]. split; [assumption|].
  split; [reflexivity|].
  split; [destruct (form_category f); simpl; auto|].
  split; [reflexivity|]. split; [assumption|]. split; [assumption|].
  split; [reflexivity|].
  intros Hfin Hb.
  destruct (parsePrice_cents (form_price f) Hfin Hb Hgt) as (H1 & H2 & H3).
  split; [assumption|]. split; [assumption|]. split; [|assumption].
  rewrite Hround. now apply roundPrice_fixpoint_bounded.
Qed.

(** The burger typed at 89.999 is saved at 90, which is 9000 cents. *)
Lemma handleSave_saves_only_valid_witness :
  exists item,
    saved_items (fst (handleSave burger_form 1700000000000
                        {| payload := Absent; writable := true |})) = [item] /\
    item.(name) = lit "Burger" /\
    item.(price) = Some (parseFloat (lit "90")) /\
    Math_round (mul (parseFloat (lit "89.999")) hundred) = of_Z 9000 /\
    roundPrice (parseFloat (lit "90")) = parseFloat (lit "90").
Proof.
  eexists. split; [reflexivity|].
  destruct (handleSave_saves_only_valid burger_form 1700000000000
              {| payload := Absent; writable := true |} _
              (or_introl eq_refl))
    as (_ & _ & _ & Hn & _ & _ & _ & _ & Hp & _ & _ & _ & Hc).
  destruct (Hc eq_refl ltac:(vm_compute; discriminate))
    as (_ & _ & Hfix & _).
  split; [rewrite Hn; reflexivity|]. split; [rewrite Hp; reflexivity|].
  split; [vm_compute; reflexivity | exact Hfix].
Defined.

(* ================================================================== *)
(** * The order of the keys *)
(* ================================================================== *)

Lemma mem_In (c : MenuCategory) (cs : list MenuCategory) :
  mem c cs = true <-> In c cs.
Proof.
  unfold mem. rewrite existsb_exists. split.
  - intros (x & Hx & E). destruct (category_eqb_spec c x); congruence.
  - intros H. exists c. split; [assumption | apply category_eqb_refl].
Qed.

Lemma mem_get {V} (c : MenuCategory) (o : Obj.t V) :
  mem c (Obj.keys o) = match Obj.get c o with Some _ => true | None => false end.
Proof.
  induction o as [|[k v] o IH]; simpl; auto.
  rewrite (category_eqb_sym c k).
  destruct (category_eqb k c); simpl; auto.
Qed.

Lemma keys_set_add_key {V} (k : MenuCategory) (v : V) (o : Obj.t V) :
  Obj.keys (Obj.set k v o) = add_key (Obj.keys o) k.
Proof.
  rewrite ObjFacts.keys_set. unfold add_key. rewrite mem_get.
  now destruct (Obj.get k o).
Qed.

Lemma add_key_idem (ks : list MenuCategory) (k : MenuCategory) :
  add_key (add_key ks k) k = add_key ks k.
Proof.
  unfold add_key. destruct (mem k ks) eqn:E.
  - now rewrite E.
  - replace (mem k (ks ++ [k])) with true; [reflexivity|].
    symmetry. apply mem_In, in_or_app. right. now left.
Qed.

Lemma keys_accumulate (T : Obj.t Totals) (item : MenuItem) :
  Obj.keys (accumulate T item) = add_key (Obj.keys T) item.(category).
Proof.
  unfold accumulate.
  destruct (Obj.get (category item) T) as [t|] eqn:Hget.
  - rewrite Hget. apply keys_set_add_key.
  - rewrite ObjFacts.get_set_same, !keys_set_add_key. apply add_key_idem.
Qed.

Lemma keys_average (A : Obj.t number) (entry : MenuCategory * Totals) :
  Obj.keys (average A entry) = add_key (Obj.keys A) (fst entry).
Proof. destruct entry as [k [s n]]. apply keys_set_add_key. Qed.

Lemma filter_present (c : MenuCategory) (ks l : list MenuCategory) :
  mem c ks = true ->
  filter (fun d => negb (mem d ks))
    (filter (fun d => negb (category_eqb d c)) l)
  = filter (fun d => negb (mem d ks)) l.
Proof.
  intros E. induction l as [|d l IHl]; simpl; auto.
  destruct (category_eqb_spec d c) as [->|Hne]; simpl.
  - rewrite E. simpl. exact IHl.
  - destruct (mem d ks); simpl; now rewrite IHl.
Qed.

Lemma filter_absent (c : MenuCategory) (ks l : list MenuCategory) :
  filter (fun d => negb (mem d (ks ++ [c]))) l
  = filter (fun d => negb (mem d ks))
      (filter (fun d => negb (category_eqb d c)) l).
Proof.
  induction l as [|d l IHl]; simpl; auto.
  unfold mem at 1. rewrite existsb_app. fold (mem d ks). simpl.
  rewrite orb_false_r.
  destruct (category_eqb d c); simpl.
  - rewrite orb_true_r. simpl. exact IHl.
  - rewrite orb_false_r. destruct (mem d ks); simpl; now rewrite IHl.
Qed.

(** Adding keys one after the other keeps the ones there were and appends
    the new ones where they are first met. *)
Lemma fold_add_key (cs : list MenuCategory) :
  forall ks,
    fold_left add_key cs ks =
    ks ++ filter (fun c => negb (mem c ks)) (first_seen cs).
Proof.
  induction cs as [|c cs IH]; intros ks; simpl.
  - now rewrite app_nil_r.
  - rewrite IH. unfold add_key. destruct (mem c ks) eqn:E; simpl.
    + now rewrite filter_present.
    + rewrite <- app_assoc. simpl. now rewrite filter_absent.
Qed.

Lemma keys_fold_accumulate (items : list MenuItem) :
  forall T,
    Obj.keys (fold_left accumulate items T) =
    fold_left add_key (map category items) (Obj.keys T).
Proof.
  induction items as [|item items IH]; intros T; simpl; auto.
  now rewrite IH, keys_accumulate.
Qed.

Lemma keys_fold_average_add (T : Obj.t Totals) :
  forall A,
    Obj.keys (fold_left average T A) =
    fold_left add_key (Obj.keys T) (Obj.keys A).
Proof.
  induction T as [|entry T IH]; intros A; simpl; auto.
  now rewrite IH, keys_average.
Qed.

Lemma first_seen_NoDup (cs : list MenuCategory) :
  NoDup cs -> first_seen cs = cs.
Proof.
  induction 1 as [|c cs Hnotin Hnd IH]; simpl; auto.
  rewrite IH. f_equal.
  rewrite forallb_filter_id; [reflexivity|].
  apply forallb_forall. intros d Hd.
  destruct (category_eqb_spec d c) as [->|]; [contradiction | reflexivity].
Qed.

Lemma filter_all {A} (l : list A) : filter (fun _ => true) l = l.
Proof. induction l; simpl; congruence. Qed.

Lemma keys_averages_totals (items : list MenuItem) :
  Obj.keys (calculateAveragePriceByCourse items)
  = Obj.keys (fold_left accumulate items Obj.empty).
Proof.
  unfold calculateAveragePriceByCourse.
  rewrite keys_fold_average_add, fold_add_key. simpl.
  rewrite filter_all. apply first_seen_NoDup.
  apply NoDup_keys_fold_accumulate. constructor.
Qed.

Lemma averages_keys (items : list MenuItem) :
  Obj.keys (calculateAveragePriceByCourse items)
  = first_seen (map category items).
Proof.
  rewrite keys_averages_totals, keys_fold_accumulate, fold_add_key. simpl.
  apply filter_all.
Qed.

(** X1: The averages object lists the categories in the order in which the
    items first mention them, so more items at the end of the input leave the
    keys there were in place and add the new categories after them. *)
Theorem averages_key_order (items : list MenuItem) :
  Obj.keys (calculateAveragePriceByCourse items)
    = first_seen (map category items) /\
  forall more,
    Obj.keys (calculateAveragePriceByCourse (items ++ more))
    = Obj.keys (calculateAveragePriceByCourse items)
      ++ filter (fun c => negb (mem c (map category items)))
           (first_seen (map category more)).
Proof.
  split; [apply averages_keys|]. intros more.
  rewrite !keys_averages_totals, fold_left_app.
  rewrite keys_fold_accumulate, fold_add_key. f_equal.
  apply filter_ext. intros c. f_equal.
  apply eq_true_iff_eq. rewrite !mem_In.
  rewrite <- keys_averages_totals, averages_keys.
  generalize (map category items) as cs. clear.
  induction cs as [|d cs IH]; simpl; [tauto|].
  rewrite filter_In, IH.
  destruct (category_eqb_spec c d) as [->|Hne]; simpl.
  - split; auto.
  - split.
    + intros [E|[H _]]; [congruence | auto].
    + intros [E|H]; [congruence | auto].
Qed.

(* ================================================================== *)
(** * FilterScreen *)
(* ================================================================== *)

(** The for loop appends the items of the course in order. *)
Lemma course_loop_filter (c : MenuCategory) (results : list MenuItem) :
  forall courseFiltered,
    course_loop c results courseFiltered = courseFiltered ++ items_of c results.
Proof.
  induction results as [|item results IH]; intros acc; simpl.
  - now rewrite app_nil_r.
  - rewrite IH. destruct (category_eqb (category item) c); auto.
    now rewrite <- app_assoc.
Qed.

Lemma count_loop_length (c : MenuCategory) (menuItems : list MenuItem) :
  forall count,
    count_loop c menuItems count
    = (count + List.length (items_of c menuItems))%nat.
Proof.
  induction menuItems as [|item l IH]; intros n; simpl; [lia|].
  rewrite IH. destruct (category_eqb (category item) c); simpl; lia.
Qed.

Lemma nth_app_new {A} (l : list A) (a d : A) (k : nat) :
  k = List.length l -> nth k (l ++ [a]) d = a.
Proof. intros ->. rewrite app_nth2 by lia. now rewrite Nat.sub_diag. Qed.

Lemma nth_app_old {A} (l : list A) (a d : A) (k : nat) :
  (k < List.length l)%nat -> nth k (l ++ [a]) d = nth k l d.
Proof. intros H. now apply app_nth1. Qed.

Lemma filter_twice {A} (f g : A -> bool) (l : list A) :
  filter g (filter f l) = filter (fun x => f x && g x) l.
Proof.
  induction l as [|x l IH]; simpl; auto.
  destruct (f x); simpl; [destruct (g x)|]; now rewrite IH.
Qed.

Lemma filter_shorter {A} (f : A -> bool) (l : list A) :
  (List.length (filter f l) <= List.length l)%nat.
Proof. induction l as [|x l IH]; simpl; [lia|]. destruct (f x); simpl; lia. Qed.

(** The array [applyFilters] sets the filtered list to. *)
Lemma applyFilters_filtered (toLowerCase : jsstring -> jsstring)
    (h : Heap) (filterChangeCount : nat) (st : FilterState) :
  let '(h', _, st') := applyFilters toLowerCase h filterChangeCount st in
  deref h' st'.(fs_filteredItems)
  = filter (fun item =>
              match st.(selectedCourse) with
              | Some c => category_eqb item.(category) c
              | None => true
              end
              && match trim st.(searchQuery) with
                 | [] => true
                 | _ => matches toLowerCase
                          (trim (toLowerCase st.(searchQuery))) item
                 end)
      (deref h st.(fs_menuItems)).
Proof.
  unfold applyFilters, searchMenuItems, alloc, deref.
  destruct st as [mi fi course q]. cbn [fs_menuItems selectedCourse searchQuery].
  set (all := nth mi h []).
  destruct course as [c|]; destruct (trim q) as [|ch t] eqn:Eq;
    cbn [nonempty negb fs_filteredItems];
    rewrite ?search_loop_filter, ?course_loop_filter; cbn [app];
    repeat (rewrite nth_app_new by (rewrite ?length_app; simpl; lia));
    repeat (rewrite nth_app_old by (rewrite ?length_app; simpl; lia));
    repeat (rewrite nth_app_new by (rewrite ?length_app; simpl; lia));
    fold all; try reflexivity.
  - unfold items_of. apply filter_ext. intros a. now rewrite andb_true_r.
  - unfold items_of. apply filter_twice.
  - symmetry. apply filter_all.
Qed.

(** X2: [applyFilters] counts the call, leaves every array it found as it was,
    the one with all items among them, and sets the filtered list to a new
    array: the items of the selected course, if one is selected, that match
    the search text, if it is not blank, in their original order. *)
Theorem applyFilters_spec (toLowerCase : jsstring -> jsstring)
    (h : Heap) (filterChangeCount : nat) (st : FilterState) :
  let '(h', filterChangeCount', st') :=
    applyFilters toLowerCase h filterChangeCount st in
  let in_course item :=
    match st.(selectedCourse) with
    | Some c => category_eqb item.(category) c
    | None => true
    end in
  let found item :=
    match trim st.(searchQuery) with
    | [] => true
    | _ => matches toLowerCase (trim (toLowerCase st.(searchQuery))) item
    end in
  filterChangeCount' = S filterChangeCount /\
  deref h' st'.(fs_filteredItems)
    = filter (fun item => in_course item && found item)
        (deref h st.(fs_menuItems)) /\
  (forall r, (r < List.length h)%nat -> deref h' r = deref h r) /\
  (List.length h <= st'.(fs_filteredItems))%nat /\
  st'.(fs_menuItems) = st.(fs_menuItems) /\
  st'.(selectedCourse) = st.(selectedCourse) /\
  st'.(searchQuery) = st.(searchQuery).
Proof.
  pose proof (applyFilters_filtered toLowerCase h filterChangeCount st) as Hf.
  revert Hf. unfold applyFilters, searchMenuItems, alloc, deref.
  destruct st as [mi fi course q]. cbn [fs_menuItems selectedCourse searchQuery].
  destruct course as [c|]; destruct (trim q) as [|ch t] eqn:Eq;
    cbn [nonempty negb fs_filteredItems fs_menuItems selectedCourse searchQuery];
    intros Hf; (split; [reflexivity|]); (split; [exact Hf|]);
    (split; [|split; [|repeat split]]);
    rewrite ?length_app; cbn [List.length]; try lia;
    intros r Hr;
    repeat (rewrite nth_app_old by (rewrite ?length_app; simpl; lia));
    reflexivity.
Qed.

(** A search for "BURGER" over every course: the fifth call is counted, the
    burger is shown and the array of all items is as it was. *)
Lemma applyFilters_spec_witness :
  let '(h', n', st') :=
    applyFilters basic_latin_toLowerCase [burger_menu; []] 4%nat burger_search in
  n' = 5%nat /\
  deref h' st'.(fs_filteredItems) = [mk_item "burger" mains None]%string /\
  deref h' 0%nat = burger_menu.
Proof.
  pose proof (applyFilters_spec basic_latin_toLowerCase [burger_menu; []]
                4%nat burger_search) as H.
  destruct (applyFilters basic_latin_toLowerCase [burger_menu; []] 4%nat
              burger_search) as [[h' n'] st'].
  cbv zeta in H. destruct H as (Hn & Hf & Hold & _).
  split; [exact Hn|]. split.
  - rewrite Hf. vm_compute. reflexivity.
  - apply Hold. simpl. lia.
Defined.

Lemma items_of_partition (items : list MenuItem) :
  (List.length (items_of appetizers items) + List.length (items_of mains items)
   + List.length (items_of desserts items)
   + List.length (items_of beverages items))%nat
  = List.length items.
Proof.
  induction items as [|item l IH]; simpl; auto.
  destruct (category item); simpl; lia.
Qed.

(** X3: The count [getItemCountByCourse] gives for a course is the number of
    items of that course; the counts of the four courses add up to the count
    for ['all'], the number of all items. *)
Theorem getItemCountByCourse_partition (h : Heap) (st : FilterState) :
  (forall c,
     getItemCountByCourse h st (Some c)
     = List.length (items_of c (deref h st.(fs_menuItems)))) /\
  (getItemCountByCourse h st (Some appetizers)
   + getItemCountByCourse h st (Some mains)
   + getItemCountByCourse h st (Some desserts)
   + getItemCountByCourse h st (Some beverages))%nat
  = getItemCountByCourse h st None.
Proof.
  unfold getItemCountByCourse.
  split; [intros c; now rewrite count_loop_length|].
  rewrite !count_loop_length. simpl. apply items_of_partition.
Qed.

(** X4: The list [applyFilters] sets is never longer than the count shown for
    the selected course, and with a blank search text it is exactly as long. *)
Theorem filtered_within_course_count (toLowerCase : jsstring -> jsstring)
    (h : Heap) (filterChangeCount : nat) (st : FilterState) :
  let '(h', _, st') := applyFilters toLowerCase h filterChangeCount st in
  (List.length (deref h' st'.(fs_filteredItems))
   <= getItemCountByCourse h st st.(selectedCourse))%nat /\
  (trim st.(searchQuery) = [] ->
   List.length (deref h' st'.(fs_filteredItems))
   = getItemCountByCourse h st st.(selectedCourse)).
Proof.
  pose proof (applyFilters_filtered toLowerCase h filterChangeCount st) as H.
  destruct (applyFilters toLowerCase h filterChangeCount st) as [[h' n'] st'].
  rewrite H.
  unfold getItemCountByCourse.
  destruct (selectedCourse st) as [c|].
  - rewrite count_loop_length. simpl. unfold items_of.
    rewrite <- filter_twice. split; [apply filter_shorter|].
    intros ->. now rewrite filter_all.
  - simpl. split; [apply filter_shorter|].
    intros ->. now rewrite filter_all.
Qed.

(** One main course on the menu, no search text: one item is shown. *)
Lemma filtered_within_course_count_witness :
  let '(h', _, st') :=
    applyFilters basic_latin_toLowerCase [burger_menu; []] 0%nat mains_filter in
  List.length (deref h' st'.(fs_filteredItems)) = 1%nat.
Proof.
  pose proof (filtered_within_course_count basic_latin_toLowerCase
                [burger_menu; []] 0%nat mains_filter) as H.
  destruct (applyFilters basic_latin_toLowerCase [burger_menu; []] 0%nat
              mains_filter) as [[h' n'] st'].
  destruct H as [_ H]. rewrite H; reflexivity.
Defined.

(* ================================================================== *)
(** * MenuScreen *)
(* ================================================================== *)

Lemma category_key_eqb (a b : MenuCategory) :
  jsstring_eqb (category_key a) (category_key b) = category_eqb a b.
Proof. destruct a, b; reflexivity. Qed.

Lemma category_key_not_all (c : MenuCategory) :
  jsstring_eqb (category_key c) (lit "all") = false.
Proof. destruct c; reflexivity. Qed.

(** The array [filterItems] sets the filtered list to, for a selection that
    is ['all'] or a category. *)
Lemma filterItems_filtered (w : MenuWorld) (course : option MenuCategory) :
  w.(mw_state).(selectedCategory) = course_key course ->
  let w' := filterItems w in
  deref w'.(mw_heap) w'.(mw_state).(ms_filteredItems)
  = match course with
    | None => deref w.(mw_heap) w.(mw_state).(ms_menuItems)
    | Some c => items_of c (deref w.(mw_heap) w.(mw_state).(ms_menuItems))
    end.
Proof.
  intros Hsel. unfold filterItems. rewrite Hsel.
  destruct course as [c|]; simpl course_key.
  - rewrite category_key_not_all. unfold alloc. cbn.
    unfold deref at 1. rewrite nth_app_new by reflexivity.
    unfold items_of. apply filter_ext. intros item.
    apply category_key_eqb.
  - reflexivity.
Qed.



(** X6: The two screens filter by category alike: on the same items, with the
    same selection and a blank search text, [filterItems] of the menu screen
    and [applyFilters] of the filter screen show the same items. *)
Theorem screens_filter_alike (toLowerCase : jsstring -> jsstring)
    (w : MenuWorld) (h : Heap) (filterChangeCount : nat) (st : FilterState) :
  w.(mw_state).(selectedCategory) = course_key st.(selectedCourse) ->
  deref w.(mw_heap) w.(mw_state).(ms_menuItems) = deref h st.(fs_menuItems) ->
  trim st.(searchQuery) = [] ->
  let w' := filterItems w in
  let '(h', _, st') := applyFilters toLowerCase h filterChangeCount st in
  deref w'.(mw_heap) w'.(mw_state).(ms_filteredItems)
  = deref h' st'.(fs_filteredItems).
Proof.
  intros Hsel Hitems Hblank.
  pose proof (filterItems_filtered w _ Hsel) as Hm.
  pose proof (applyFilters_filtered toLowerCase h filterChangeCount st) as Hf.
  destruct (applyFilters toLowerCase h filterChangeCount st) as [[h' n'] st'].
  cbv zeta in *. rewrite Hm, Hf, Hblank, Hitems.
  destruct (selectedCourse st) as [c|].
  - unfold items_of. apply filter_ext. intros a. now rewrite andb_true_r.
  - symmetry. apply filter_all.
Qed.

(** Main courses selected on both screens over the burger menu. *)
Lemma screens_filter_alike_witness :
  let w' := filterItems (menu_world "mains") in
  let '(h', _, st') :=
    applyFilters basic_latin_toLowerCase [burger_menu; []] 0%nat mains_filter in
  deref w'.(mw_heap) w'.(mw_state).(ms_filteredItems)
  = deref h' st'.(fs_filteredItems).
Proof.
  exact (screens_filter_alike basic_latin_toLowerCase (menu_world "mains")
           [burger_menu; []] 0%nat mains_filter eq_refl eq_refl eq_refl).
Defined.

(* ================================================================== *)
(** * The label tables *)
(* ================================================================== *)

(** X7: The four tables of category labels agree: for every category the label
    of [getCategoryLabels], of the category buttons of the add-item and the
    menu screen and of the course chips of the filter screen is the same
    non-empty string, so the fallback of [categoryLabel] to the bare key is
    never taken. *)
Theorem category_labels_agree (item : MenuItem) :
  let key := category_key item.(category) in
  Obj.get item.(category) getCategoryLabels = Some (categoryLabel item) /\
  find_label AddItemScreen_categories key = Some (categoryLabel item) /\
  find_label MenuScreen_categories key = Some (categoryLabel item) /\
  course_label item = Some (categoryLabel item) /\
  jsstring_eqb (categoryLabel item) key = false /\
  nonempty (categoryLabel item) = true.
Proof.
  unfold categoryLabel, course_label.
  destruct (category item); vm_compute; repeat split.
Qed.

(* ================================================================== *)
(** * loadItems and the analytics card *)
(* ================================================================== *)

Lemma keys_nil_iff {V} (o : Obj.t V) : Obj.keys o = [] <-> o = [].
Proof. destruct o; simpl; split; congruence. Qed.

Lemma first_seen_nil_iff (cs : list MenuCategory) :
  first_seen cs = [] <-> cs = [].
Proof. destruct cs; simpl; split; congruence. Qed.

(** An object with distinct keys, read through its keys. *)
Lemma map_entries {V W} (g : MenuCategory -> option V -> W)
    (f : MenuCategory -> option V) (o : Obj.t V) :
  NoDup (Obj.keys o) ->
  (forall c, In c (Obj.keys o) -> Obj.get c o = f c) ->
  map (fun '(c, v) => g c (Some v)) o = map (fun c => g c (f c)) (Obj.keys o).
Proof.
  induction o as [|[k v] o IH]; intros Hnd Hget; simpl; auto.
  inversion Hnd as [|? ? Hnotin Hnd']; subst.
  rewrite <- (Hget k (or_introl eq_refl)). simpl.
  rewrite category_eqb_refl. f_equal.
  apply IH; [assumption|]. intros c Hc.
  rewrite <- (Hget c (or_intror Hc)). simpl.
  destruct (category_eqb_spec k c) as [->|]; [contradiction | reflexivity].
Qed.

(** The rows of the card for the averages of a collection. *)
Lemma card_rows (ToString : number -> jsstring) (elements : list MenuItem) :
  map (fun '(category, avgPrice) =>
         (match Obj.get category getCategoryLabels with
          | Some label =>
              if nonempty label then label else category_key category
          | None => category_key category
          end, formatPrice ToString (Some avgPrice)))
    (calculateAveragePriceByCourse elements)
  = map (fun c =>
           (match c with
            | appetizers => lit "Appetizers"
            | mains => lit "Main Courses"
            | desserts => lit "Desserts"
            | beverages => lit "Beverages"
            end, formatPrice ToString (category_average c elements)))
      (first_seen (map category elements)).
Proof.
  rewrite <- averages_keys.
  rewrite <- (map_entries
                (fun c v =>
                   (match c with
                    | appetizers => lit "Appetizers"
                    | mains => lit "Main Courses"
                    | desserts => lit "Desserts"
                    | beverages => lit "Beverages"
                    end, formatPrice ToString v))
                (fun c => category_average c elements)).
  - apply map_ext. intros [c v]. f_equal. now destruct c.
  - apply keys_fold_average. constructor.
  - intros c _. apply get_calculateAveragePriceByCourse.
Qed.

(** X8: [loadItems] on a loaded collection alerts nothing, leaves the arrays
    there were as they were and takes three steps.  A render after the last
    step shows the analytics card exactly when the collection is not empty;
    the card then has one row per category that occurs, in the order of
    first occurrence, with the label of the category and the formatted
    average of its items, and shows the number of items and the formatted
    average of the rounded total.  A render between the state updates and
    the update of the statistics cache, which happens when React does not
    batch the updates, shows the same rows but the item count and the
    overall average of the cache as it was before the load.  A render after
    the first step alone shows the card of before the load, if there are
    items. *)
Theorem loadItems_then_card (ToString : number -> jsstring)
    (elements : list MenuItem) (now : Z) (w : MenuWorld) :
  let '(effects, worlds) := loadItems (inr elements) now w in
  let rows_of_elements :=
    map (fun c =>
           (match c with
            | appetizers => lit "Appetizers"
            | mains => lit "Main Courses"
            | desserts => lit "Desserts"
            | beverages => lit "Beverages"
            end,
            formatPrice ToString (category_average c elements)))
      (first_seen (map category elements)) in
  effects = [] /\
  exists set_items set_averages updated,
    worlds = [set_items; set_averages; updated] /\
    (forall w', In w' worlds ->
       deref w'.(mw_heap) w'.(mw_state).(ms_menuItems) = elements /\
       forall r, (r < List.length w.(mw_heap))%nat ->
                 deref w'.(mw_heap) r = deref w.(mw_heap) r) /\
    (listHeader ToString updated = None <-> elements = []) /\
    (forall card, listHeader ToString updated = Some card ->
       card.(rows) = rows_of_elements /\
       card.(totalItems) = List.length elements /\
       card.(overallAverage)
         = formatPrice ToString
             (Some (roundPrice (div (roundPrice (total_value elements))
                                  (of_nat (List.length elements)))))) /\
    (listHeader ToString set_averages = None <-> elements = []) /\
    (forall card, listHeader ToString set_averages = Some card ->
       card.(rows) = rows_of_elements /\
       card.(totalItems) = w.(mw_cache).(totalMenuItems) /\
       card.(overallAverage)
         = formatPrice ToString
             (Some (fst (getGlobalStatistics w.(mw_cache)))
                     .(stat_averageItemPrice))) /\
    listHeader ToString set_items
      = match elements with
        | [] => None
        | _ => renderAveragePricesCard ToString w
        end.
Proof.
  unfold loadItems, alloc. cbv zeta. cbn [mw_heap mw_state ms_menuItems].
  assert (Hd : deref (mw_heap w ++ [elements]) (List.length (mw_heap w))
               = elements)
    by (unfold deref; now apply nth_app_new).
  rewrite Hd.
  split; [reflexivity|]. do 3 eexists. split; [reflexivity|].
  split.
  { intros w' [<-|[<-|[<-|[]]]]; cbn [mw_heap mw_state ms_menuItems];
      (split; [exact Hd|]); intros r Hr; unfold deref; now apply app_nth1. }
  unfold listHeader, renderAveragePricesCard.
  cbn [mw_heap mw_state mw_cache ms_menuItems averagePrices]. rewrite Hd.
  pose proof (averages_keys elements) as Hkeys.
  pose proof (card_rows ToString elements) as Hrows.
  destruct elements as [|item items].
  - repeat split; discriminate.
  - cbn [List.length Nat.ltb Nat.leb].
    destruct (Obj.keys (calculateAveragePriceByCourse (item :: items)))
      as [|k ks]; [discriminate|].
    split; [split; discriminate|]. split.
    { intros card H. injection H as <-.
      cbn [rows totalItems overallAverage].
      split; [exact Hrows | split; reflexivity]. }
    split; [split; discriminate|]. split; [|reflexivity].
    intros card H. injection H as <-.
    cbn [rows totalItems overallAverage].
    split; [exact Hrows | split; reflexivity].
Qed.

(** Two starters at 10 and unpriced and a dessert at 4, loaded into the
    screen as it starts: after the last step the card has two rows and
    counts three items; before the cache is updated it has the two rows and
    counts none. *)
Lemma loadItems_then_card_witness :
  exists set_items set_averages updated stale card,
    snd (loadItems (inr menu_with_unpriced) 7 (menu_world "all"))
      = [set_items; set_averages; updated] /\
    listHeader (fun _ => []) updated = Some card /\
    card.(rows)
      = [(lit "Appetizers", lit "R5.00"); (lit "Desserts", lit "R4.00")] /\
    card.(totalItems) = 3%nat /\
    listHeader (fun _ => []) set_averages = Some stale /\
    stale.(rows) = card.(rows) /\
    stale.(totalItems) = 0%nat /\
    stale.(overallAverage) = lit "R0.00".
Proof.
  pose proof (loadItems_then_card (fun _ => []) menu_with_unpriced 7
                (menu_world "all")) as H.
  destruct (loadItems (inr menu_with_unpriced) 7 (menu_world "all"))
    as [effects worlds] eqn:E.
  cbv zeta in H.
  destruct H as (_ & w1 & w2 & w3 & Hw & _ & _ & Hcard & _ & Hstale & _).
  injection E as _ E. rewrite Hw in E. injection E as E1 E2 E3.
  exists w1, w2, w3. subst w1 w2 w3. do 2 eexists.
  split; [exact Hw|].
  split; [vm_compute; reflexivity|].
  destruct (Hcard _ ltac:(vm_compute; reflexivity)) as (Hr & Ht & _).
  destruct (Hstale _ ltac:(vm_compute; reflexivity)) as (Hr' & Ht' & Ho').
  split; [rewrite Hr; vm_compute; reflexivity|].
  split; [exact Ht|].
  split; [vm_compute; reflexivity|].
  split; [rewrite Hr, Hr'; reflexivity|].
  split; [exact Ht'|].
  rewrite Ho'. vm_compute. reflexivity.
Defined.

(* ================================================================== *)
(** * The outcomes of handleSave *)
(* ================================================================== *)

Lemma isValidPrice_parsePrice (s : jsstring) :
  isValidPrice (Some (parsePrice s)) = true.
Proof.
  destruct (nonneg_tests _ (parsePrice_nonneg s)) as (H1 & _ & H3).
  simpl. now rewrite H1, H3.
Qed.

(** A value that is not NaN and not below zero is [<= 0] only as a zero. *)
Lemma le_zero_nonneg (p : number) :
  nonneg p = true -> le p zero = negb (truthy p).
Proof. destruct p as [[]|[]| |[] m e]; simpl; intros H; try discriminate; auto. Qed.

(** X9: Every call of [handleSave] alerts exactly once. A blank name or price
    gives the validation alert; otherwise a price text that [parsePrice] turns
    into zero gives the invalid-price alert; in both cases nothing is saved.
    Otherwise exactly one item is passed to [saveMenuItem], under the id being
    edited or else the clock reading in decimal, and the alert tells whether
    saving succeeded. The test [isValidPrice] never decides: the result of
    [parsePrice] always passes it. *)
Theorem handleSave_outcome (f : Form) (now : Z) (st : Storage) :
  let '(effects, st') := handleSave f now st in
  let priceNumber := parsePrice f.(form_price) in
  isValidPrice (Some priceNumber) = true /\
  exists title message,
    alerts effects = [(title, message)] /\
    (((trim f.(form_name) = [] \/ trim f.(form_price) = []) /\
      title = lit "Validation Error" /\ saved_items effects = [] /\ st' = st)
     \/
     (nonempty (trim f.(form_name)) = true /\
      nonempty (trim f.(form_price)) = true /\
      truthy priceNumber = false /\
      title = lit "Invalid Price" /\ saved_items effects = [] /\ st' = st)
     \/
     (nonempty (trim f.(form_name)) = true /\
      nonempty (trim f.(form_price)) = true /\
      truthy priceNumber = true /\
      exists item,
        saved_items effects = [item] /\
        item.(id) = match f.(editing) with
                    | Some editingId => editingId
                    | None => now_toString now
                    end /\
        (saveMenuItem item st = inr st' /\ title = lit "Success"
         \/ (exists e, saveMenuItem item st = inl e) /\ title = lit "Error"))).
Proof.
  unfold handleSave.
  pose proof (isValidPrice_parsePrice (form_price f)) as Hvalid.
  pose proof (le_zero_nonneg _ (parsePrice_nonneg (form_price f))) as Hle.
  destruct (nonempty (trim (form_name f))) eqn:Hname; cbn [negb orb].
  2:{ split; [assumption|]. do 2 eexists. split; [reflexivity|]. left.
      destruct (trim (form_name f)); [|discriminate]. repeat split. now left. }
  destruct (nonempty (trim (form_price f))) eqn:Hprice; cbn [negb orb].
  2:{ split; [assumption|]. do 2 eexists. split; [reflexivity|]. left.
      destruct (trim (form_price f)); [|discriminate]. repeat split. now right. }
  rewrite Hvalid, Hle. cbn [negb orb].
  destruct (truthy (parsePrice (form_price f))) eqn:Ht; cbn [negb].
  - set (menuItem := {| id := _; name := _; description := _; price := _;
                        category := _ |}).
    destruct (saveMenuItem menuItem st) as [e|st'] eqn:Hsave;
      (split; [reflexivity|]); do 2 eexists; (split; [reflexivity|]);
      right; right; (split; [reflexivity|]); (split; [reflexivity|]);
      (split; [reflexivity|]); exists menuItem;
      (split; [reflexivity|]); (split; [reflexivity|]).
    + right. split; [now exists e | reflexivity].
    + left. split; [exact Hsave | reflexivity].
  - split; [reflexivity|]. do 2 eexists. split; [reflexivity|].
    right; left. repeat split.
Qed.

Local Open Scope Q_scope.

(** X10: Within 2^44 in magnitude, [roundPrice] returns a finite number less
    than a cent away from its argument, and of the same sign or zero. *)
Theorem roundPrice_within_a_cent (x : number) :
  is_finite x = true ->
  Qabs (to_Q x) <= inject_Z (2 ^ 44) ->
  is_finite (roundPrice x) = true /\
  Qabs (to_Q (roundPrice x) - to_Q x) < 1#100 /\
  0 <= to_Q (roundPrice x) * to_Q x.
Proof.
  intros Hfin Hb.
  destruct x as [s|s| |s m e]; try discriminate.
  - rewrite roundPrice_zero. split; [reflexivity|]. cbn [to_Q].
    split; [apply Qabs_case; intros _; lra | lra].
  - rewrite Qabs_to_Q_finite in Hb.
    pose proof (mag_pos m e) as Hm.
    destruct (roundPrice_cents s m e Hb)
      as [(_ & -> & Hsmall)|(n & mr & er & Hn & Hs & _ & -> & H1 & H2 & H3 & H4)].
    + split; [reflexivity|]. split.
      * rewrite to_Q_finite. change (to_Q (S754_zero s)) with 0.
        apply Qabs_case; intros _; destruct s; lra.
      * change (to_Q (S754_zero s)) with 0. lra.
    + split; [reflexivity|]. pose proof (mag_pos mr er) as Hmr. split.
      * rewrite !to_Q_finite. apply Qabs_case; intros _; destruct s; lra.
      * rewrite !to_Q_finite.
        assert (0 <= mag mr er * mag m e) by (apply Qmult_le_0_compat; lra).
        destruct s; [|assumption].
        setoid_replace (- mag mr er * - mag m e) with (mag mr er * mag m e)
          by ring. assumption.
Qed.

(** 89.999 is rounded to a finite price less than a cent away. *)
Lemma roundPrice_within_a_cent_witness :
  let x := parseFloat (lit "89.999") in
  is_finite (roundPrice x) = true /\
  (Qabs (to_Q (roundPrice x) - to_Q x) < 1#100)%Q.
Proof.
  destruct (roundPrice_within_a_cent (parseFloat (lit "89.999")) eq_refl
              ltac:(vm_compute; discriminate)) as (H1 & H2 & _).
  split; assumption.
Defined.

(** Below 10^21 [toFixed] does not fall back on [ToString]. *)
Lemma at_least_1e21_small (m : positive) (e : Z) :
  mag m e < inject_Z (10 ^ 21) -> at_least_1e21 m e = false.
Proof.
  intros H. unfold at_least_1e21, mag in *.
  destruct (Z.leb_spec 0 e) as [He|He]; apply Z.leb_gt.
  - rewrite pow2_Z, <- inject_Z_mult in H by assumption.
    now rewrite Zlt_Qlt.
  - rewrite Zlt_Qlt, inject_Z_mult, <- pow2_Z by lia.
    pose proof (pow2_pos (- e)) as HP'. pose proof (pow2_cancel e) as HC.
    set (P := pow2 e) in *. set (P' := pow2 (- e)) in *.
    set (K := inject_Z (10 ^ 21)) in *. set (mq := inject_Z (Zpos m)) in *.
    assert (Hprod : 0 < (K - mq * P) * P')
      by (apply Qmult_lt_0_compat; lra).
    assert (E : (K - mq * P) * P' == K * P' - mq * (P * P')) by ring.
    rewrite HC in E. lra.
Qed.

(** [scaled_round] gives the integer within a half of the hundredfold. *)
Lemma scaled_round_unique (m : positive) (e N : Z) :
  inject_Z N - (1#2) <= 100 * mag m e ->
  100 * mag m e < inject_Z N + (1#2) ->
  scaled_round m e = N.
Proof.
  intros Hlo Hhi. unfold scaled_round.
  destruct (Z.leb_spec 0 e) as [He|He].
  - assert (E : 100 * mag m e == inject_Z (100 * Zpos m * 2 ^ e)).
    { unfold mag. rewrite !inject_Z_mult, pow2_Z by assumption.
      change (inject_Z 100) with 100. ring. }
    rewrite E in Hlo, Hhi.
    assert (A : (N < 100 * Zpos m * 2 ^ e + 1)%Z).
    { rewrite Zlt_Qlt, inject_Z_plus. change (inject_Z 1) with 1. lra. }
    assert (B : (100 * Zpos m * 2 ^ e < N + 1)%Z).
    { rewrite Zlt_Qlt, inject_Z_plus. change (inject_Z 1) with 1. lra. }
    lia.
  - change (200 * Zpos m)%Z with (2 * cond_Zopp false (Zpos (100 * m)))%Z.
    apply (round_half_up_Z_unique false (100 * m) e N); [lia| |];
      rewrite to_Q_finite; unfold mag in *;
      rewrite Pos2Z.inj_mul, inject_Z_mult;
      change (inject_Z (Zpos 100)) with 100; lra.
Qed.

Local Close Scope Q_scope.

(** X11: A price that went through [roundPrice] is displayed as the integer
    number of cents [Math.round] gave: for a finite value of at most 2^44 in
    magnitude, [formatPrice] of the rounded price is ["R"], a minus sign for a
    negative number of cents, and the digits of the cents with a point before
    the last two. *)
Theorem formatPrice_roundPrice (ToString : number -> jsstring) (x : number) :
  is_finite x = true ->
  (Qabs (to_Q x) <= inject_Z (2 ^ 44))%Q ->
  let cents := Qfloor (to_Q (Math_round (mul x hundred))) in
  formatPrice ToString (Some (roundPrice x))
  = lit "R" ++ (if cents <? 0 then lit "-" else [])
      ++ fixed2_digits (Z.abs cents).
Proof.
  intros Hfin Hb cents. subst cents.
  destruct x as [s|s| |s m e]; try discriminate.
  - rewrite roundPrice_zero. destruct s; reflexivity.
  - rewrite Qabs_to_Q_finite in Hb.
    destruct (roundPrice_cents s m e Hb)
      as [(-> & -> & _)|(n & mr & er & Hn & Hs & -> & -> & H1 & H2 & _)].
    + reflexivity.
    + destruct (to_Q_binary_normalize n s ltac:(lia)) as [_ HQ].
      rewrite HQ, Qfloor_Z, Hs.
      unfold formatPrice, toFixed2. cbn [isNaN].
      assert (Hq : (inject_Z (Z.abs n) <= 2251799813685248 # 1)%Q).
      { change (2251799813685248 # 1)%Q with (inject_Z (2 ^ 51)).
        rewrite <- Zle_Qle. lia. }
      rewrite at_least_1e21_small.
      2:{ change (inject_Z (10 ^ 21)) with (1000000000000000000000 # 1)%Q.
          lra. }
      rewrite (scaled_round_unique mr er (Z.abs n)) by lra.
      reflexivity.
Qed.

(** -89.999 is rounded to -9000 cents and displayed as such. *)
Lemma formatPrice_roundPrice_witness :
  formatPrice (fun _ => []) (Some (roundPrice (parseFloat (lit "-89.999"))))
  = lit "R-90.00".
Proof.
  rewrite (formatPrice_roundPrice (fun _ => []) (parseFloat (lit "-89.999"))
             eq_refl ltac:(vm_compute; discriminate)).
  vm_compute. reflexivity.
Defined.

(* ================================================================== *)
(** * Sums and averages of prices that are not negative *)
(* ================================================================== *)

Lemma isValidPrice_nonneg (p : number) :
  isValidPrice (Some p) = nonneg p.
Proof. destruct p as [[]|[]| |[] m e]; reflexivity. Qed.

Lemma binary_round_sign (s : bool) (p : positive) (e : Z) :
  has_sign s (binary_round prec emax s p e).
Proof.
  unfold binary_round.
  destruct (shl_align p e (fexp prec emax (Z.pos (digits2_pos p) + e)))
    as [mz ez].
  apply binary_round_aux_sign. lia.
Qed.

(** The sum of two numbers that are not NaN and not below zero is not NaN
    and not below zero. *)
Lemma add_nonneg (x y : number) :
  nonneg x = true -> nonneg y = true -> nonneg (add x y) = true.
Proof.
  intros Hx Hy.
  destruct x as [sx|[]| |[] mx ex]; try discriminate;
    destruct y as [sy|[]| |[] my ey]; try discriminate;
    try reflexivity; try (destruct sx; reflexivity);
    try (destruct sy; reflexivity).
  - destruct sx, sy; reflexivity.
  - unfold add. cbn [SFadd cond_Zopp].
    set (ez := Z.min ex ey).
    set (n := (Zpos (fst (shl_align mx ex ez))
               + Zpos (fst (shl_align my ey ez)))%Z).
    assert (Hn : 0 < n) by (subst n; lia).
    destruct n as [|p|p]; try lia.
    apply nonneg_cases. right. apply binary_round_sign.
Qed.

(** Dividing such a number by a finite number above zero gives such a
    number. *)
Lemma div_nonneg (x : number) (md : positive) (ed : Z) :
  nonneg x = true -> nonneg (div x (S754_finite false md ed)) = true.
Proof.
  intros Hx.
  destruct x as [[]|[]| |[] m e]; try discriminate; try reflexivity.
  unfold div. cbn [SFdiv xorb].
  pose proof (SFdiv_core_binary_ok (Zpos m) e (Zpos md) ed
                ltac:(lia) ltac:(reflexivity)) as Hcore.
  destruct (SFdiv_core_binary prec emax (Zpos m) e (Zpos md) ed)
    as [[q e'] l].
  cbv zeta in Hcore. destruct Hcore as (_ & Hq & _).
  apply nonneg_cases. right. now apply binary_round_aux_sign.
Qed.

Lemma fold_add_nonneg {A} (f : A -> number) (l : list A) :
  (forall x, In x l -> nonneg (f x) = true) ->
  forall acc, nonneg acc = true ->
    nonneg (fold_left (fun acc x => add acc (f x)) l acc) = true.
Proof.
  induction l as [|x l IH]; intros Hl acc Hacc; simpl; auto.
  apply IH; [intros y Hy; apply Hl; now right|].
  apply add_nonneg; [assumption | apply Hl; now left].
Qed.

(** The number of items of a non-empty array of at most 2^53 elements is a
    finite number above zero. *)
Lemma of_nat_positive (n : nat) :
  (0 < n)%nat -> Z.of_nat n <= 2 ^ 53 ->
  exists md ed, of_nat n = S754_finite false md ed.
Proof.
  intros Hpos Hle. unfold of_nat, of_Z.
  destruct (binary_normalize_mag (Z.of_nat n) false ltac:(lia))
    as (mn & en & E & _).
  exists mn, en. rewrite E. f_equal. apply Z.ltb_ge. lia.
Qed.

Lemma average_nonneg (total : number) (n : nat) :
  (0 < n)%nat -> Z.of_nat n <= 2 ^ 53 -> nonneg total = true ->
  nonneg (roundPrice (div total (of_nat n))) = true.
Proof.
  intros Hpos Hle Ht.
  destruct (of_nat_positive n Hpos Hle) as (md & ed & ->).
  now apply roundPrice_nonneg, div_nonneg.
Qed.

Lemma items_of_length (c : MenuCategory) (items : list MenuItem) :
  (List.length (items_of c items) <= List.length items)%nat.
Proof.
  unfold items_of. induction items as [|x l IH]; simpl; [lia|].
  destruct (category_eqb (category x) c); simpl; lia.
Qed.

(** X12: From prices that pass [isValidPrice], or are missing, the average of
    every category passes [isValidPrice]: it is not NaN and not below zero. *)
Theorem averages_stay_valid (items : list MenuItem) :
  Z.of_nat (List.length items) <= 2 ^ 53 ->
  (forall item p, In item items -> item.(price) = Some p ->
                  isValidPrice (Some p) = true) ->
  forall c v,
    Obj.get c (calculateAveragePriceByCourse items) = Some v ->
    isValidPrice (Some v) = true.
Proof.
  intros Hlen Hprices c v. rewrite get_calculateAveragePriceByCourse.
  unfold category_average.
  pose proof (items_of_length c items) as Hl.
  assert (Hin : forall x, In x (items_of c items) -> In x items)
    by (intros x Hx; unfold items_of in Hx; now apply filter_In in Hx).
  destruct (items_of c items) as [|item l] eqn:E; [discriminate|].
  intros H. injection H as <-. rewrite isValidPrice_nonneg.
  apply average_nonneg.
  - simpl. lia.
  - cbn [List.length] in Hl. lia.
  - unfold sum_prices. apply fold_add_nonneg; [|reflexivity].
    intros x Hx. unfold price_or_default.
    destruct (price x) as [p|] eqn:Ep; [|reflexivity].
    rewrite <- isValidPrice_nonneg. apply (Hprices x p); auto.
Qed.

(** The starters of the menu with an unpriced item average to a valid
    price. *)
Lemma averages_stay_valid_witness :
  Obj.get appetizers (calculateAveragePriceByCourse menu_with_unpriced)
    = Some (of_Z 5) /\
  isValidPrice (Some (of_Z 5)) = true.
Proof.
  split; [vm_compute; reflexivity|].
  apply (averages_stay_valid menu_with_unpriced) with (c := appetizers);
    [vm_compute; discriminate| |].
  - intros item p [<-|[<-|[<-|[]]]] E; try discriminate;
      injection E as <-; reflexivity.
  - vm_compute. reflexivity.
Defined.

(** X13: From prices that are not below zero, be they NaN or missing, the
    total and the average item price of the statistics pass [isValidPrice]. *)
Theorem statistics_stay_valid (items : list MenuItem) (now : Z) (c : Cache) :
  Z.of_nat (List.length items) <= 2 ^ 53 ->
  (forall item p, In item items -> item.(price) = Some p ->
                  lt p zero = false) ->
  let stats := fst (getGlobalStatistics (updateGlobalStatistics items now c)) in
  isValidPrice (Some stats.(stat_totalMenuValue)) = true /\
  isValidPrice (Some stats.(stat_averageItemPrice)) = true.
Proof.
  intros Hlen Hprices. cbv zeta.
  unfold getGlobalStatistics, updateGlobalStatistics.
  cbn [fst stat_totalMenuValue stat_averageItemPrice totalMenuItems
       totalMenuValue].
  fold (total_value items).
  assert (Ht : nonneg (roundPrice (total_value items)) = true).
  { apply roundPrice_nonneg. unfold total_value.
    apply fold_add_nonneg; [|reflexivity].
    intros x Hx. unfold price_or_0.
    destruct (price x) as [p|] eqn:Ep; [|reflexivity].
    pose proof (Hprices x p Hx Ep) as Hp.
    destruct p as [[]|[]| |[] m e]; try reflexivity; discriminate. }
  rewrite !isValidPrice_nonneg. split; [now apply roundPrice_nonneg|].
  destruct items as [|item l]; [reflexivity|].
  cbn [List.length Nat.ltb Nat.leb].
  apply average_nonneg; [lia | assumption | assumption].
Qed.

(** Soup at 10 and cake at 4. *)
Lemma statistics_stay_valid_witness :
  let stats :=
    fst (getGlobalStatistics (updateGlobalStatistics [soup; cake] 7 initial_cache)) in
  isValidPrice (Some stats.(stat_totalMenuValue)) = true /\
  isValidPrice (Some stats.(stat_averageItemPrice)) = true.
Proof.
  apply (statistics_stay_valid [soup; cake] 7 initial_cache);
    [vm_compute; discriminate|].
  intros item p [<-|[<-|[]]] E; injection E as <-; reflexivity.
Defined.

(* ================================================================== *)
(** * parseFloat and white space *)
(* ================================================================== *)

Lemma trimStart_split (s : jsstring) :
  exists p, s = p ++ trimStart s /\ forallb isWhiteSpace p = true.
Proof.
  induction s as [|c s (p & IH & Hp)]; simpl.
  - now exists [].
  - destruct (isWhiteSpace c) eqn:E.
    + exists (c :: p). simpl. rewrite E, <- IH. auto.
    + now exists [].
Qed.

Lemma trimEnd_split (s : jsstring) :
  exists w, s = trimEnd s ++ w /\ forallb isWhiteSpace w = true.
Proof.
  unfold trimEnd. destruct (trimStart_split (rev s)) as (p & Hp & Hw).
  exists (rev p). split.
  - rewrite <- rev_app_distr, <- Hp. now rewrite rev_involutive.
  - rewrite forallb_forall in *. intros c Hc. apply Hw. now apply in_rev.
Qed.

Lemma isDigit_not_space (c : code_unit) :
  isWhiteSpace c = true -> isDigit c = false.
Proof.
  unfold isWhiteSpace, isDigit. intros H.
  destruct (N.leb_spec 48 c); [|reflexivity].
  destruct (N.leb_spec c 57); [|reflexivity]. exfalso.
  repeat rewrite ?orb_true_iff, ?andb_true_iff, ?N.leb_le, ?N.eqb_eq in H.
  lia.
Qed.

Lemma neq_space (a c : code_unit) :
  isWhiteSpace a = false -> isWhiteSpace c = true -> (a =? c)%N = false.
Proof.
  intros Ha Hc. destruct (N.eqb_spec a c); [congruence | reflexivity].
Qed.

Section Trailing.

(** White space after the text. *)
Variable w : jsstring.
Hypothesis Hw : forallb isWhiteSpace w = true.

Lemma startsWith_app (p : jsstring) :
  forallb (fun c => negb (isWhiteSpace c)) p = true ->
  forall u, startsWith (u ++ w) p = startsWith u p.
Proof.
  induction p as [|a p IH]; intros Hp u.
  - now destruct u, w.
  - simpl in Hp. apply andb_prop in Hp as [Ha Hp].
    apply negb_true_iff in Ha.
    destruct u as [|b u]; simpl.
    + destruct w as [|c w']; [reflexivity|]. simpl in Hw.
      apply andb_prop in Hw as [Hc _]. simpl.
      now rewrite (neq_space a c Ha Hc).
    + now rewrite IH.
Qed.

Lemma takeDigits_space : takeDigits w = ([], w).
Proof.
  destruct w as [|c w']; [reflexivity|]. simpl in *.
  apply andb_prop in Hw as [Hc _]. now rewrite (isDigit_not_space c Hc).
Qed.

Lemma takeDigits_app (u : jsstring) :
  takeDigits (u ++ w) = (fst (takeDigits u), snd (takeDigits u) ++ w).
Proof.
  induction u as [|c u IH]; simpl.
  - apply takeDigits_space.
  - destruct (isDigit c); [|reflexivity].
    rewrite IH. now destruct (takeDigits u).
Qed.

Lemma exponentPart_app (r : jsstring) :
  exponentPart (r ++ w) = exponentPart r.
Proof.
  destruct r as [|c s1]; simpl.
  - destruct w as [|c w']; [reflexivity|]. simpl in *.
    apply andb_prop in Hw as [Hc _].
    rewrite (N.eqb_sym c 101), (N.eqb_sym c 69).
    now rewrite !(fun a H => neq_space a c H Hc) by reflexivity.
  - destruct ((c =? 101) || (c =? 69))%N; [|reflexivity].
    destruct s1 as [|sg s2]; simpl.
    + pose proof takeDigits_space as Ht.
      destruct w as [|sg w']; [reflexivity|]. simpl in Hw.
      apply andb_prop in Hw as [Hc _].
      rewrite (N.eqb_sym sg 45), (N.eqb_sym sg 43).
      rewrite !(fun a H => neq_space a sg H Hc) by reflexivity.
      now rewrite Ht.
    + destruct (sg =? 45)%N.
      * now rewrite takeDigits_app.
      * destruct (sg =? 43)%N.
        -- now rewrite takeDigits_app.
        -- change (sg :: s2 ++ w) with ((sg :: s2) ++ w).
           now rewrite takeDigits_app.
Qed.

Lemma unsignedLiteral_app (sign : bool) (u : jsstring) :
  unsignedLiteral sign (u ++ w) = unsignedLiteral sign u.
Proof.
  unfold unsignedLiteral.
  rewrite startsWith_app by reflexivity.
  destruct (startsWith u (lit "Infinity")); [reflexivity|].
  rewrite takeDigits_app. destruct (takeDigits u) as [ip r1]. cbn [fst snd].
  rewrite startsWith_app by reflexivity.
  destruct (startsWith r1 (lit ".")) eqn:E.
  - destruct r1 as [|c r1]; [discriminate|]. cbn [app tl].
    rewrite takeDigits_app. destruct (takeDigits r1) as [fp r3]. cbn [fst snd].
    now rewrite exponentPart_app.
  - now rewrite exponentPart_app.
Qed.

End Trailing.

(** White space around the text changes nothing for [parseFloat]. *)
Lemma parseFloat_trim (s : jsstring) : parseFloat (trim s) = parseFloat s.
Proof.
  unfold parseFloat, trim.
  rewrite (trimStart_id (trimEnd (trimStart s)))
    by apply trimEnd_keeps_clean, trimStart_clean.
  destruct (trimEnd_split (trimStart s)) as (w & Hs & Hw).
  set (u := trimEnd (trimStart s)) in *. rewrite Hs.
  rewrite !(startsWith_app w Hw) by reflexivity.
  destruct (startsWith u (lit "-")) eqn:E1.
  { destruct u as [|c u]; [discriminate|]. cbn [app tl].
    now rewrite unsignedLiteral_app. }
  destruct (startsWith u (lit "+")) eqn:E2.
  { destruct u as [|c u]; [discriminate|]. cbn [app tl].
    now rewrite unsignedLiteral_app. }
  now rewrite unsignedLiteral_app.
Qed.

(** X14: [handleSave] sees the name, the description and the price text only
    up to white space around them: the price text, which is tested trimmed and
    parsed as typed, is parsed to the same price either way, and the form with
    the three fields trimmed is handled as the form as typed. *)
Theorem handleSave_ignores_outer_space (f : Form) (now : Z) (st : Storage) :
  parsePrice (trim f.(form_price)) = parsePrice f.(form_price) /\
  handleSave
    {| form_name := trim f.(form_name);
       form_description := trim f.(form_description);
       form_price := trim f.(form_price);
       form_category := f.(form_category);
       editing := f.(editing) |} now st
  = handleSave f now st.
Proof.
  unfold handleSave, parsePrice.
  cbn [form_name form_description form_price form_category editing].
  now rewrite !trim_idem, parseFloat_trim.
Qed.

Lemma parsePrice_fixpoint (s : jsstring) :
  is_finite (parseFloat s) = true ->
  (Qabs (to_Q (parseFloat s)) <= inject_Z (2 ^ 44))%Q ->
  roundPrice (parsePrice s) = parsePrice s.
Proof.
  intros Hfin Hb. unfold parsePrice.
  destruct (isNaN (parseFloat s) || lt (parseFloat s) zero);
    [reflexivity|].
  now apply roundPrice_fixpoint_bounded.
Qed.

(* ================================================================== *)
(** * Editing an item *)
(* ================================================================== *)

(** A text that is blank does not parse. *)
Lemma parseFloat_blank (s : jsstring) : trim s = [] -> parseFloat s = NaN.
Proof.
  intros H. unfold trim in H.
  destruct (trimEnd_split (trimStart s)) as (w & Hs & Hw).
  rewrite H in Hs. simpl in Hs.
  pose proof (trimStart_clean s) as Hc.
  assert (E : trimStart s = []).
  { destruct (trimStart s) as [|c t]; [reflexivity|].
    subst w. simpl in Hc, Hw. rewrite Hc in Hw. discriminate. }
  unfold parseFloat. rewrite E. reflexivity.
Qed.

(** X15: Opening an item the form has saved and saving it unchanged saves the
    same item again: if the price text of then was finite and at most 2^44,
    and the text [toString] gives for the stored price reads back as that
    price, [handleSave] on the prefilled form passes the very same item to
    [saveMenuItem], under the same id. *)
Theorem edit_unchanged_saves_same_item (ToString : number -> jsstring)
    (f : Form) (now : Z) (st : Storage) (item : MenuItem) :
  In item (saved_items (fst (handleSave f now st))) ->
  is_finite (parseFloat f.(form_price)) = true ->
  (Qabs (to_Q (parseFloat f.(form_price))) <= inject_Z (2 ^ 44))%Q ->
  parseFloat (ToString (parsePrice f.(form_price))) = parsePrice f.(form_price) ->
  forall now' st',
    saved_items (fst (handleSave (prefill ToString item) now' st')) = [item].
Proof.
  intros Hin Hfin Hb Hread now' st'.
  pose proof (isValidPrice_parsePrice (form_price f)) as Hvalid.
  pose proof (parsePrice_fixpoint (form_price f) Hfin Hb) as Hfix.
  revert Hin. unfold handleSave at 1.
  destruct (nonempty (trim (form_name f))) eqn:Hname; cbn [negb orb];
    [|simpl; intros []].
  destruct (nonempty (trim (form_price f))) eqn:Hprice; cbn [negb orb];
    [|simpl; intros []].
  rewrite Hvalid. cbn [negb orb].
  destruct (le (parsePrice (form_price f)) zero) eqn:Hle;
    [simpl; intros []|].
  set (p := parsePrice (form_price f)) in *.
  set (menuItem := {| id := _; name := _; description := _; price := _;
                      category := _ |}).
  intros Hin.
  assert (Hitem : item = menuItem).
  { destruct (saveMenuItem menuItem st); simpl in Hin;
      destruct Hin as [<-|[]]; reflexivity. }
  subst item. clear Hin.
  assert (Hparse : parsePrice (ToString p) = p).
  { unfold parsePrice at 1. rewrite Hread.
    destruct (nonneg_tests p (parsePrice_nonneg (form_price f)))
      as (H1 & H2 & _).
    rewrite H1, H2. exact Hfix. }
  assert (Htext : nonempty (trim (ToString p)) = true).
  { destruct (trim (ToString p)) eqn:E; [|reflexivity].
    apply parseFloat_blank in E. rewrite Hread in E.
    destruct (nonneg_tests p (parsePrice_nonneg (form_price f))) as (H1 & _).
    rewrite E in H1. discriminate. }
  unfold handleSave, prefill. subst menuItem.
  cbn [form_name form_description form_price form_category editing
       name description price category id].
  rewrite !trim_idem, Hname, Htext, Hparse. cbn [negb orb].
  fold p. rewrite Hvalid, Hle. cbn [negb orb].
  match goal with
  | |- saved_items (fst (match ?e with _ => _ end)) = _ =>
      destruct e; reflexivity
  end.
Qed.

(** The burger at 89.999, saved as 90 and read back from the text "90". *)
Lemma edit_unchanged_saves_same_item_witness :
  exists item,
    saved_items (fst (handleSave burger_form 1700000000000
                        {| payload := Absent; writable := true |})) = [item] /\
    saved_items (fst (handleSave (prefill (fun _ => lit "90") item) 1700000000001
                        {| payload := Encoded [item]; writable := true |}))
      = [item].
Proof.
  eexists. split; [reflexivity|].
  apply (edit_unchanged_saves_same_item (fun _ => lit "90") burger_form
           1700000000000 {| payload := Absent; writable := true |}).
  - left. reflexivity.
  - reflexivity.
  - vm_compute. discriminate.
  - vm_compute. reflexivity.
Defined.

(* ================================================================== *)
(** * The shape of a formatted price *)
(* ================================================================== *)

Lemma string_of_uint_digits (d : Decimal.uint) :
  forallb isDigit (lit (NilEmpty.string_of_uint d)) = true.
Proof. induction d; simpl; auto. Qed.

Lemma decimal_digits (n : Z) :
  forallb isDigit (decimal n) = true /\ decimal n <> [].
Proof.
  unfold decimal, NilZero.string_of_uint.
  destruct (N.to_uint (Z.to_N n)) eqn:E;
    (split; [first [reflexivity | apply string_of_uint_digits] | discriminate]).
Qed.

Lemma forallb_repeat {A} (f : A -> bool) (a : A) (n : nat) :
  f a = true -> forallb f (repeat a n) = true.
Proof. intros H. induction n; simpl; auto. now rewrite H. Qed.

(** The digits [toFixed(2)] prints: an integer part of at least one digit,
    a point, two digits. *)
Lemma fixed2_digits_shape (n : Z) :
  exists ip d1 d2,
    fixed2_digits n = ip ++ lit "." ++ [d1; d2] /\
    nonempty ip = true /\ forallb isDigit (ip ++ [d1; d2]) = true.
Proof.
  unfold fixed2_digits. cbv zeta.
  set (m := if n =? 0 then lit "0" else decimal n).
  assert (Hm : forallb isDigit m = true /\ m <> []).
  { subst m. destruct (n =? 0); [split; [reflexivity | discriminate]|].
    apply decimal_digits. }
  destruct Hm as [Hd Hne]. clearbody m.
  set (m' := if (List.length m <=? 2)%nat
             then repeat 48%N (3 - List.length m) ++ m else m).
  assert (Hd' : forallb isDigit m' = true).
  { subst m'. destruct (List.length m <=? 2)%nat; [|assumption].
    rewrite forallb_app. apply andb_true_intro.
    split; [now apply forallb_repeat | exact Hd]. }
  assert (Hlen : (3 <= List.length m')%nat).
  { subst m'. destruct (Nat.leb_spec (List.length m) 2) as [H|H]; [|exact H].
    rewrite length_app, repeat_length. unfold jsstring, code_unit in *. lia. }
  clearbody m'.
  set (k := List.length m') in *.
  pose proof (firstn_skipn (k - 2) m') as Hsplit.
  assert (Hf : List.length (firstn (k - 2) m') = (k - 2)%nat)
    by (apply firstn_length_le; lia).
  assert (Hs : List.length (skipn (k - 2) m') = 2%nat)
    by (rewrite length_skipn; fold k; lia).
  destruct (skipn (k - 2) m') as [|d1 [|d2 [|d3 r]]]; try discriminate.
  exists (firstn (k - 2) m'), d1, d2.
  split; [reflexivity|]. split.
  - destruct (firstn (k - 2) m'); [simpl in Hf; lia | reflexivity].
  - exact (eq_trans (f_equal (forallb isDigit) Hsplit) Hd').
Qed.

(** X16: Every price that is missing, NaN, or finite and below 10^21 in
    magnitude is displayed with exactly two decimals: ["R"], a minus sign for
    a value below zero, at least one digit, a point and two digits. *)
Theorem formatPrice_two_decimals (ToString : number -> jsstring)
    (price : option number) :
  (forall s, price <> Some (S754_infinity s)) ->
  (forall s m e, price = Some (S754_finite s m e) ->
                 at_least_1e21 m e = false) ->
  exists sign ip d1 d2,
    formatPrice ToString price
      = lit "R" ++ sign ++ ip ++ lit "." ++ [d1; d2] /\
    (sign = [] \/ sign = lit "-") /\
    nonempty ip = true /\
    forallb isDigit (ip ++ [d1; d2]) = true.
Proof.
  intros Hinf Hbig.
  assert (Hzero : exists sign ip d1 d2,
             lit "R0.00" = lit "R" ++ sign ++ ip ++ lit "." ++ [d1; d2] /\
             (sign = [] \/ sign = lit "-") /\
             nonempty ip = true /\
             forallb isDigit (ip ++ [d1; d2]) = true).
  { exists [], (lit "0"), 48%N, 48%N. repeat split. now left. }
  destruct price as [[s|s| |s m e]|]; try exact Hzero.
  - destruct (Hinf s eq_refl).
  - unfold formatPrice, toFixed2. cbn [isNaN].
    rewrite (Hbig s m e eq_refl).
    destruct (fixed2_digits_shape (scaled_round m e))
      as (ip & d1 & d2 & -> & Hip & Hd).
    exists (if s then lit "-" else []), ip, d1, d2.
    split; [reflexivity|]. split; [destruct s; auto|]. split; assumption.
Qed.

(** A hundred is displayed with two decimals. *)
Lemma formatPrice_two_decimals_witness :
  exists sign ip d1 d2,
    formatPrice (fun _ => []) (Some hundred)
      = lit "R" ++ sign ++ ip ++ lit "." ++ [d1; d2] /\
    nonempty ip = true.
Proof.
  destruct (formatPrice_two_decimals (fun _ => []) (Some hundred))
    as (sign & ip & d1 & d2 & H & _ & Hip & _).
  - intros s. rewrite hundred_eq. discriminate.
  - intros s m e E. rewrite hundred_eq in E. injection E as <- <- <-.
    reflexivity.
  - exists sign, ip, d1, d2. split; [exact H | exact Hip].
Defined.
